(** * filmow-to-csv: a shallow embedding of [filmow-to-csv.py]

    The development follows the layout of the script: utility functions,
    the page-prefetching functions (worker batch loop, blocking lookup,
    dispatcher), the scrapers, the scanning and scraping loops, target
    parsing and the command line driver.  Python strings are lists of characters, the prefetch cache is a
    finite map, the network and the file system are oracles passed as
    arguments, and the threads are traces of atomic actions that a scheduler
    interleaves.  All definitions come first; the lemmas follow. *)

From Stdlib Require Import ZArith Ascii String List Lia Bool SpecFloat.
From stdpp Require Import base decidable option list sets gmap strings relations
  sorting.

Local Open Scope Z_scope.

(** * Python values *)

(** Python [str] values are lists of characters; [py "..."] writes a
    literal.  Character codes are read as code points 0..255. *)
Abbreviation str := (list ascii).

Definition py (x : string) : str := list_ascii_of_string x.

Definition chr (c : string) : ascii :=
  match c with String a _ => a | EmptyString => Ascii.zero end.

Definition code (c : ascii) : Z := Z.of_N (N_of_ascii c).

Definition newline : ascii := ascii_of_N 10.

Definition eqc (a b : ascii) : bool := bool_decide (a = b).

Definition eqs (a b : str) : bool := bool_decide (a = b).

(** Exceptions the modelled code can raise. *)
Inductive exn :=
  KeyError | ValueError | TypeError | OverflowError | IndexError.

Inductive result (A : Type) :=
| Ok (a : A)
| Raise (e : exn).
Arguments Ok {A} a.
Arguments Raise {A} e.

Definition bind {A B} (r : result A) (f : A → result B) : result B :=
  match r with Ok a => f a | Raise e => Raise e end.

Fixpoint mapM {A B} (f : A → result B) (l : list A) : result (list B) :=
  match l with
  | [] => Ok []
  | a :: l' => bind (f a) (λ b, bind (mapM f l') (λ bs, Ok (b :: bs)))
  end.

(** [str.isspace] on code points below 256. *)
Definition isspace (c : ascii) : bool :=
  let n := code c in
  ((9 <=? n) && (n <=? 13)) || ((28 <=? n) && (n <=? 32))
  || (n =? 133) || (n =? 160).

Definition isdigit (c : ascii) : bool :=
  let n := code c in (48 <=? n) && (n <=? 57).

Definition isupper (c : ascii) : bool :=
  let n := code c in (65 <=? n) && (n <=? 90).

Definition islower (c : ascii) : bool :=
  let n := code c in (97 <=? n) && (n <=? 122).

(** [x.strip()] *)
Fixpoint dropWhile (p : ascii → bool) (x : str) : str :=
  match x with
  | c :: x' => if p c then dropWhile p x' else x
  | [] => []
  end.

Definition strip (x : str) : str :=
  rev (dropWhile isspace (rev (dropWhile isspace x))).

(** [x.lower()] on ASCII letters. *)
Definition lower (x : str) : str :=
  map (λ c, if isupper c then ascii_of_N (N_of_ascii c + 32) else c) x.

(** [x.startswith(p)] *)
Fixpoint startswith (x p : str) : bool :=
  match p, x with
  | [], _ => true
  | a :: p', b :: x' => eqc a b && startswith x' p'
  | _ :: _, [] => false
  end.

(** [x.split(sep)] for a one-character separator: never empty. *)
Fixpoint split (sep : ascii) (x : str) : list str :=
  match x with
  | [] => [[]]
  | c :: x' =>
      if eqc c sep then [] :: split sep x'
      else match split sep x' with
           | p :: ps => (c :: p) :: ps
           | [] => [[c]]
           end
  end.

(** [sep.join(parts)] *)
Fixpoint join (sep : ascii) (parts : list str) : str :=
  match parts with
  | [] => []
  | [p] => p
  | p :: ps => p ++ sep :: join sep ps
  end.

(** [x.rsplit(sep, maxsplit=1)]: cut at the last separator only. *)
Definition rsplit1 (sep : ascii) (x : str) : list str :=
  match rev (split sep x) with
  | [] => []
  | [p] => [p]
  | p :: before => [join sep (rev before); p]
  end.

(** [l[-1]] and [l[-2]] on lists of strings; the callers check the length
    first, so the default is never returned. *)
Definition lastItem (l : list str) : str := List.last l [].

Definition secondToLast (l : list str) : str :=
  match rev l with
  | _ :: p :: _ => p
  | _ => []
  end.

(** [str(n)] for an integer. *)
Fixpoint digitsOf (fuel : nat) (n : Z) (acc : str) : str :=
  match fuel with
  | O => acc
  | S fuel' =>
      let acc' := ascii_of_N (Z.to_N (48 + n mod 10)) :: acc in
      if n <? 10 then acc' else digitsOf fuel' (n / 10) acc'
  end.

Definition strInt (n : Z) : str :=
  if n <? 0 then chr "-" :: digitsOf (Z.to_nat (- n)) (- n) []
  else digitsOf (S (Z.to_nat n)) n [].

(** [range(start, stop, step)] for a positive step (the only use). *)
Definition range (start stop step : Z) : list Z :=
  if step <=? 0 then []
  else map (λ k, start + Z.of_nat k * step)
           (seq 0 (Z.to_nat ((stop - start + step - 1) / step))).

(** * Regular expressions

    The fragment of [re] the script uses, matched by backtracking in the
    order of the [re] module: literals, character classes, concatenation,
    optional groups, greedy and lazy repetition of a character class,
    capturing groups and the anchors [^] and [$].  Without flags, [.]
    excludes the newline and [$] also matches just before a final
    newline. *)

Inductive regex :=
| RLit (w : str)
| RClass (p : ascii → bool)
| RSeq (r1 r2 : regex)
| ROpt (r : regex)
| RRep (p : ascii → bool) (lo : nat) (hi : option nat) (greedy : bool)
| RGroup (n : nat) (r : regex)
| RBol
| REol.

Definition captures := list (nat * str).

Definition orElse {R} (a b : option R) : option R :=
  match a with Some x => Some x | None => b end.

(** [p{lo,hi}] (greedy) or [p{lo,hi}?] (lazy) followed by [k]. *)
Fixpoint rep {R} (p : ascii → bool) (greedy : bool) (lo : nat)
    (hi : option nat) (k : str → option R) (x : str) : option R :=
  let stop := match lo with O => k x | S _ => None end in
  let more :=
    match x with
    | c :: x' =>
        if p c then
          match hi with
          | Some O => None
          | Some (S h) => rep p greedy (Nat.pred lo) (Some h) k x'
          | None => rep p greedy (Nat.pred lo) None k x'
          end
        else None
    | [] => None
    end in
  if greedy then orElse more stop else orElse stop more.

(** [matchK N r x cs k]: match [r] at the suffix [x] of a subject of length
    [N], then continue with [k]; [None] makes the matcher backtrack. *)
Fixpoint matchK {R} (N : nat) (r : regex) (x : str) (cs : captures)
    (k : str → captures → option R) : option R :=
  match r with
  | RLit w => if startswith x w then k (drop (length w) x) cs else None
  | RClass p =>
      match x with
      | c :: x' => if p c then k x' cs else None
      | [] => None
      end
  | RSeq r1 r2 => matchK N r1 x cs (λ x' cs', matchK N r2 x' cs' k)
  | ROpt r' => orElse (matchK N r' x cs k) (k x cs)
  | RRep p lo hi greedy => rep p greedy lo hi (λ x', k x' cs) x
  | RGroup n r' =>
      matchK N r' x cs
        (λ x' cs', k x' ((n, take (length x - length x') x) :: cs'))
  | RBol => if (length x =? N)%nat then k x cs else None
  | REol =>
      match x with
      | [] => k x cs
      | [c] => if eqc c newline then k x cs else None
      | _ => None
      end
  end.

(** One match attempt at the suffix [x]: the unmatched rest and the groups. *)
Definition matchAt (N : nat) (r : regex) (x : str) : option (str * captures) :=
  matchK N r x [] (λ x' cs, Some (x', cs)).

(** [re.match(r, x)] as a truth value. *)
Definition reMatch (r : regex) (x : str) : bool :=
  match matchAt (length x) r x with Some _ => true | None => false end.

(** Replacement templates: text and group references. *)
Inductive titem := TText (w : str) | TGroup (n : nat).

Fixpoint group (n : nat) (cs : captures) : str :=
  match cs with
  | [] => []
  | (m, w) :: cs' => if (m =? n)%nat then w else group n cs'
  end.

Definition expand (tpl : list titem) (cs : captures) : str :=
  concat (map (λ t, match t with TText w => w | TGroup n => group n cs end) tpl).

(** [re.sub(r, tpl, x)]: scan left to right, replace every match; [skip]
    counts the characters of the current match still to be passed over. *)
Fixpoint subWalk (N : nat) (r : regex) (tpl : list titem) (skip : nat)
    (x : str) : str :=
  match skip with
  | S n =>
      match x with
      | _ :: x' => subWalk N r tpl n x'
      | [] => []
      end
  | O =>
      match matchAt N r x with
      | Some (x', cs) =>
          expand tpl cs ++
          match (length x - length x')%nat, x with
          | O, c :: t => c :: subWalk N r tpl O t
          | S n, _ :: t => subWalk N r tpl n t
          | _, [] => []
          end
      | None =>
          match x with
          | c :: t => c :: subWalk N r tpl O t
          | [] => []
          end
      end
  end.

Definition reSub (r : regex) (tpl : list titem) (x : str) : str :=
  subWalk (length x) r tpl O x.

(** Character classes of the patterns. *)
Definition anyChar (c : ascii) : bool := negb (eqc c newline).
Definition notSlash (c : ascii) : bool := negb (eqc c (chr "/")).
Definition notSlashSpace (c : ascii) : bool :=
  negb (eqc c (chr "/")) && negb (isspace c).
Definition wordDash (c : ascii) : bool :=
  islower c || isupper c || isdigit c || eqc c (chr "_") || eqc c (chr "-").
Definition oneOf (w : str) (c : ascii) : bool := existsb (eqc c) w.

Definition RStar (p : ascii → bool) : regex := RRep p 0 None true.
Definition RLazy (p : ascii → bool) : regex := RRep p 0 None false.
Definition RPlus (p : ascii → bool) : regex := RRep p 1 None true.

Fixpoint RCat (rs : list regex) : regex :=
  match rs with
  | [] => RLit []
  | [r] => r
  | r :: rs' => RSeq r (RCat rs')
  end.

(** * Utility functions *)

Section Dedup.
Context {A : Type} {EqA : EqDecision A} {CntA : Countable A}.

(** One iteration of the [for value in l] loop of [deduplicatedList]: the
    state is the pair ([knownValues], [result]). *)
Definition dedupStep (st : gset A * list A) (value : A) : gset A * list A :=
  let '(knownValues, result) := st in
  if decide (value ∈ knownValues) then st
  else ({[value]} ∪ knownValues, result ++ [value]).

Definition deduplicatedList (l : list A) : list A :=
  snd (foldl dedupStep (∅, []) l).

(** Specification: position [i] of [l] is a first occurrence when its
    element does not occur at any earlier position; [firstOccurrences]
    keeps exactly those positions, in order. *)
Definition firstAt (l : list A) (i : nat) : option A :=
  match l !! i with
  | Some v => if decide (v ∈ take i l) then None else Some v
  | None => None
  end.

Definition firstOccurrences (l : list A) : list A :=
  omap (firstAt l) (seq 0 (length l)).
End Dedup.

Definition temporada : str := py "temporada".

Definition isSeasonURL (entryURL : str) : bool :=
  match entryURL with
  | [] => false
  | _ =>
      let nameParts :=
        split (chr "-") (lastItem (rsplit1 (chr "/") (removelast entryURL))) in
      if (length nameParts <? 2)%nat then false
      else eqs (secondToLast nameParts) temporada
  end.

(** [urlToDatesURL_ = re.compile(r'^.*t([0-9]+)/$')] *)
Definition urlToDatesURL_ : regex :=
  RCat [RBol; RStar anyChar; RLit (py "t"); RGroup 1 (RPlus isdigit);
        RLit (py "/"); REol].

Definition datesPrefix : str := py "https://filmow.com/estreias-do-filme/".

Definition datesPageURL (url : str) : str :=
  reSub urlToDatesURL_ [TText datesPrefix; TGroup 1; TText (py "/")] url.

(** * Page-prefetching functions *)

(** What [requests.get] hands back: a response whose truth value is its
    [ok] flag (status below 400), or nothing when the call raised. *)
Record response := { ok : bool; text : str }.

Definition truthy (page : option response) : bool :=
  match page with Some r => ok r | None => false end.

(** [page.text if page else r''] *)
Definition bodyOf (page : option response) : str :=
  match page with
  | Some r => if ok r then text r else []
  | None => []
  end.

(** The network is an oracle: the answer to the [n]-th request of a thread
    for [url] with the given timeout. *)
Definition network := nat → str → Z → option response.

(** What a thread does, one atomic action at a time. *)
Inductive action :=
| Incr                                   (* _activePrefetchers += 1 *)
| Decr                                   (* _activePrefetchers -= 1 *)
| Store (url body : str)                 (* _prefetchedPages[url] = body *)
| Get (url : str) (timeout : Z) (page : option response)
| Sleep (secs : Z).

(** The globals [_activePrefetchers] and [_prefetchedPages]. *)
Record shared := {
  activePrefetchers : Z;
  prefetchedPages : gmap str str
}.

Definition perform (a : action) (sh : shared) : shared :=
  match a with
  | Incr => {| activePrefetchers := activePrefetchers sh + 1;
               prefetchedPages := prefetchedPages sh |}
  | Decr => {| activePrefetchers := activePrefetchers sh - 1;
               prefetchedPages := prefetchedPages sh |}
  | Store url body => {| activePrefetchers := activePrefetchers sh;
                         prefetchedPages := <[url := body]> (prefetchedPages sh) |}
  | Get _ _ _ | Sleep _ => sh
  end.

Definition run (tr : list action) (sh : shared) : shared :=
  foldl (λ sh a, perform a sh) sh tr.

(** The retry loop [for i in range(0, 4)] of [prefetchPages]: the page it
    leaves, the actions it took and the number of requests made so far. *)
Fixpoint attempts (net : network) (url : str) (tries : list Z) (n : nat)
    : option response * list action * nat :=
  match tries with
  | [] => (None, [], n)
  | _ :: tries' =>
      match net n url 5 with
      | Some r => (Some r, [Get url 5 (Some r)], S n)
      | None =>
          let '(page, tr, n') := attempts net url tries' (S n) in
          (page, Get url 5 None :: Sleep 5 :: tr, n')
      end
  end.

(** The local state of a worker between two urls of its batch. *)
Record wstate := {
  failures : Z;
  requests : nat;
  trace : list action
}.

(** The body of [for url in urls]. *)
Definition iteration (net : network) (st : wstate) (url : str) : wstate :=
  let '(page, tr, n) := attempts net url (range 0 4 1) (requests st) in
  let failures1 := failures st + (if truthy page then 0 else 1) in
  let cooldown := 3 <=? failures1 in
  {| failures := if cooldown then 1 else failures1;
     requests := n;
     trace := trace st ++ tr ++ (if cooldown then [Sleep 10] else [])
              ++ [Store url (bodyOf page)] |}.

Definition started : wstate :=
  {| failures := 0; requests := 0; trace := [Incr] |}.

Definition prefetchPages (net : network) (urls : list str) : list action :=
  trace (foldl (iteration net) started urls) ++ [Decr].

(** Whether the fetch of each url of a batch came back without a page. *)
Fixpoint failedFetches (net : network) (n : nat) (urls : list str) : list bool :=
  match urls with
  | [] => []
  | url :: urls' =>
      let '(page, _, n') := attempts net url (range 0 4 1) n in
      negb (truthy page) :: failedFetches net n' urls'
  end.

(** Specification wording: the number of failed fetches at the end of the
    batch so far that are consecutive. *)
Fixpoint consecutiveFailures (failed : list bool) (run : Z) : Z :=
  match failed with
  | [] => run
  | true :: failed' => consecutiveFailures failed' (run + 1)
  | false :: failed' => consecutiveFailures failed' 0
  end.

(** ** The blocking lookup [prefetchedPage]

    The lookup reads the shared state at several moments while the workers
    run; each read is one step, and [lookupStep] is given the shared state
    at the moment of its read. *)
Inductive lookupState :=
| AtActiveTest            (* not _activePrefetchers *)
| AtKeyTest               (* url not in _prefetchedPages *)
| AtGet                   (* requests.get(url, timeout=20, ...) *)
| AtPoll                  (* while (url not in _prefetchedPages): pass *)
| AtIndex                 (* _prefetchedPages[url] *)
| Returned (body : str)
| Raised (e : exn).

Definition lookupStep (page : option response) (url : str)
    (st : lookupState) (sh : shared) : lookupState * list action :=
  match st with
  | AtActiveTest =>
      (if activePrefetchers sh =? 0 then AtKeyTest else AtPoll, [])
  | AtKeyTest =>
      (match prefetchedPages sh !! url with
       | None => AtGet
       | Some _ => AtPoll
       end, [])
  | AtGet => (Returned (bodyOf page), [Get url 20 page])
  | AtPoll =>
      (match prefetchedPages sh !! url with
       | None => AtPoll
       | Some _ => AtIndex
       end, [])
  | AtIndex =>
      (match prefetchedPages sh !! url with
       | Some body => Returned body
       | None => Raised KeyError
       end, [])
  | Returned _ | Raised _ => (st, [])
  end.

Definition finished (st : lookupState) : bool :=
  match st with Returned _ | Raised _ => true | _ => false end.

(** [env t] is the shared state at the lookup's read number [t]. *)
Fixpoint lookupRun (net : network) (env : nat → shared) (url : str)
    (fuel t : nat) (st : lookupState) : lookupState * list action :=
  match fuel with
  | O => (st, [])
  | S fuel' =>
      if finished st then (st, [])
      else
        let '(st', ev) := lookupStep (net O url 20) url st (env t) in
        let '(st'', evs) := lookupRun net env url fuel' (S t) st' in
        (st'', ev ++ evs)
  end.

Definition prefetchedPage (net : network) (env : nat → shared) (url : str)
    (fuel : nat) : lookupState * list action :=
  lookupRun net env url fuel O AtActiveTest.

(** ** The dispatcher [prefetch] *)

(** [[urls[j] for j in range(i, len(urls), workers)]] *)
Definition chunk (urls : list str) (i workers : Z) : list str :=
  omap (λ j, urls !! Z.to_nat j) (range i (Z.of_nat (length urls)) workers).

(** The argument of each thread [prefetch] starts, in starting order. *)
Definition prefetch (urls : list str) (workers : Z) : list (list str) :=
  map (λ i, chunk urls i workers) (range 0 workers 1).

(** The running program: the shared state and, for every thread started so
    far, the actions it still has to perform. *)
Record config := {
  mem : shared;
  pool : list (list action)
}.

(** [prefetch] starts its threads and returns: the new threads have not
    acted yet and the shared state is as it was.  [nets i] is the network as
    thread [i] of the call sees it. *)
Definition dispatch (nets : nat → network) (urls : list str) (workers : Z)
    (c : config) : config :=
  {| mem := mem c;
     pool := pool c ++ imap (λ i ch, prefetchPages (nets i) ch)
                            (prefetch urls workers) |}.

(** The scheduler lets any thread perform its next action. *)
Inductive step : config → config → Prop :=
| step_thread c i a tr :
    pool c !! i = Some (a :: tr) →
    step c {| mem := perform a (mem c); pool := <[i := tr]> (pool c) |}.

(** The writes to the cache entry of [url] that the threads still hold. *)
Definition isStore (url : str) (a : action) : bool :=
  match a with Store u _ => eqs u url | _ => false end.

Definition stores (url : str) (tr : list action) : nat :=
  length (filter (λ a, isStore url a = true) tr).

Definition pending (url : str) (p : list (list action)) : nat :=
  sum_list_with (stores url) p.

(** * Scraping: the user ratings of a library page *)

(** [int(x)] on a string: surrounding whitespace, an optional sign, then
    decimal digits in which single underscores may separate digits. *)
Fixpoint digitsVal (x : str) (acc : Z) (afterDigit : bool) : option Z :=
  match x with
  | [] => if afterDigit then Some acc else None
  | c :: x' =>
      if isdigit c then digitsVal x' (10 * acc + (code c - 48)) true
      else if eqc c (chr "_") && afterDigit then digitsVal x' acc false
      else None
  end.

Definition int (x : str) : result Z :=
  let y := strip x in
  let '(neg, digits) :=
    match y with
    | c :: y' =>
        if eqc c (chr "-") then (true, y')
        else if eqc c (chr "+") then (false, y') else (false, y)
    | [] => (false, y)
    end in
  match digitsVal digits 0 false with
  | Some n => Ok (if neg : bool then - n else n)
  | None => Raise ValueError
  end.

(** Python floats are IEEE 754 binary64 numbers. *)
Definition exact (n : Z) : spec_float :=
  match n with
  | Z0 => S754_zero false
  | Zpos p => S754_finite false p 0
  | Zneg p => S754_finite true p 0
  end.

Definition fmul (x y : spec_float) : spec_float := SFmul 53 1024 x y.

(** [a / b] on integers: the correctly rounded quotient, [OverflowError]
    when it is too large for a float, [ZeroDivisionError] left out as the
    divisor is a non-zero literal at both uses. *)
Definition truediv (a b : Z) : result spec_float :=
  match SFdiv 53 1024 (exact a) (exact b) with
  | S754_infinity _ => Raise OverflowError
  | q => Ok q
  end.

(** The integer nearest to [scale * x], ties to even, for a finite [x]. *)
Definition nearest (scale : Z) (x : spec_float) : Z :=
  match x with
  | S754_finite _ m e =>
      let num := scale * Zpos m in
      if 0 <=? e then num * 2 ^ e
      else
        let den := 2 ^ (- e) in
        let q := num / den in
        let r := num mod den in
        match 2 * r ?= den with
        | Gt => q + 1
        | Eq => if Z.even q then q else q + 1
        | Lt => q
        end
  | _ => 0
  end.

Definition negative (x : spec_float) : bool :=
  match x with
  | S754_zero b | S754_infinity b | S754_finite b _ _ => b
  | S754_nan => false
  end.

(** [str(round(x, 1))]: [round] rounds the exact value of [x] to one
    decimal, ties to even, and [str] prints the float nearest to that
    decimal, which is the decimal itself as long as [x] is below 1e16 and
    the positional notation is used. *)
Definition strRound1 (x : spec_float) : str :=
  let sign := if negative x then py "-" else [] in
  match x with
  | S754_nan => py "nan"
  | S754_infinity _ => sign ++ py "inf"
  | _ =>
      let t := nearest 10 x in
      sign ++ strInt (t / 10) ++ py "." ++ strInt (t mod 10)
  end.

(** [round(x)] to an integer. *)
Definition roundInt (x : spec_float) : Z :=
  if negative x then - nearest 1 x else nearest 1 x.

(** A [div] of class [average], with its [style] attribute if it has one,
    and a [div] of class [user-rating] with the [average] divs inside. *)
Record averageDiv := { style : option str }.
Record ratingDiv := { averages : list averageDiv }.

(** [r'.*?([0-9]+)(\.[0-9]+)%;?$'] *)
Definition ratingWidth : regex :=
  RCat [RLazy anyChar; RGroup 1 (RPlus isdigit);
        RGroup 2 (RSeq (RLit (py ".")) (RPlus isdigit));
        RLit (py "%"); ROpt (RLit (py ";")); REol].

(** [str(round(((n / 100) * 5), 1))] for an integer [n], and the whole
    expression [str(round(((int(rating) / 100) * 5), 1))]. *)
Definition ratingOf (n : Z) : result str :=
  bind (truediv n 100) (λ q, Ok (strRound1 (fmul q (exact 5)))).

Definition rescale (rating : str) : result str :=
  bind (int rating) ratingOf.

(** The first loop of [userRatings], for one [user-rating] div: the empty
    string without an [average] div, else what the substitution leaves of
    the style of the first one. *)
Definition styleWidth (rating : ratingDiv) : result str :=
  match averages rating with
  | [] => Ok []
  | first :: _ =>
      match style first with
      | Some st => Ok (reSub ratingWidth [TGroup 1] st)
      | None => Raise KeyError
      end
  end.

(** The element of the returned list for one string of the first loop. *)
Definition fromWidth (rating : str) : result str :=
  match rating with
  | [] => Ok []
  | _ => rescale rating
  end.

(** [page] is the list [page.find_all(r'div', class_=r'user-rating')]. *)
Definition userRatings (page : list ratingDiv) : result (list str) :=
  bind (mapM styleWidth page) (mapM fromWidth).

(** * Target parsing and the command line

    The script's own control flow is modelled in full; the scraping of the
    fetched pages and the writing of the tables are collaborators found in
    the [world], next to the file system and the network as the main thread
    sees them. *)

(** An entry tuple [(url, rating, titleType)]. *)
Definition entry : Type := str * str * str.

Record world := {
  getcwd : str;
  isdir : str → bool;
  isfile : str → bool;
  (** [open(p).read()], nothing when it raises *)
  readFile : str → option str;
  (** the status of [requests.head(url, ...)], nothing when it raises *)
  requestsHead : str → option Z;
  (** [requests.get(url, timeout=15, ...)] in [entries] *)
  requestsGet : str → option response;
  (** the rest of [entries] once the first page is there (page counting,
      prefetching and scanning of the list pages) *)
  scanPages : str → str → Z → bool → response → result (list entry);
  (** [collect(partialEntries, outputFile, titleTypes, total, currentStart)] *)
  collect : list entry → str → list ascii → Z → Z → result ()
}.

(** What the process does that can be seen from outside. *)
Inductive event :=
| Out (x : str)                          (* written to stdout *)
| Err (x : str)                          (* written to stderr *)
| Head (url : str)                       (* the reachability probe *)
| Fetch (url : str)                      (* first page of a collection *)
| Spawn (threads : list (list str))      (* a call of prefetch *)
| Collect (outputFile : str) (partialEntries : list entry).  (* collect(...) *)

(** How the process ends: [exit(n)], an uncaught exception, or the end of
    the script. *)
Inductive ending :=
| Exited (n : Z)
| Crashed (e : exn)
| Completed.


(** A computation of the main thread: its events, then a value or the end
    of the process. *)
Definition proc (A : Type) : Type := list event * (A + ending).

Definition ret {A} (a : A) : proc A := ([], inl a).
Definition emit (e : event) : proc () := ([e], inl ()).
Definition stop {A} (e : ending) : proc A := ([], inr e).
Definition andThen {A B} (m : proc A) (k : A → proc B) : proc B :=
  match m with
  | (evs, inl a) => let '(evs', r) := k a in (evs ++ evs', r)
  | (evs, inr e) => (evs, inr e)
  end.
Definition lift {A} (r : result A) : proc A :=
  match r with Ok a => ret a | Raise e => stop (Crashed e) end.

Notation "'do' x <- m ; k" := (andThen m (λ x, k))
  (at level 10, x pattern, m at level 60, k at level 200).
Notation "m ;; k" := (andThen m (λ _, k))
  (at level 100, k at level 200, right associativity).

Definition esc : ascii := ascii_of_N 27.
Definition nl : str := [newline].

(** ** [parseTarget] *)

Definition filmowPrefix : regex :=
  RCat [RBol;
        ROpt (RGroup 1 (RCat [RLit (py "http"); ROpt (RLit (py "s"));
                              RLit (py "://")]));
        ROpt (RGroup 2 (RLit (py "www.")));
        RLit (py "filmow")].

Definition listURL : regex :=
  RCat [RBol; RLit (py "https://filmow.com/listas/");
        RGroup 1 (RPlus notSlashSpace); ROpt (RLit (py "/")); REol].

Definition lastNotSlash : regex := RCat [RGroup 1 (RClass notSlash); REol].

Definition userURL : regex :=
  RCat [RBol; RLit (py "https://filmow.com/usuario/"); RPlus notSlashSpace;
        ROpt (RGroup 1 (RSeq (RLit (py "/")) (RStar anyChar))); REol].

Definition userTail : regex :=
  RCat [RLit (py ".com/usuario/"); RGroup 1 (RPlus notSlash);
        ROpt (RGroup 2 (RSeq (RLit (py "/")) (RStar anyChar))); REol].

Definition userBase : regex :=
  RCat [RBol; RLit (py "https://filmow.com/usuario/");
        RGroup 1 (RPlus notSlashSpace); RLit (py "/"); REol].

Definition listId : regex :=
  RCat [RBol; RPlus wordDash; RLit (py "-l"); RPlus isdigit; REol].

Definition userId : regex := RCat [RBol; RPlus wordDash; REol].

(** The tuple [parseTarget] builds before it probes: nothing stands for
    [(None, None, None)]. *)
Definition classify (url : str) : option (bool * str * str) :=
  if reMatch listURL url then
    let name := reSub listURL [TGroup 1] url in
    Some (false, reSub lastNotSlash [TGroup 1; TText (py "/")] url, name)
  else if reMatch userURL url then
    let baseURL :=
      reSub userTail [TText (py ".com/usuario/"); TGroup 1; TText (py "/")] url in
    let name := reSub userBase [TGroup 1] baseURL in
    Some (true, baseURL, name)
  else if reMatch listId url then
    Some (false, py "https://filmow.com/listas/" ++ lower url ++ py "/", lower url)
  else if reMatch userId url then
    Some (true, py "https://filmow.com/usuario/" ++ lower url ++ py "/", lower url)
  else None.

(** Line 325: the target with the site prefix put in one form. *)
Definition normalise (target : str) : str :=
  reSub filmowPrefix [TText (py "https://filmow")] (strip target).

Definition parseTarget (w : world) (target : str)
    : proc (option (bool * str * str)) :=
  let url := normalise target in
  match classify url with
  | None =>
      emit (Err (py "Invalid username or URL: " ++ url ++ nl)) ;;
      ret None
  | Some (isUserNotList, baseURL, name) =>
      emit (Head baseURL) ;;
      (match requestsHead w baseURL with
       | None =>
           emit (Err (esc :: py "[31mCouldn't reach " ++ baseURL
                      ++ esc :: py "[0m" ++ nl))
       | Some code =>
           if (400 <=? code) && (code <? 600) then
             emit (Err (esc :: py "[31mCouldn't reach " ++ baseURL
                        ++ esc :: py "[0m" ++ nl))
           else if (code <? 200) || (203 <? code) then
             emit (Err (esc :: py "[31mGot a " ++ strInt code
                        ++ py " response from " ++ baseURL
                        ++ esc :: py "[0m" ++ nl))
           else ret ()
       end) ;;
      ret (Some (isUserNotList, baseURL, name))
  end.

(** ** [entries] *)

Definition titleTypeOf (t : str) : str :=
  match t with
  | c :: _ =>
      if oneOf (py "st") c then py "series"
      else if eqc c (chr "c") then py "short"
      else if eqc c (chr "f") then py "film"
      else []
  | [] => []
  end.

Definition entries (w : world) (baseURL t : str) (nPrefetcherThreads : Z)
    (isList : bool) : proc (list entry) :=
  emit (Out (py "Collecting entries from " ++ baseURL ++ nl)) ;;
  emit (Fetch baseURL) ;;
  match requestsGet w baseURL with
  | None =>
      emit (Err (esc :: py "[31mCouldn't reach " ++ baseURL
                 ++ esc :: py "[0m" ++ nl)) ;;
      ret []
  | Some page =>
      lift (scanPages w baseURL (titleTypeOf t) nPrefetcherThreads isList page)
  end.

(** ** The command line *)

Record settings := {
  outputPath : str;
  titleTypes : list str;
  userCollections : list ascii;
  nPrefetcherThreads : Z;
  tryFetchingYearFromDatesPages : bool
}.

Definition defaults (w : world) : settings :=
  {| outputPath := getcwd w;
     titleTypes := [py "filmes/"; py "curtas/"; py "series/"; py "tv/"];
     userCollections := [chr "W"; chr "w"; chr "F"];
     nPrefetcherThreads := 15;
     tryFetchingYearFromDatesPages := true |}.

Definition withTitleTypes (st : settings) (tt : list str) : settings :=
  {| outputPath := outputPath st; titleTypes := tt;
     userCollections := userCollections st;
     nPrefetcherThreads := nPrefetcherThreads st;
     tryFetchingYearFromDatesPages := tryFetchingYearFromDatesPages st |}.

Definition withCollections (st : settings) (cs : list ascii) : settings :=
  {| outputPath := outputPath st; titleTypes := titleTypes st;
     userCollections := cs;
     nPrefetcherThreads := nPrefetcherThreads st;
     tryFetchingYearFromDatesPages := tryFetchingYearFromDatesPages st |}.

Definition withThreads (st : settings) (n : Z) : settings :=
  {| outputPath := outputPath st; titleTypes := titleTypes st;
     userCollections := userCollections st;
     nPrefetcherThreads := n;
     tryFetchingYearFromDatesPages := tryFetchingYearFromDatesPages st |}.

Definition withoutYear (st : settings) : settings :=
  {| outputPath := outputPath st; titleTypes := titleTypes st;
     userCollections := userCollections st;
     nPrefetcherThreads := nPrefetcherThreads st;
     tryFetchingYearFromDatesPages := false |}.

Definition withOutputPath (st : settings) (p : str) : settings :=
  {| outputPath := p; titleTypes := titleTypes st;
     userCollections := userCollections st;
     nPrefetcherThreads := nPrefetcherThreads st;
     tryFetchingYearFromDatesPages := tryFetchingYearFromDatesPages st |}.

(** [r'^[0-9]{1,2}$'] and [r'^-[wWF]'] *)
Definition threadCount : regex :=
  RCat [RBol; RRep isdigit 1 (Some 2%nat) true; REol].
Definition collectionFlag : regex :=
  RCat [RBol; RLit (py "-"); RClass (oneOf (py "wWF"))].

(** The loop [for option in argv[1:-1]]. *)
Fixpoint options (opts : list str) (st : settings) (nextOptionIsN : bool)
    : proc settings :=
  match opts with
  | [] => ret st
  | option :: opts' =>
      if nextOptionIsN then
        if negb (reMatch threadCount option) then
          emit (Err (py "Invalid number of threads: " ++ option ++ nl)) ;;
          stop (Exited 2)
        else
          do n <- lift (int option);
          options opts' (withThreads st n) false
      else if eqs option (py "-S") then
        options opts' (withTitleTypes st [py "series/"; py "tv/"]) false
      else if eqs option (py "-l") then
        options opts' (withTitleTypes st [py "filmes/"]) false
      else if eqs option (py "-s") then
        options opts' (withTitleTypes st [py "curtas/"]) false
      else if eqs option (py "-f") then
        options opts' (withTitleTypes st [py "filmes/"; py "curtas/"]) false
      else if reMatch collectionFlag option then
        options opts' (withCollections st (take 1 (drop 1 option))) false
      else if eqs option (py "-y") then options opts' (withoutYear st) false
      else if eqs option (py "-t") then options opts' st true
      else if negb (eqs option (outputPath st)) then
        emit (Err (py "Invalid option: " ++ option ++ nl)) ;;
        options opts' st false
      else options opts' st false
  end.

Definition helpText : str := py "
  Options:

  -S         only collect series entries (tv programs included)
  -l         only collect feature-length film entries
  -s         only collect short film entries
  -f         only collect film (both short and feature-length) entries

  -w         only collect user's watchlist
  -W         only collect user's watched entries
  -F         only collect user's favorite entries

  -y         try " ++ esc :: py "[3mnot as hard" ++ esc :: py "[0m to fetch 'Year' metadata from entries

  -t N       download up to N entries in parallel (default: 15)

  -h         display this help and exit
" ++ nl.

(** [re.split(r'[\\/]', argv[0])[-1]] *)
Fixpoint afterLastSep (x acc : str) : str :=
  match x with
  | [] => acc
  | c :: x' =>
      if oneOf (py "\/") c then afterLastSep x' [] else afterLastSep x' (acc ++ [c])
  end.

(** Lines 361 to 388: the options, or the end of the process. *)
Definition commandLine (w : world) (argv : list str) : proc settings :=
  match argv with
  | [] => stop (Crashed IndexError)
  | argv0 :: args =>
      if match args with
         | [] => true
         | a :: _ => eqs a (py "-h") || eqs a (py "--help")
         end
      then
        emit (Err (py "Usage: " ++ afterLastSep argv0 []
                   ++ py " [OPTIONS] [OUTPUT_DIR] USER|USER_URL|LIST_URL" ++ nl)) ;;
        (match args with [] => ret () | _ => emit (Out helpText) end) ;;
        stop (Exited 0)
      else if (3 <=? length argv)%nat then
        let before := secondToLast argv in
        do st <-
          (if isdir w before then ret (withOutputPath (defaults w) before)
           else if negb (startswith before (py "-")) then
             emit (Err (py "Invalid output directory: " ++ lastItem argv ++ nl)) ;;
             stop (Exited 1)
           else ret (defaults w));
        options (removelast args) st false
      else ret (defaults w)
  end.

(** [path.split(p)[-1]] and [path.splitext(b)[0]] *)
Definition basename (p : str) : str := lastItem (rsplit1 (chr "/") p).

Definition stem (b : str) : str :=
  match rsplit1 (chr ".") b with
  | [before; _] => if forallb (eqc (chr ".")) before then b else before
  | _ => b
  end.

(** [path.join(a, b)] *)
Definition pathJoin (a b : str) : str :=
  if startswith b (py "/") then b
  else match rev a with
       | [] => b
       | c :: _ => if eqc c (chr "/") then a ++ b else a ++ chr "/" :: b
       end.

(** [x.splitlines()] *)
Definition isLineBreak (c : ascii) : bool :=
  let n := code c in
  ((10 <=? n) && (n <=? 13)) || ((28 <=? n) && (n <=? 30)) || (n =? 133).

Fixpoint splitlines (x cur : str) (afterCR : bool) : list str :=
  match x with
  | [] => match cur with [] => [] | _ => [cur] end
  | c :: x' =>
      if afterCR && eqc c newline then splitlines x' cur false
      else if isLineBreak c then cur :: splitlines x' [] (code c =? 13)
      else splitlines x' (cur ++ [c]) false
  end.

(** [r'^https?://(www\.)?filmow'] *)
Definition filmowLine : regex :=
  RCat [RBol; RLit (py "http"); ROpt (RLit (py "s")); RLit (py "://");
        ROpt (RGroup 1 (RLit (py "www."))); RLit (py "filmow")].

(** Line 410: the entries of a local list file. *)
Definition fileEntries (lines : list str) : list entry :=
  map (λ e, (e, [], [])) (List.filter (reMatch filmowLine) lines).

(** Lines 420 to 424: the entries scraped from a list page. *)
Definition listPageEntries (titleTypes : list str) (scraped : list entry)
    : list entry :=
  let listEntries := deduplicatedList scraped in
  if negb (bool_decide (py "series/" ∈ titleTypes)) then
    List.filter (λ '(url, _, _), negb (isSeasonURL url)) listEntries
  else
    map (λ '(url, r, t), (url, r, if isSeasonURL url then py "series" else t))
        listEntries.

Definition urlOf (e : entry) : str := e.1.1.

(** Lines 412 to 418. *)
Fixpoint userEntries (w : world) (baseURL : str) (st : settings)
    (tts : list str) (acc : list entry * list entry * list entry)
    : proc (list entry * list entry * list entry) :=
  match tts with
  | [] => ret acc
  | titleType :: tts' =>
      let '(watched, watchlist, favorites) := acc in
      let n := nPrefetcherThreads st in
      do watched <-
        (if oneOf (userCollections st) (chr "W") then
           do es <- entries w (baseURL ++ titleType ++ py "ja-vi/") titleType n false;
           ret (watched ++ es)
         else ret watched);
      do watchlist <-
        (if oneOf (userCollections st) (chr "w") then
           do es <- entries w (baseURL ++ titleType ++ py "quero-ver/") titleType n false;
           ret (watchlist ++ es)
         else ret watchlist);
      do favorites <-
        (if oneOf (userCollections st) (chr "F") then
           do es <- entries w (baseURL ++ titleType ++ py "favoritos/") titleType n false;
           ret (favorites ++ es)
         else ret favorites);
      userEntries w baseURL st tts' (watched, watchlist, favorites)
  end.

(** [1 + round(nPrefetcherThreads * 0.15)] *)
Definition datesWorkers (n : Z) : Z :=
  1 + roundInt (fmul (exact n) (SFdiv 53 1024 (exact 15) (exact 100))).

(** One of the four [if (...): collect(...)] lines. *)
Definition collectInto (w : world) (es : list entry) (file : str)
    (types : list ascii) (total currentStart : Z) : proc () :=
  match es with
  | [] => ret ()
  | _ =>
      emit (Collect file es) ;;
      lift (collect w es file types total currentStart)
  end.

(** Lines 391 to 398: the target, as a local file or through
    [parseTarget]. *)
Definition resolve (w : world) (argv : list str)
    : proc (option bool * str * str) :=
  let target := lastItem argv in
  if isfile w target then ret (None, target, stem (basename target))
  else
    do parsed <- parseTarget w target;
    match parsed with
    | None => stop (Crashed TypeError)   (* stderr.write(name), name is None *)
    | Some (isUser, baseURL, name) => ret (Some isUser, baseURL, name)
    end.

(** Lines 399 to 442: collecting, prefetching, scraping and the end. *)
Definition gather (w : world) (st : settings)
    (resolved : option bool * str * str) : proc () :=
  let '(isUserNotList, baseURL, name) := resolved in
  let name :=
    (if (length (titleTypes st) <? 4)%nat
     then name ++ py "_" ++ removelast (hd [] (titleTypes st))
     else name) ++ py ".csv" in
  do (watched, watchlist, favorites, listEntries) <-
    (match isUserNotList with
     | None =>
         match readFile w baseURL with
         | None =>
             emit (Err (py "Couldn't read '" ++ baseURL ++ py "'" ++ nl)) ;;
             stop (Exited 3)
         | Some content =>
             ret ([], [], [], fileEntries (splitlines content [] false))
         end
     | Some true =>
         do (watched, watchlist, favorites) <-
           userEntries w baseURL st (titleTypes st) ([], [], []);
         ret (watched, watchlist, favorites, [])
     | Some false =>
         do scraped <- entries w baseURL (py "?") (nPrefetcherThreads st) true;
         ret ([], [], [], listPageEntries (titleTypes st) scraped)
     end);
  let urls := map urlOf watched ++ map urlOf watchlist
              ++ map urlOf favorites ++ map urlOf listEntries in
  emit (Spawn (prefetch urls (nPrefetcherThreads st))) ;;
  (if tryFetchingYearFromDatesPages st then
     emit (Spawn (prefetch (map datesPageURL urls)
                           (datesWorkers (nPrefetcherThreads st))))
   else ret ()) ;;
  let types := map (λ t, hd Ascii.zero t) (titleTypes st) in
  let total := Z.of_nat (length urls) in
  let out := outputPath st in
  collectInto w listEntries (pathJoin out (py "list_" ++ name)) types total 0 ;;
  collectInto w watched (pathJoin out (py "watched_" ++ name)) types total 0 ;;
  collectInto w watchlist (pathJoin out (py "watchlist_" ++ name)) types total
    (Z.of_nat (length watched)) ;;
  collectInto w favorites (pathJoin out (py "favorites_" ++ name)) types total
    (Z.of_nat (length watched) + Z.of_nat (length watchlist)) ;;
  emit (Out (py "Done!" ++ nl)).

(** Lines 390 to 442, after the command line has been read. *)
Definition script (w : world) (argv : list str) (st : settings) : proc () :=
  do resolved <- resolve w argv; gather w st resolved.

(** The whole run: what it shows and how it ends. *)
Definition main (w : world) (argv : list str) : list event * ending :=
  match (do st <- commandLine w argv; script w argv st) with
  | (evs, inl _) => (evs, Completed)
  | (evs, inr e) => (evs, e)
  end.

(** * Specification-side definitions *)

(** The value of a string of decimal digits. *)
Definition decimal (d : str) : Z :=
  fold_left (λ acc c, 10 * acc + (code c - 48)) d 0.

(** The longest prefix whose characters satisfy [p]. *)
Fixpoint takeWhile (p : ascii → bool) (x : str) : str :=
  match x with
  | c :: x' => if p c then c :: takeWhile p x' else []
  | [] => []
  end.

(** Specification wording of the season test: the last path segment of a
    url is what stands between its final slash and the slash before it, and
    the url is a season url when the second-to-last of the tokens that the
    hyphens delimit in that segment is the season word. *)
Definition withoutFinalSlash (url : str) : str :=
  match rev url with
  | c :: before => if eqc c (chr "/") then rev before else url
  | [] => url
  end.

Definition lastPathSegment (url : str) : str :=
  lastItem (split (chr "/") (withoutFinalSlash url)).

Definition seasonToken (url : str) : bool :=
  let tokens := split (chr "-") (lastPathSegment url) in
  (2 <=? length tokens)%nat && eqs (secondToLast tokens) temporada.

(** The loop of [deduplicatedList], unrolled from a set of known values. *)
Fixpoint dedupFrom {A} `{Countable A} (known : gset A) (l : list A) : list A :=
  match l with
  | [] => []
  | value :: l' =>
      if decide (value ∈ known) then dedupFrom known l'
      else value :: dedupFrom ({[value]} ∪ known) l'
  end.

(** [k] failed attempts of the retry loop, each followed by its pause. *)
Definition retries (url : str) (k : nat) : list action :=
  concat (replicate k [Get url 5 None; Sleep 5]).

(** How many times [url] occurs in a list of urls. *)
Definition occurrences (url : str) (urls : list str) : nat :=
  length (filter (λ u, u = url) urls).

(** The cache entry of [url] in a configuration. *)
Definition cacheAt (url : str) (c : config) : option str :=
  prefetchedPages (mem c) !! url.

(** The part of [urlToDatesURL_] after [^.*] and the part of [ratingWidth]
    after [.*?]. *)
Definition datesTail : regex :=
  RCat [RLit (py "t"); RGroup 1 (RPlus isdigit); RLit (py "/"); REol].



(** A rating bar with one [average] div of the given style. *)
Definition bar (st : string) : ratingDiv :=
  {| averages := [ {| style := Some (py st) |} ] |}.




Definition doneLine : event := Out (py "Done!" ++ nl).

(** ** Sample inputs *)

(** A network that is down, and one on which the pages [a], [c], [e] cannot
    be fetched while every other page can. *)
Definition down : network := λ _ _ _, None.

Definition flaky : network :=
  λ _ url _,
    if oneOf (py "ace") (hd Ascii.zero url) then None
    else Some {| ok := true; text := py "page" |}.


Definition nothing : shared :=
  {| activePrefetchers := 0; prefetchedPages := ∅ |}.

(** Shared states as a lookup may read them: a worker is active and the
    entry of [u] appears at the fourth read. *)
Definition arriving (t : nat) : shared :=
  {| activePrefetchers := 1;
     prefetchedPages := if (t <? 3)%nat then ∅ else {[ py "u" := py "X" ]} |}.

(** A machine without network on which no path exists, and one on which
    [list.txt] holds the url of a season. *)
Definition offline : world :=
  {| getcwd := py "/tmp";
     isdir := λ _, false;
     isfile := λ _, false;
     readFile := λ _, None;
     requestsHead := λ _, None;
     requestsGet := λ _, None;
     scanPages := λ _ _ _ _ _, Ok [];
     collect := λ _ _ _ _ _, Ok () |}.

Definition seasonURL : str :=
  py "https://filmow.com/breaking-bad-1a-temporada-t28426/".

Definition withListFile : world :=
  {| getcwd := py "/tmp";
     isdir := λ _, false;
     isfile := λ p, eqs p (py "list.txt");
     readFile := λ p, if eqs p (py "list.txt") then Some (seasonURL ++ nl)
                      else None;
     requestsHead := λ _, None;
     requestsGet := λ _, None;
     scanPages := λ _ _ _ _ _, Ok [];
     collect := λ _ _ _ _ _, Ok () |}.


(** * Further definitions for the page-prefetching functions *)

(** The urls a thread writes to the cache, in the order of its writes. *)
Definition storedURLs (tr : list action) : list str :=
  omap (λ a, match a with Store u _ => Some u | _ => None end) tr.

(** The number of requests in a trace and the seconds it sleeps. *)
Definition isGet (a : action) : bool :=
  match a with Get _ _ _ => true | _ => false end.

Definition requestCount (tr : list action) : nat :=
  foldr (λ a acc, if isGet a then S acc else acc) O tr.

Definition slept (tr : list action) : Z :=
  foldr (λ a acc, match a with Sleep secs => secs + acc | _ => acc end) 0 tr.

(** The stages of a worker: not started, running, finished. *)
Inductive stage : list action → Prop :=
| stage_new mid :
    Incr ∉ mid → Decr ∉ mid → stage (Incr :: mid ++ [Decr])
| stage_running mid :
    Incr ∉ mid → Decr ∉ mid → stage (mid ++ [Decr])
| stage_finished : stage [].

(** A worker is running between its increment and its decrement of the
    counter: actions are left and the first is not the increment. *)
Definition running (tr : list action) : bool :=
  match tr with
  | [] | Incr :: _ => false
  | _ => true
  end.

Definition runningCount (p : list (list action)) : nat :=
  sum_list_with (λ tr, if running tr then 1%nat else 0%nat) p.

(** * [truncatedURL] *)

(** [x.rjust(width)] and the slice [x[start:]]. *)
Definition rjust (x : str) (width : Z) : str :=
  replicate (Z.to_nat (width - Z.of_nat (length x))) (chr " ") ++ x.

Definition sliceFrom (x : str) (start : Z) : str :=
  let len := Z.of_nat (length x) in
  drop (Z.to_nat (if start <? 0 then Z.max (len + start) 0 else start)) x.

Definition truncatedURL (url : str) (maxSize : Z) : str :=
  if Z.of_nat (length url) <? maxSize then rjust (strip url) maxSize
  else py "..." ++ sliceFrom url (- (maxSize - 3)).

(** The forms of the site prefix that [parseTarget] accepts before
    [filmow]. *)
Definition sitePrefixes : list str :=
  [[]; py "http://"; py "https://"; py "www."; py "http://www.";
   py "https://www."].

(** The forms of the site prefix that a line of a local list file must
    begin with. *)
Definition linePrefixes : list str :=
  [py "http://"; py "https://"; py "http://www."; py "https://www."].

(** * The scan of the pages of a collection: the loop of [entries] *)

(** What the scan reads in a fetched page: the [href] of every [a] with a
    [data-movie-pk] attribute (nothing where the [a] has no [href]) and the
    [div]s of class [user-rating]. *)
Record libPage := {
  movieLinks : list (option str);
  ratingBars : list ratingDiv
}.

(** [baseURL + r'?pagina=' + str(i)] *)
Definition pageURL (baseURL : str) (i : Z) : str :=
  baseURL ++ py "?pagina=" ++ strInt i.

(** The loop [for i in range(1, 10000)]: [lookup] is [prefetchedPage] as
    the main thread sees it and [parse] what is read in a page. *)
Fixpoint scanLoop (lookup : str → str) (parse : str → libPage)
    (baseURL : str) (pageNumbers : list Z) (urls : list (option str))
    (ratings : list str) : result (list (option str) * list str) :=
  match pageNumbers with
  | [] => Ok (urls, ratings)
  | i :: rest =>
      let page := lookup (pageURL baseURL i) in
      match page with
      | [] => Ok (urls, ratings)
      | _ =>
          let foundURLs := movieLinks (parse page) in
          if match foundURLs with [] => true | _ => false end
             || (match urls with [] => false | _ => true end
                 && bool_decide (last foundURLs = last urls))
          then Ok (urls, ratings)
          else
            bind (userRatings (ratingBars (parse page))) (λ rs,
              scanLoop lookup parse baseURL rest
                (urls ++ deduplicatedList foundURLs) (ratings ++ rs))
      end
  end.

(** [re.sub(r'^/', r'https://filmow.com/', url)]; the substitution raises
    [TypeError] on [None]. *)
Definition leadingSlash : regex := RCat [RBol; RLit (py "/")].

Definition absoluteURL (url : option str) : result str :=
  match url with
  | Some u => Ok (reSub leadingSlash [TText (py "https://filmow.com/")] u)
  | None => Raise TypeError
  end.

(** Lines 316 and 317: the entry tuples. *)
Definition pairUp (urls ratings : list str) (t : str) : result (list entry) :=
  match ratings with
  | [] => Ok (map (λ url, (url, [], t)) urls)
  | _ =>
      mapM (λ i, match urls !! i, ratings !! i with
                 | Some url, Some rating => Ok (url, rating, t)
                 | _, _ => Raise IndexError
                 end)
           (seq 0 (length urls))
  end.

(** Lines 306 to 317. *)
Definition scanCollection (lookup : str → str) (parse : str → libPage)
    (baseURL t : str) : result (list entry) :=
  bind (scanLoop lookup parse baseURL (range 1 10000 1) [] [])
       (λ '(urls, ratings),
          bind (mapM absoluteURL urls) (λ urls', pairUp urls' ratings t)).

(** A collection of two pages; any further page repeats the second. *)
Definition twoPages : str → libPage :=
  λ page,
    if eqs page (py "1") then
      {| movieLinks := [Some (py "/a-t1/"); Some (py "/a-t1/"); Some (py "/b-t2/")];
         ratingBars := [bar "width: 80.0%;"; bar "width: 60.0%;"] |}
    else
      {| movieLinks := [Some (py "/c-t3/")];
         ratingBars := [bar "width: 100.0%;"] |}.

Definition twoPagesLookup (url : str) : str :=
  if eqs url (py "u?pagina=1") then py "1" else py "2".

(** * The number of pages of a collection *)

(** [int(a.get(r'href').rsplit(r'=', maxsplit=1)[-1])] *)
Definition pageNumber (href : str) : result Z :=
  int (lastItem (rsplit1 (chr "=") href)).

(** [libPageCount]: [pageLinks] holds the [href] of every link selected by
    [a[href*=\?pagina\=]]; [sorted] is any sort of the integers. *)
Definition libPageCount (pageLinks : list str) : result Z :=
  match pageLinks with
  | [] => Ok 1
  | _ =>
      bind (mapM pageNumber pageLinks)
           (λ numbers, Ok (List.last (merge_sort Z.le numbers) 0))
  end.

(** Lines 303 to 305: the shards of the page prefetch of [entries]. *)
Definition pagePrefetch (baseURL : str) (totalPages nPrefetcherThreads : Z)
    : list (list str) :=
  if 1 <? totalPages then
    prefetch (map (pageURL baseURL) (range 1 (totalPages + 1) 1))
             (Z.min totalPages nPrefetcherThreads)
  else [].

(** * Scraping: running time, title type and year of an entry page *)

(** [\w] on code points below 256 (letters, digits, numeric signs and the
    underscore) and its complement [\W]. *)
Definition isword (c : ascii) : bool :=
  let n := code c in
  ((48 <=? n) && (n <=? 57)) || ((65 <=? n) && (n <=? 90)) || (n =? 95)
  || ((97 <=? n) && (n <=? 122)) || (n =? 170)
  || ((178 <=? n) && (n <=? 179)) || (n =? 181)
  || ((185 <=? n) && (n <=? 186)) || ((188 <=? n) && (n <=? 190))
  || ((192 <=? n) && (n <=? 214)) || ((216 <=? n) && (n <=? 246))
  || (248 <=? n).

Definition nonWord (c : ascii) : bool := negb (isword c).

(** [r'^\W*([0-9]+).*$'] *)
Definition runtimeText : regex :=
  RCat [RBol; RStar nonWord; RGroup 1 (RPlus isdigit); RStar anyChar; REol].

(** [runtime]: [minutes] holds the text of every [span] of class
    [running_time]. *)
Definition runtime (minutes : list str) : str :=
  match minutes with
  | [] => []
  | first :: _ => reSub runtimeText [TGroup 1] (strip first)
  end.


(** [x.casefold()] on code points below 256.  The micro sign (181) folds to
    a code point above 255 and is left as it is: no string holding either
    of the two is equal to one of the names [titleType] compares with. *)
Definition casefold (x : str) : str :=
  flat_map (λ c,
    let n := code c in
    if ((65 <=? n) && (n <=? 90))
       || ((192 <=? n) && (n <=? 222) && negb (n =? 215))
    then [ascii_of_N (N_of_ascii c + 32)]
    else if n =? 223 then py "ss"
    else [c]) x.

(** The name of the series tab, [séries]. *)
Definition seriesTab : str := chr "s" :: ascii_of_N 233 :: py "ries".

(** [titleType]: [active] holds the text of every [li] of class
    [active]. *)
Definition titleType (active : list str) (runtime : str) : result str :=
  let elements := map strip active in
  let elements :=
    map casefold
        (List.filter (λ e, negb (bool_decide (newline ∈ e))) elements) in
  match elements with
  | first :: _ =>
      if eqs first seriesTab then Ok (py "series")
      else if eqs first (py "tv") then Ok (py "series")
      else if eqs first (py "filmes") then
        match runtime with
        | [] => Ok (py "film")
        | _ =>
            bind (int runtime)
                 (λ n, Ok (if n <? 45 then py "short" else py "film"))
        end
      else Ok []
  | [] => Ok []
  end.

(** A [div] of class [item release_date]: its text and the text of each
    [div] inside it. *)
Record releaseDate := { dateText : str; dateDivs : list str }.

(** [r'.*([0-9]{4})$'] *)
Definition finalYear : regex :=
  RCat [RStar anyChar; RGroup 1 (RRep isdigit 4 (Some 4%nat) true); REol].

(** [year]: [date] holds the [div]s of class [item release_date]. *)
Definition year (date : list releaseDate) : str :=
  match date with
  | [] => []
  | first :: _ =>
      if negb (startswith (strip (dateText first)) (py "Estreia Mundial"))
      then []
      else
        match dateDivs first with
        | [] => []
        | inner :: _ =>
            match inner with
            | [] => []
            | _ => reSub finalYear [TGroup 1] (reSub (RClass nonWord) [] inner)
            end
        end
  end.

(** * The scraping loop: [yearFromDatesPage] and [collect] *)

Definition cr : ascii := ascii_of_N 13.

(** [x.ljust(width)] and [x[-4:]] *)
Definition ljust (x : str) (width : Z) : str :=
  x ++ replicate (Z.to_nat (width - Z.of_nat (length x))) (chr " ").

Definition lastFour (x : str) : str := drop (length x - 4) x.

(** The loop of [yearFromDatesPage]: [dates] holds, for every [tr] of the
    dates page, the text of its [td]s. *)
Fixpoint worldwide (dates : list (list str)) : str :=
  match dates with
  | [] => []
  | details :: dates' =>
      match details with
      | place :: day :: _ :: _ =>
          if eqs place (py "Mundial") then lastFour (strip day)
          else worldwide dates'
      | _ => worldwide dates'
      end
  end.

Definition yearFromDatesPage (lookup : str → str)
    (parseDates : str → list (list str)) (entryURL : str) : str :=
  match lookup (datesPageURL entryURL) with
  | [] => []
  | page => worldwide (parseDates page)
  end.

(** What the scrapers read in the page of an entry; the results of
    [originalTitle] and [directors] are taken as read. *)
Record entryPage := {
  runningTimes : list str;
  activeTabs : list str;
  releaseDates : list releaseDate;
  originalTitle : str;
  directors : str
}.

(** A row of the table: the eight lists of [entries] are appended to
    together, and nothing can be seen of them in between. *)
Record row := {
  rowTitle : str;
  rowYear : str;
  rowDirectors : str;
  rowRating : str;
  rowRuntime : str;
  rowReview : str;
  rowTitleType : str;
  rowURL : str
}.

(** The state of [collect]: the table so far, the urls passed to
    [prefetchedPage] and what was written to the terminal. *)
Record scraped := {
  table : list row;
  lookups : list str;
  shown : list event
}.

(** [not (titleType_ and (titleType_[0] not in titleTypes))] *)
Definition allowed (titleTypes : list ascii) (titleType_ : str) : bool :=
  match titleType_ with
  | [] => true
  | c :: _ => oneOf titleTypes c
  end.

(** The two messages for an entry that cannot be read. *)
Definition warning (colour what url : str) (i : nat) (total : str)
    : list event :=
  [Err (cr :: esc :: colour ++ ljust (what ++ url) 80
        ++ esc :: py "[0;0m" ++ nl);
   Out (py "Reading entry "
        ++ ljust (strInt (Z.of_nat i) ++ py "/" ++ total) 66)].

(** The body of [for i in range(0, len(partialEntries))]. *)
Definition collectEntry (lookup : str → str) (parse : str → entryPage)
    (datesYear : str → str) (titleTypes : list ascii) (total : str)
    (currentStart : Z) (i : nat) (e : entry) (st : scraped)
    : result scraped :=
  let '(url, rating, titleType_) := e in
  if negb (allowed titleTypes titleType_) then Ok st
  else
    let text := lookup url in
    let lookups' := lookups st ++ [url] in
    match text with
    | [] =>
        Ok {| table := table st;
              lookups := lookups';
              shown := shown st
                       ++ warning (py "[2;31m") (py "Couldn't access ") url i
                                  total |}
    | _ =>
        let shown1 :=
          shown st
          ++ [Out (cr :: py "Reading entry "
                   ++ ljust (strInt (currentStart + Z.of_nat i + 1)
                             ++ py "/" ++ total) 11);
              Out (esc :: py "[2m" ++ truncatedURL url 55
                   ++ esc :: py "[0m")] in
        let page := parse text in
        let runtime_ := runtime (runningTimes page) in
        bind (match titleType_ with
              | [] => titleType (activeTabs page) runtime_
              | _ => Ok titleType_
              end)
             (λ titleType_,
                if negb (allowed titleTypes titleType_) then
                  Ok {| table := table st; lookups := lookups';
                        shown := shown1 |}
                else
                  let year_ := year (releaseDates page) in
                  Ok {| table :=
                          table st
                          ++ [ {| rowTitle := originalTitle page;
                                  rowYear := match year_ with
                                             | [] => datesYear url
                                             | _ => year_
                                             end;
                                  rowDirectors := directors page;
                                  rowRating := rating;
                                  rowRuntime := runtime_;
                                  rowReview := [];
                                  rowTitleType := titleType_;
                                  rowURL := url |} ];
                        lookups := lookups';
                        shown :=
                          match originalTitle page with
                          | [] =>
                              shown1
                              ++ warning (py "[2;33m")
                                         (py "Couldn't fetch title from ")
                                         url i total
                          | _ => shown1
                          end |})
    end.

Fixpoint collectFrom (lookup : str → str) (parse : str → entryPage)
    (datesYear : str → str) (titleTypes : list ascii) (total : str)
    (currentStart : Z) (i : nat) (partialEntries : list entry) (st : scraped)
    : result scraped :=
  match partialEntries with
  | [] => Ok st
  | e :: rest =>
      bind (collectEntry lookup parse datesYear titleTypes total currentStart
                         i e st)
           (collectFrom lookup parse datesYear titleTypes total currentStart
                        (S i) rest)
  end.

(** [collect]: the table handed to [DataFrame] and written to
    [outputFile], or the exception that ends the call before anything is
    written.  [datesYear] is [yearFromDatesPage], or [blankMetadata] after
    the option [-y]. *)
Definition collectTable (lookup : str → str) (parse : str → entryPage)
    (datesYear : str → str) (partialEntries : list entry) (outputFile : str)
    (titleTypes : list ascii) (total currentStart : Z) : result scraped :=
  let total := strInt total in
  bind (collectFrom lookup parse datesYear titleTypes total currentStart O
          partialEntries
          {| table := []; lookups := [];
             shown := [Out (py "Reading entry "
                            ++ ljust (py "0/" ++ total) 66)] |})
       (λ st,
          Ok {| table := table st;
                lookups := lookups st;
                shown :=
                  shown st
                  ++ [Out (cr :: ljust (py "Finished reading " ++ total
                                        ++ py " entries") 80 ++ nl);
                      Out (py "Generating csv table..." ++ nl);
                      Out (py "Table saved to '" ++ outputFile ++ py "'"
                           ++ nl)] |}).

(** * Deduplication *)

Section DedupFacts.
Context {A : Type} {EqA : EqDecision A} {CntA : Countable A}.
Implicit Types (l : list A) (known : gset A).

Lemma foldl_dedupStep known result l :
  foldl dedupStep (known, result) l
  = (known ∪ list_to_set l, result ++ dedupFrom known l).
Proof.
  revert known result. induction l as [|v l IH]; intros known result; simpl.
  - f_equal; [set_solver | by rewrite app_nil_r].
  - destruct (decide (v ∈ known)) as [Hin|Hin]; rewrite IH.
    + f_equal. set_solver.
    + f_equal; [set_solver | by rewrite <- app_assoc].
Qed.

Lemma deduplicatedList_dedupFrom l : deduplicatedList l = dedupFrom ∅ l.
Proof. unfold deduplicatedList. by rewrite foldl_dedupStep. Qed.

Lemma elem_of_dedupFrom known l x :
  x ∈ dedupFrom known l ↔ x ∈ l ∧ x ∉ known.
Proof.
  revert known. induction l as [|v l IH]; intros known; simpl.
  - set_solver.
  - destruct (decide (v ∈ known)).
    + rewrite IH. set_solver.
    + rewrite elem_of_cons, IH. destruct (decide (x = v)); set_solver.
Qed.

Lemma NoDup_dedupFrom known l : NoDup (dedupFrom known l).
Proof.
  revert known. induction l as [|v l IH]; intros known; simpl.
  - constructor.
  - destruct (decide (v ∈ known)); [apply IH|].
    constructor; [|apply IH]. rewrite elem_of_dedupFrom. set_solver.
Qed.

Lemma sublist_dedupFrom known l : sublist (dedupFrom known l) l.
Proof.
  revert known. induction l as [|v l IH]; intros known; simpl.
  - constructor.
  - destruct (decide (v ∈ known)); [apply sublist_cons | apply sublist_skip];
      apply IH.
Qed.

(** A list without repeats whose elements are all fresh is copied. *)
Lemma dedupFrom_NoDup known l :
  NoDup l → (∀ x, x ∈ l → x ∉ known) → dedupFrom known l = l.
Proof.
  revert known. induction l as [|v l IH]; intros known Hnd Hfresh; simpl.
  - done.
  - apply NoDup_cons in Hnd as [Hv Hnd].
    destruct (decide (v ∈ known)) as [Hin|_].
    + exfalso. apply (Hfresh v); [left | done].
    + f_equal. apply IH; [done|]. intros x Hx. set_solver.
Qed.

Lemma dedupFrom_firstAt (p l : list A) :
  omap (firstAt (p ++ l)) (seq (length p) (length l))
  = dedupFrom (list_to_set p) l.
Proof.
  revert p. induction l as [|v l IH]; intros p; simpl.
  - done.
  - unfold firstAt at 1.
    rewrite lookup_app_r by lia. rewrite Nat.sub_diag. simpl.
    rewrite take_app_length.
    replace (p ++ v :: l) with ((p ++ [v]) ++ l) by (by rewrite <- app_assoc).
    replace (S (length p)) with (length (p ++ [v]))
      by (rewrite length_app; simpl; lia).
    rewrite IH.
    replace (list_to_set (p ++ [v]) : gset A)
      with ({[v]} ∪ list_to_set p : gset A) by set_solver.
    destruct (decide (v ∈ p)) as [Hp|Hp],
      (decide (v ∈ (list_to_set p : gset A))) as [Hs|Hs]; simpl.
    + f_equal. apply set_eq. intros x. set_solver.
    + destruct Hs. by apply elem_of_list_to_set.
    + destruct Hp. by apply elem_of_list_to_set in Hs.
    + done.
Qed.

Lemma elem_of_deduplicatedList l x : x ∈ deduplicatedList l ↔ x ∈ l.
Proof.
  rewrite deduplicatedList_dedupFrom, elem_of_dedupFrom. set_solver.
Qed.

(** C6. [deduplicatedList x] is the subsequence of [x] made of the first
    occurrence of each element, in the original order: it equals
    [firstOccurrences x], has no repeats, is a subsequence of [x] and has
    the same elements; and deduplicating twice is the same as once. *)
Theorem deduplicatedList_stable_idempotent (x : list A) :
  deduplicatedList x = firstOccurrences x
  ∧ NoDup (deduplicatedList x)
  ∧ sublist (deduplicatedList x) x
  ∧ (∀ v, v ∈ deduplicatedList x ↔ v ∈ x)
  ∧ deduplicatedList (deduplicatedList x) = deduplicatedList x.
Proof.
  rewrite !deduplicatedList_dedupFrom. repeat split.
  - symmetry. apply (dedupFrom_firstAt [] x).
  - apply NoDup_dedupFrom.
  - apply sublist_dedupFrom.
  - intros Hv. by apply elem_of_dedupFrom in Hv as [? _].
  - intros Hv. apply elem_of_dedupFrom. set_solver.
  - apply dedupFrom_NoDup; [apply NoDup_dedupFrom | set_solver].
Qed.
End DedupFacts.


(** * The worker: retries and cooldown *)

Lemma elem_of_retries url k a :
  a ∈ retries url k → a = Get url 5 None ∨ a = Sleep 5.
Proof.
  unfold retries. induction k as [|k IH]; simpl; [by intros ?%elem_of_nil|].
  rewrite !elem_of_cons. intros [->|[->|H]]; auto.
Qed.

Lemma attempts_spec net url tries n :
  ∃ k : nat,
    (k ≤ length tries)%nat
    ∧ (∀ i, (i < k)%nat → net (n + i)%nat url 5 = None)
    ∧ ((∃ r, net (n + k)%nat url 5 = Some r
             ∧ (k < length tries)%nat
             ∧ attempts net url tries n
               = (Some r, retries url k ++ [Get url 5 (Some r)], S (n + k)))
       ∨ (k = length tries
          ∧ attempts net url tries n = (None, retries url k, (n + k)%nat))).
Proof.
  revert n. induction tries as [|i tries IH]; intros n.
  - exists O. split; [done|]. split; [intros; lia|]. right.
    by rewrite Nat.add_0_r.
  - simpl. destruct (net n url 5) as [r|] eqn:Hnet.
    + exists O. split; [lia|]. split; [intros; lia|]. left. exists r.
      rewrite Nat.add_0_r. split; [done|]. split; [simpl; lia | done].
    + destruct (IH (S n)) as (k & Hk & Hfail & Hend). exists (S k).
      split; [simpl; lia|]. split.
      * intros [|j] Hj; [by rewrite Nat.add_0_r|].
        replace (n + S j)%nat with (S n + j)%nat by lia. apply Hfail. lia.
      * replace (n + S k)%nat with (S n + k)%nat by lia.
        destruct Hend as [(r & Hr & Hlt & ->)|(-> & ->)].
        -- left. exists r. split; [done|]. split; [simpl; lia | done].
        -- right. done.
Qed.

Lemma iteration_trace net st url :
  ∃ cooldown,
    (cooldown = [] ∨ cooldown = [Sleep 10])
    ∧ trace (iteration net st url)
      = trace st ++ (attempts net url (range 0 4 1) (requests st)).1.2
        ++ cooldown
        ++ [Store url (bodyOf (attempts net url (range 0 4 1) (requests st)).1.1)].
Proof.
  unfold iteration.
  destruct (attempts net url (range 0 4 1) (requests st)) as [[page tr] n'].
  simpl. destruct (3 <=? _); eauto.
Qed.

Lemma foldl_iteration_trace net urls st :
  ∃ mid,
    trace (foldl (iteration net) st urls) = trace st ++ mid
    ∧ (Incr ∉ mid) ∧ (Decr ∉ mid)
    ∧ ∀ url, url ∈ urls → ∃ body, Store url body ∈ mid.
Proof.
  revert st. induction urls as [|url urls IH]; intros st; simpl.
  - exists []. rewrite app_nil_r. set_solver.
  - destruct (IH (iteration net st url)) as (mid & Hmid & Hi & Hd & Hst).
    destruct (iteration_trace net st url) as (cd & Hcd & Htr).
    destruct (attempts_spec net url (range 0 4 1) (requests st))
      as (k & _ & _ & Hend).
    assert (Hget : ∀ a, a ∈ (attempts net url (range 0 4 1) (requests st)).1.2
                       → a ≠ Incr ∧ a ≠ Decr).
    { intros a Ha.
      assert (Hr : ∀ b, b ∈ retries url k → b ≠ Incr ∧ b ≠ Decr).
      { intros b [-> | ->]%elem_of_retries; done. }
      destruct Hend as [(r & _ & _ & Heq)|(_ & Heq)]; rewrite Heq in Ha;
        simpl in Ha; [|by apply Hr].
      apply elem_of_app in Ha as [Ha|Ha]; [by apply Hr|]. set_solver. }
    eexists. rewrite Hmid, Htr, <- !app_assoc. split; [done|].
    assert (Hcd' : ∀ a, a ∈ cd → a ≠ Incr ∧ a ≠ Decr)
      by (destruct Hcd as [-> | ->]; set_solver).
    repeat split.
    + rewrite !elem_of_app. intros [H|[H|[H|H]]];
        [by apply Hget in H as [? _] | by apply Hcd' in H as [? _]
        | set_solver | done].
    + rewrite !elem_of_app. intros [H|[H|[H|H]]];
        [by apply Hget in H as [_ ?] | by apply Hcd' in H as [_ ?]
        | set_solver | done].
    + intros u Hu. apply elem_of_cons in Hu as [-> | Hu].
      * eexists. rewrite !elem_of_app. right. right. left. by left.
      * destruct (Hst u Hu) as [body Hb]. exists body.
        rewrite !elem_of_app. by repeat right.
Qed.

Lemma failures_bounds net urls :
  0 ≤ failures (foldl (iteration net) started urls) ≤ 2.
Proof.
  assert (H : ∀ st, 0 ≤ failures st ≤ 2
                    → 0 ≤ failures (foldl (iteration net) st urls) ≤ 2).
  { induction urls as [|url urls IH]; intros st Hst; simpl; [done|].
    apply IH. unfold iteration.
    destruct (attempts net url (range 0 4 1) (requests st)) as [[page tr] n'].
    simpl. destruct (truthy page); destruct (3 <=? _) eqn:Hc; lia. }
  apply H. simpl. lia.
Qed.



(** C3, amended.  The counter of a worker is never reset by a fetch that
    succeeds: it counts the fetches of the batch that came back without a
    usable page since the last cooldown (plus one).  It stays between 0 and
    2 from one url to the next; a failed fetch that brings it to 3 is
    followed by a pause of 10 seconds before the result is stored and the
    next url is taken, and leaves the counter at 1. *)
Theorem cooldown_every_third_failure (net : network) (urls : list str)
    (url : str) :
  let st := foldl (iteration net) started urls in
  let fetched := attempts net url (range 0 4 1) (requests st) in
  let page := fetched.1.1 in
  let st' := iteration net st url in
  0 ≤ failures st ≤ 2
  ∧ (truthy page = true →
     failures st' = failures st
     ∧ trace st' = trace st ++ fetched.1.2 ++ [Store url (bodyOf page)])
  ∧ (truthy page = false → failures st < 2 →
     failures st' = failures st + 1
     ∧ trace st' = trace st ++ fetched.1.2 ++ [Store url (bodyOf page)])
  ∧ (truthy page = false → failures st = 2 →
     failures st' = 1
     ∧ trace st' = trace st ++ fetched.1.2 ++ [Sleep 10; Store url (bodyOf page)]).
Proof.
  intros st fetched page st'.
  pose proof (failures_bounds net urls) as Hb. fold st in Hb.
  split; [done|]. subst st' page fetched. unfold iteration.
  destruct (attempts net url (range 0 4 1) (requests st)) as [[page tr] n'].
  simpl. split; [|split].
  - intros ->. destruct (3 <=? failures st + 0) eqn:Hc; [lia|].
    split; [lia | done].
  - intros -> Hf. destruct (3 <=? failures st + 1) eqn:Hc; [lia | done].
  - intros -> Hf. destruct (3 <=? failures st + 1) eqn:Hc; [done | lia].
Qed.

Lemma cooldown_every_third_failure_witness :
  failures (iteration down (foldl (iteration down) started [py "a"; py "b"])
                      (py "c")) = 1.
Proof.
  destruct (cooldown_every_third_failure down [py "a"; py "b"] (py "c"))
    as (_ & _ & _ & H).
  apply H; reflexivity.
Defined.

(** C3 as stated fails: on a batch whose first, third and fifth urls fail
    while the second and fourth succeed, the worker takes the cooldown
    although no three failures were consecutive. *)
Lemma cooldown_without_consecutive_failures :
  ¬ (∀ (net : network) (urls : list str),
       Sleep 10 ∈ prefetchPages net urls →
       ∃ pre post,
         failedFetches net 0 urls = pre ++ [true; true; true] ++ post).
Proof.
  intros H.
  destruct (H flaky [py "a"; py "b"; py "c"; py "d"; py "e"])
    as (pre & post & Heq).
  - apply list_elem_of_In. vm_compute. tauto.
  - vm_compute in Heq.
    do 6 (destruct pre as [|? pre]; simpl in Heq; try discriminate Heq);
      try (injection Heq; intros; discriminate).
Qed.


(** * The dispatcher: round-robin shards *)

Lemma range_lookup start stop step (k : nat) :
  0 < step →
  range start stop step !! k
  = if (k <? Z.to_nat ((stop - start + step - 1) / step))%nat
    then Some (start + Z.of_nat k * step) else None.
Proof.
  intros Hstep. unfold range.
  destruct (step <=? 0) eqn:Hs; [lia|].
  rewrite list_lookup_fmap.
  destruct (k <? _)%nat eqn:Hk.
  - apply Nat.ltb_lt in Hk. by rewrite lookup_seq_lt.
  - apply Nat.ltb_ge in Hk. by rewrite lookup_seq_ge.
Qed.

Lemma range_length start stop step :
  0 < step →
  length (range start stop step) = Z.to_nat ((stop - start + step - 1) / step).
Proof.
  intros Hstep. unfold range. destruct (step <=? 0) eqn:Hs; [lia|].
  by rewrite length_map, length_seq.
Qed.

Lemma lookup_omap_total {A B} (h : A → option B) (l : list A) (k : nat) :
  Forall (λ x, is_Some (h x)) l → omap h l !! k = l !! k ≫= h.
Proof.
  intros Hall. revert k. induction Hall as [|x l [y Hy] Hall IH]; intros k.
  - done.
  - simpl. rewrite Hy. destruct k as [|k]; simpl; [done | apply IH].
Qed.

(** Shard [i] holds, in order, the urls at the indices [i], [i + workers],
    [i + 2 * workers], ... *)
Lemma chunk_lookup (urls : list str) (i workers : Z) (k : nat) :
  0 ≤ i → 0 < workers →
  chunk urls i workers !! k = urls !! Z.to_nat (i + Z.of_nat k * workers).
Proof.
  intros Hi Hw. unfold chunk.
  set (len := Z.of_nat (length urls)).
  set (cnt := Z.to_nat ((len - i + workers - 1) / workers)).
  assert (Hin : ∀ k' : nat, (k' < cnt)%nat → i + Z.of_nat k' * workers < len).
  { intros k' Hk'. subst cnt.
    pose proof (Z.mul_div_le (len - i + workers - 1) workers Hw). nia. }
  assert (Hout : ∀ k' : nat, (cnt ≤ k')%nat → len ≤ i + Z.of_nat k' * workers).
  { intros k' Hk'. subst cnt.
    pose proof (Z.mul_succ_div_gt (len - i + workers - 1) workers Hw).
    destruct (Z_le_gt_dec 0 ((len - i + workers - 1) / workers)); nia. }
  rewrite lookup_omap_total.
  - rewrite range_lookup by done. fold len cnt.
    destruct (k <? cnt)%nat eqn:Hk; simpl; [done|].
    apply Nat.ltb_ge in Hk. symmetry. apply lookup_ge_None.
    specialize (Hout k Hk). subst len. lia.
  - apply Forall_forall. intros j Hj.
    apply list_elem_of_lookup in Hj as [k' Hk'].
    rewrite range_lookup in Hk' by done. fold len cnt in Hk'.
    destruct (k' <? cnt)%nat eqn:Hlt; [|done].
    apply Nat.ltb_lt in Hlt. injection Hk' as <-.
    apply lookup_lt_is_Some. specialize (Hin k' Hlt). subst len. lia.
Qed.

Lemma prefetch_lookup (urls : list str) (workers : Z) (i : nat) :
  (i < Z.to_nat workers)%nat →
  prefetch urls workers !! i = Some (chunk urls (Z.of_nat i) workers).
Proof.
  intros Hi. unfold prefetch. rewrite list_lookup_fmap.
  rewrite range_lookup by lia.
  replace ((workers - 0 + 1 - 1) / 1) with workers by (rewrite Z.div_1_r; lia).
  apply Nat.ltb_lt in Hi. rewrite Hi. simpl. do 2 f_equal. lia.
Qed.

Lemma prefetch_length (urls : list str) (workers : Z) :
  length (prefetch urls workers) = Z.to_nat workers.
Proof.
  unfold prefetch. rewrite length_map, range_length by lia.
  f_equal. rewrite Z.div_1_r. lia.
Qed.

Lemma prefetchPages_shape net urls :
  ∃ mid, prefetchPages net urls = Incr :: mid ++ [Decr]
         ∧ (Incr ∉ mid) ∧ (Decr ∉ mid).
Proof.
  unfold prefetchPages.
  destruct (foldl_iteration_trace net urls started) as (mid & -> & ? & ? & _).
  by exists mid.
Qed.

(** C5, amended.  [prefetch(urls, workers)] starts [workers] threads (none
    when [workers] is not positive); thread [i] is given, in order, the urls
    at the indices [i], [i + workers], [i + 2 * workers], ...; when
    [workers] is at least 1 every index of [urls] is at exactly one
    position of exactly one shard.  The dispatcher returns at once: the
    shared state is as before and the new threads have all their actions
    ahead of them.  Each worker increments the counter once, first, and
    decrements it once, last. *)
Theorem prefetch_round_robin (nets : nat → network) (urls : list str)
    (workers : Z) (c : config) :
  length (prefetch urls workers) = Z.to_nat workers
  ∧ (∀ i : nat, (i < Z.to_nat workers)%nat →
       ∃ ch, prefetch urls workers !! i = Some ch
             ∧ ∀ k : nat, ch !! k = urls !! (i + k * Z.to_nat workers)%nat)
  ∧ (1 ≤ workers → ∀ j : nat, (j < length urls)%nat →
       ∃ i k : nat,
         (i < Z.to_nat workers)%nat ∧ j = (i + k * Z.to_nat workers)%nat
         ∧ ∀ i' k' : nat, (i' < Z.to_nat workers)%nat →
             j = (i' + k' * Z.to_nat workers)%nat → i' = i ∧ k' = k)
  ∧ (workers ≤ 0 → prefetch urls workers = [])
  ∧ mem (dispatch nets urls workers c) = mem c
  ∧ pool (dispatch nets urls workers c)
    = pool c ++ imap (λ i ch, prefetchPages (nets i) ch) (prefetch urls workers)
  ∧ (∀ net ch, ∃ mid, prefetchPages net ch = Incr :: mid ++ [Decr]
                      ∧ (Incr ∉ mid) ∧ (Decr ∉ mid)).
Proof.
  split; [apply prefetch_length|]. split; [|split; [|split]].
  - intros i Hi. eexists. split; [by apply prefetch_lookup|].
    intros k. rewrite chunk_lookup by lia. f_equal. lia.
  - intros Hw j Hj. set (W := Z.to_nat workers). assert (W ≠ 0)%nat by lia.
    exists (j mod W)%nat, (j / W)%nat. split; [by apply Nat.mod_upper_bound|].
    split; [rewrite (Nat.div_mod_eq j W) at 1; lia|].
    intros i' k' Hi' Hj'. split.
    + apply (Nat.mod_unique j W k' i'); lia.
    + apply (Nat.div_unique j W k' i'); lia.
  - intros Hw. apply length_zero_iff_nil. rewrite prefetch_length. lia.
  - repeat split. apply prefetchPages_shape.
Qed.

Lemma prefetch_round_robin_witness :
  ∃ i k : nat,
    (i < Z.to_nat 2)%nat ∧ 3%nat = (i + k * Z.to_nat 2)%nat
    ∧ ∀ i' k' : nat, (i' < Z.to_nat 2)%nat →
        3%nat = (i' + k' * Z.to_nat 2)%nat → i' = i ∧ k' = k.
Proof.
  destruct (prefetch_round_robin (λ _, down)
              [py "a"; py "b"; py "c"; py "d"; py "e"] 2
              {| mem := {| activePrefetchers := 0; prefetchedPages := ∅ |};
                 pool := [] |})
    as (_ & _ & H & _).
  apply (H ltac:(lia) 3%nat). simpl. lia.
Defined.

(** C5 as stated fails when no worker is asked for, which the option
    [-t 0] allows: no thread is started and no url is in any shard. *)
Lemma prefetch_without_workers :
  ¬ (∀ (urls : list str) (workers : Z) (j : nat),
       (j < length urls)%nat →
       ∃ (i : nat) (ch : list str) (k : nat),
         prefetch urls workers !! i = Some ch ∧ ch !! k = urls !! j).
Proof.
  intros H. destruct (H [py "a"] 0 O) as (i & ch & k & Hi & _).
  - simpl. lia.
  - vm_compute in Hi. destruct i; discriminate Hi.
Qed.


(** * The cache: what is written, and when *)

Lemma stores_app url a b :
  stores url (a ++ b) = (stores url a + stores url b)%nat.
Proof. unfold stores. by rewrite filter_app, length_app. Qed.

Lemma stores_cons url a tr :
  stores url (a :: tr)
  = ((if isStore url a then 1 else 0) + stores url tr)%nat.
Proof.
  unfold stores. rewrite filter_cons.
  destruct (decide (isStore url a = true)) as [-> | Hn]; [done|].
  by apply not_true_is_false in Hn as ->.
Qed.

Lemma stores_attempts u net url tries n :
  stores u (attempts net url tries n).1.2 = 0%nat.
Proof.
  revert n. induction tries as [|i tries IH]; intros n; simpl; [done|].
  destruct (net n url 5); [done|].
  specialize (IH (S n)).
  destruct (attempts net url tries (S n)) as [[page tr] n']. simpl in *.
  by rewrite !stores_cons.
Qed.

Lemma stores_iteration u net st url :
  stores u (trace (iteration net st url))
  = (stores u (trace st) + (if eqs url u then 1 else 0))%nat.
Proof.
  unfold iteration. pose proof (stores_attempts u net url (range 0 4 1) (requests st)) as Ha.
  destruct (attempts net url (range 0 4 1) (requests st)) as [[page tr] n'].
  simpl in *. rewrite !stores_app, Ha, stores_cons. simpl.
  destruct (3 <=? _); simpl; unfold stores; simpl; lia.
Qed.

Lemma occurrences_cons url x urls :
  occurrences url (x :: urls)
  = ((if eqs x url then 1 else 0) + occurrences url urls)%nat.
Proof.
  unfold occurrences, eqs. rewrite filter_cons.
  destruct (decide (x = url)) as [-> | Hn].
  - by rewrite bool_decide_eq_true_2.
  - by rewrite bool_decide_eq_false_2.
Qed.

Lemma stores_foldl_iteration u net urls st :
  stores u (trace (foldl (iteration net) st urls))
  = (stores u (trace st) + occurrences u urls)%nat.
Proof.
  revert st. induction urls as [|url urls IH]; intros st; simpl.
  - unfold occurrences. simpl. lia.
  - rewrite IH, stores_iteration, occurrences_cons. lia.
Qed.

(** A worker writes the cache once for every occurrence of a url in its
    batch. *)
Lemma stores_prefetchPages u net urls :
  stores u (prefetchPages net urls) = occurrences u urls.
Proof.
  unfold prefetchPages. rewrite stores_app, stores_foldl_iteration.
  unfold stores. simpl. lia.
Qed.

Lemma chunk_nil i workers : 0 ≤ i → 0 < workers → chunk [] i workers = [].
Proof.
  intros Hi Hw. apply list_eq. intros k. by rewrite chunk_lookup, !lookup_nil.
Qed.

Lemma chunk_cons_S x (rest : list str) i workers :
  0 ≤ i → 0 < workers →
  chunk (x :: rest) (i + 1) workers = chunk rest i workers.
Proof.
  intros Hi Hw. apply list_eq. intros k. rewrite !chunk_lookup by lia.
  replace (Z.to_nat (i + 1 + Z.of_nat k * workers))
    with (S (Z.to_nat (i + Z.of_nat k * workers))) by nia.
  done.
Qed.

Lemma chunk_cons_0 x (rest : list str) workers :
  0 < workers →
  chunk (x :: rest) 0 workers = x :: chunk rest (workers - 1) workers.
Proof.
  intros Hw. apply list_eq. intros [|k].
  - rewrite chunk_lookup by lia. done.
  - simpl. rewrite !chunk_lookup by lia.
    replace (Z.to_nat (0 + Z.of_nat (S k) * workers))
      with (S (Z.to_nat (workers - 1 + Z.of_nat k * workers))) by nia.
    done.
Qed.

Lemma prefetch_seq (urls : list str) workers :
  prefetch urls workers
  = (λ i : nat, chunk urls (Z.of_nat i) workers) <$> seq 0 (Z.to_nat workers).
Proof.
  apply list_eq. intros i. rewrite list_lookup_fmap.
  destruct (decide (i < Z.to_nat workers)%nat) as [Hi|Hi].
  - rewrite prefetch_lookup, lookup_seq_lt by done. done.
  - rewrite lookup_seq_ge by lia. simpl. apply lookup_ge_None.
    rewrite prefetch_length. lia.
Qed.

Lemma sum_list_with_fmap {A B} (f : B → nat) (g : A → B) (l : list A) :
  sum_list_with f (g <$> l) = sum_list_with (f ∘ g) l.
Proof. induction l as [|a l IH]; simpl; [done | f_equal; apply IH]. Qed.

Lemma sum_list_with_ext {A} (f g : A → nat) (l : list A) :
  (∀ a, f a = g a) → sum_list_with f l = sum_list_with g l.
Proof. intros E. induction l as [|a l IH]; simpl; [done | by rewrite IH, E]. Qed.

Lemma sum_list_with_imap {A B} (f : B → nat) (g : A → nat)
    (h : nat → A → B) (l : list A) :
  (∀ i a, f (h i a) = g a) →
  sum_list_with f (imap h l) = sum_list_with g l.
Proof.
  revert h. induction l as [|a l IH]; intros h E; simpl; [done|].
  rewrite E. f_equal. apply IH. intros i b. apply E.
Qed.

(** The shards of a dispatch hold every occurrence of a url once. *)
Lemma occurrences_prefetch url (urls : list str) workers :
  1 ≤ workers →
  sum_list_with (occurrences url) (prefetch urls workers)
  = occurrences url urls.
Proof.
  intros Hw. rewrite prefetch_seq, sum_list_with_fmap.
  destruct (Z.to_nat workers) as [|W'] eqn:HW; [lia|].
  assert (HW' : Z.of_nat W' = workers - 1) by lia.
  induction urls as [|x rest IH].
  - rewrite (sum_list_with_ext _ (λ _, 0%nat)).
    + generalize (seq 0 (S W')). intros l. induction l; simpl; auto.
    + intros i. simpl. by rewrite chunk_nil by lia.
  - rewrite occurrences_cons, <- IH.
    rewrite (seq_S W' 0) at 2. rewrite sum_list_with_app. simpl.
    rewrite <- fmap_S_seq, sum_list_with_fmap.
    rewrite chunk_cons_0, occurrences_cons, HW' by lia.
    rewrite (sum_list_with_ext _
               (λ i : nat, occurrences url (chunk rest (Z.of_nat i) workers))).
    + unfold compose. lia.
    + intros i. simpl.
      replace (Z.of_nat (S i)) with (Z.of_nat i + 1) by lia.
      by rewrite chunk_cons_S by lia.
Qed.

Lemma pending_dispatch url nets (urls : list str) workers :
  pending url (imap (λ i ch, prefetchPages (nets i) ch) (prefetch urls workers))
  = if 1 <=? workers then occurrences url urls else 0%nat.
Proof.
  unfold pending.
  rewrite (sum_list_with_imap _ (occurrences url))
    by (intros; apply stores_prefetchPages).
  destruct (1 <=? workers) eqn:Hw.
  - apply occurrences_prefetch. lia.
  - rewrite prefetch_seq. replace (Z.to_nat workers) with O by lia. done.
Qed.


Lemma pending_insert url (p : list (list action)) i a tr :
  p !! i = Some (a :: tr) →
  pending url p
  = ((if isStore url a then 1 else 0) + pending url (<[i := tr]> p))%nat.
Proof.
  unfold pending. revert i. induction p as [|t p IH]; intros i Hi; [done|].
  destruct i as [|i]; simpl in *.
  - injection Hi as ->. rewrite stores_cons. lia.
  - rewrite (IH i Hi). lia.
Qed.

Lemma perform_other url a sh :
  isStore url a = false →
  prefetchedPages (perform a sh) !! url = prefetchedPages sh !! url.
Proof.
  destruct a as [| |u body| |]; simpl; try done.
  unfold eqs. intros Hne%bool_decide_eq_false.
  by rewrite lookup_insert_ne.
Qed.

Lemma perform_keeps_keys u a sh :
  is_Some (prefetchedPages sh !! u) →
  is_Some (prefetchedPages (perform a sh) !! u).
Proof.
  destruct a as [| |u' body| |]; simpl; try done.
  intros Hu. destruct (decide (u' = u)) as [-> | Hne].
  - rewrite lookup_insert_eq. eauto.
  - by rewrite lookup_insert_ne.
Qed.

Lemma step_cache url c c' :
  step c c' →
  (is_Some (cacheAt url c) → is_Some (cacheAt url c'))
  ∧ (pending url (pool c') ≤ pending url (pool c))%nat
  ∧ (cacheAt url c' ≠ cacheAt url c →
     (pending url (pool c') < pending url (pool c))%nat).
Proof.
  intros [c0 i a tr Hi]. unfold cacheAt. simpl.
  rewrite (pending_insert url _ _ _ _ Hi).
  split; [apply perform_keeps_keys|]. split; [lia|].
  destruct (isStore url a) eqn:Hs; [lia|].
  intros Hne. by rewrite perform_other in Hne.
Qed.






(** * The blocking lookup *)

Lemma lookupRun_polling net env url (k t : nat) :
  (∀ t', (t ≤ t' < t + k)%nat → prefetchedPages (env t') !! url = None) →
  lookupRun net env url k t AtPoll = (AtPoll, []).
Proof.
  revert t. induction k as [|k IH]; intros t Habsent; simpl; [done|].
  rewrite Habsent by lia. rewrite IH; [done|].
  intros t' Ht'. apply Habsent. lia.
Qed.

Lemma lookupRun_found net env url (k t : nat) body :
  (∀ t', (t ≤ t' < t + k)%nat → prefetchedPages (env t') !! url = None) →
  is_Some (prefetchedPages (env (t + k)%nat) !! url) →
  prefetchedPages (env (t + k + 1)%nat) !! url = Some body →
  ∀ fuel, (k + 2 ≤ fuel)%nat →
    lookupRun net env url fuel t AtPoll = (Returned body, []).
Proof.
  revert t. induction k as [|k IH]; intros t Habsent [v Hv] Hbody fuel Hfuel.
  - rewrite Nat.add_0_r in Hv, Hbody.
    destruct fuel as [|[|fuel]]; try lia. simpl. rewrite Hv. simpl.
    replace (S t) with (t + 1)%nat by lia. rewrite Hbody.
    destruct fuel; done.
  - destruct fuel as [|fuel]; [lia|]. simpl. rewrite Habsent by lia.
    rewrite (IH (S t)); [done| | | |lia].
    + intros t' Ht'. apply Habsent. lia.
    + exists v. rewrite <- Hv. do 3 f_equal. lia.
    + rewrite <- Hbody. do 3 f_equal. lia.
Qed.

(** C1.  [prefetchedPage(url)]: when the counter it reads is zero and the
    key it then looks for is absent, it makes one request with a timeout of
    20 seconds, returns the body of the answer (the empty string when there
    is none) and writes nothing to the shared state.  Otherwise it polls the
    cache, making no request: as long as the key is absent it stays in the
    loop, and once a poll finds the key it returns the value the cache then
    holds for it. *)
Theorem prefetchedPage_lookup (net : network) (env : nat → shared) (url : str) :
  (activePrefetchers (env 0%nat) = 0 →
   prefetchedPages (env 1%nat) !! url = None →
   ∀ fuel, (3 ≤ fuel)%nat →
     prefetchedPage net env url fuel
     = (Returned (bodyOf (net 0%nat url 20)), [Get url 20 (net 0%nat url 20)])
     ∧ bodyOf None = []
     ∧ ∀ sh, run [Get url 20 (net 0%nat url 20)] sh = sh)
  ∧ (∀ (t0 k : nat) (body : str),
       (activePrefetchers (env 0%nat) ≠ 0 ∧ t0 = 1%nat
        ∨ activePrefetchers (env 0%nat) = 0
          ∧ is_Some (prefetchedPages (env 1%nat) !! url) ∧ t0 = 2%nat) →
       (∀ t, (t0 ≤ t < t0 + k)%nat → prefetchedPages (env t) !! url = None) →
       prefetchedPage net env url (t0 + k) = (AtPoll, [])
       ∧ (is_Some (prefetchedPages (env (t0 + k)%nat) !! url) →
          prefetchedPages (env (t0 + k + 1)%nat) !! url = Some body →
          ∀ fuel, (t0 + k + 2 ≤ fuel)%nat →
            prefetchedPage net env url fuel = (Returned body, []))).
Proof.
  unfold prefetchedPage. split.
  - intros Hzero Habsent fuel Hfuel.
    destruct fuel as [|[|[|fuel]]]; try lia. simpl.
    rewrite Hzero. simpl. rewrite Habsent. simpl. destruct fuel; done.
  - intros t0 k body Hcase Habsent. split.
    + destruct Hcase as [[Hact ->]|(Hzero & [v Hv] & ->)]; simpl.
      * apply Z.eqb_neq in Hact. rewrite Hact.
        by rewrite lookupRun_polling.
      * rewrite Hzero. simpl. rewrite Hv. simpl. by rewrite lookupRun_polling.
    + intros Hfound Hbody fuel Hfuel.
      destruct Hcase as [[Hact ->]|(Hzero & [v Hv] & ->)].
      * destruct fuel as [|fuel]; [lia|]. simpl.
        apply Z.eqb_neq in Hact. rewrite Hact.
        rewrite (lookupRun_found net env url k 1 body); try done. lia.
      * destruct fuel as [|[|fuel]]; try lia. simpl.
        rewrite Hzero. simpl. rewrite Hv. simpl.
        rewrite (lookupRun_found net env url k 2 body); try done. lia.
Qed.

Lemma prefetchedPage_lookup_witness :
  prefetchedPage down arriving (py "u") 5 = (Returned (py "X"), [])
  ∧ prefetchedPage flaky (λ _, nothing) (py "b") 3
    = (Returned (py "page"),
       [Get (py "b") 20 (Some {| ok := true; text := py "page" |})]).
Proof.
  destruct (prefetchedPage_lookup down arriving (py "u")) as [_ Hpoll].
  destruct (prefetchedPage_lookup flaky (λ _, nothing) (py "b")) as [Hget _].
  split.
  - apply (Hpoll 1%nat 2%nat (py "X")).
    + left. split; [discriminate | reflexivity].
    + intros [|[|[|t]]] Ht; try lia; reflexivity.
    + eexists. reflexivity.
    + reflexivity.
    + simpl. lia.
  - apply (Hget eq_refl eq_refl 3%nat). lia.
Defined.


(** * Regular expressions: how the matcher backtracks *)

Lemma orElse_None_r {R} (a : option R) : orElse a None = a.
Proof. by destruct a. Qed.

Lemma takeWhile_dropWhile p (x : str) : takeWhile p x ++ dropWhile p x = x.
Proof.
  induction x as [|c x IH]; simpl; [done|].
  destruct (p c); simpl; [by rewrite IH | done].
Qed.

Lemma Forall_takeWhile p (x : str) : Forall (λ c, p c = true) (takeWhile p x).
Proof.
  induction x as [|c x IH]; simpl; [constructor|].
  destruct (p c) eqn:Hc; constructor; done.
Qed.

Lemma take_takeWhile p (x : str) :
  take (length x - length (dropWhile p x)) x = takeWhile p x.
Proof.
  rewrite <- (takeWhile_dropWhile p x) at 1 3.
  rewrite length_app, Nat.add_sub. apply take_app_length.
Qed.

Lemma takeWhile_app p (u v : str) :
  Forall (λ c, p c = true) u →
  match v with [] => True | c :: _ => p c = false end →
  takeWhile p (u ++ v) = u ∧ dropWhile p (u ++ v) = v.
Proof.
  intros Hu Hv. induction Hu as [|c u Hc Hu IH]; simpl.
  - destruct v as [|c v]; [done|]. simpl. by rewrite Hv.
  - rewrite Hc. destruct IH as [-> ->]. done.
Qed.

Lemma startswith_cons (x : str) a p :
  startswith x (a :: p)
  = match x with b :: x' => eqc a b && startswith x' p | [] => false end.
Proof. by destruct x. Qed.

Lemma startswith_nil (x : str) : startswith x [] = true.
Proof. by destruct x. Qed.

Lemma eqc_true a b : eqc a b = true ↔ a = b.
Proof. unfold eqc. apply bool_decide_eq_true. Qed.

Lemma eqc_refl a : eqc a a = true.
Proof. by apply eqc_true. Qed.

(** A greedy repetition followed by something that cannot start with a
    character of the class takes the whole run of such characters. *)
Lemma rep_greedy_max {R} p lo (k : str → option R) (x : str) :
  (∀ c w, p c = true → k (c :: w) = None) →
  rep p true lo None k x
  = if (lo <=? length (takeWhile p x))%nat then k (dropWhile p x) else None.
Proof.
  intros Hk. revert lo. induction x as [|c x IH]; intros lo; simpl.
  - by destruct lo.
  - destruct (p c) eqn:Hc; simpl.
    + rewrite IH.
      replace (match lo with O => k (c :: x) | S _ => None end)
        with (@None R) by (destruct lo; [by rewrite Hk | done]).
      rewrite orElse_None_r. by destruct lo.
    + by destruct lo.
Qed.

(** A repetition none of whose splits lets the rest match fails. *)
Lemma rep_star_none {R} p greedy (k : str → option R) (x : str) :
  (∀ u v, x = u ++ v → Forall (λ c, p c = true) u → k v = None) →
  rep p greedy 0 None k x = None.
Proof.
  induction x as [|c x IH]; intros Hk; simpl.
  - rewrite (Hk [] []); [by destruct greedy | done | constructor].
  - assert (Hmore : (if p c then rep p greedy 0 None k x else None) = None).
    { destruct (p c) eqn:Hc; [|done]. apply IH. intros u v -> Hu.
      apply (Hk (c :: u) v); [done | by constructor]. }
    rewrite Hmore, (Hk [] (c :: x)); [by destruct greedy | done | constructor].
Qed.

(** The greedy star gives the rest the shortest suffix it can match. *)
Lemma rep_star_greedy {R} p (k : str → option R) (u v : str) r :
  Forall (λ c, p c = true) u →
  k v = Some r →
  (∀ u' v', v = u' ++ v' → u' ≠ [] → Forall (λ c, p c = true) u' →
            k v' = None) →
  rep p true 0 None k (u ++ v) = Some r.
Proof.
  intros Hu Hv Hlonger. induction Hu as [|c u Hc Hu IH].
  - simpl. destruct v as [|c v]; simpl; [by rewrite Hv|].
    assert (Hmore : (if p c then rep p true 0 None k v else None) = None).
    { destruct (p c) eqn:Hc; [|done]. apply rep_star_none. intros u' v' -> Hu'.
      apply (Hlonger (c :: u') v'); [done | done | by constructor]. }
    by rewrite Hmore.
  - simpl. by rewrite Hc, IH.
Qed.


(** Replacing: a subject in which the pattern matches nowhere is returned
    as it is, and a match that covers the subject leaves the expanded
    template. *)
Lemma subWalk_none N r tpl (x : str) :
  (∀ i, matchAt N r (drop i x) = None) → subWalk N r tpl 0 x = x.
Proof.
  induction x as [|c x IH]; intros Hnone; pose proof (Hnone O) as H0;
    simpl in H0; simpl; rewrite H0; [done|].
  f_equal. apply IH. intros i. apply (Hnone (S i)).
Qed.

Lemma subWalk_skip N r tpl (x : str) :
  subWalk N r tpl (length x) x = subWalk N r tpl 0 [].
Proof. induction x as [|c x IH]; [done | apply IH]. Qed.

Lemma subWalk_whole N r tpl (x : str) cs :
  x ≠ [] →
  matchAt N r x = Some ([], cs) →
  matchAt N r [] = None →
  subWalk N r tpl 0 x = expand tpl cs.
Proof.
  intros Hne Hm Hend. destruct x as [|c x]; [done|].
  cbn [subWalk]. rewrite Hm. rewrite Nat.sub_0_r. cbn [length].
  rewrite subWalk_skip. cbn [subWalk]. rewrite Hend. by rewrite app_nil_r.
Qed.


(** * The release-dates url *)

Ltac by_cases c := destruct c as [[] [] [] [] [] [] [] []]; vm_compute; done.

Lemma digit_not_slash c : isdigit c = true → eqc (chr "/") c = false.
Proof. by_cases c. Qed.

Lemma digit_not_t c : isdigit c = true → c ≠ chr "t".
Proof. intros H ->. vm_compute in H. done. Qed.

Lemma datesTail_eq N (v : str) :
  matchAt N datesTail v
  = match v with
    | c :: v1 =>
        if eqc (chr "t") c then
          if (1 <=? length (takeWhile isdigit v1))%nat then
            match dropWhile isdigit v1 with
            | c' :: rest =>
                if eqc (chr "/") c' then
                  match rest with
                  | [] => Some (rest, [(1%nat, takeWhile isdigit v1)])
                  | [e] => if eqc e newline
                           then Some (rest, [(1%nat, takeWhile isdigit v1)])
                           else None
                  | _ => None
                  end
                else None
            | [] => None
            end
          else None
        else None
    | [] => None
    end.
Proof.
  unfold matchAt, datesTail. cbn [RCat matchK].
  change (py "t") with [chr "t"]. change (py "/") with [chr "/"]. cbn [length].
  rewrite startswith_cons. destruct v as [|c v1]; [done|].
  rewrite startswith_nil, andb_true_r. destruct (eqc (chr "t") c); [|done].
  change (drop 1 (c :: v1)) with v1. unfold RPlus. cbn [matchK].
  rewrite rep_greedy_max.
  - destruct (1 <=? _)%nat; [|done]. rewrite take_takeWhile.
    rewrite startswith_cons.
    destruct (dropWhile isdigit v1) as [|c' rest]; [done|].
    rewrite startswith_nil, andb_true_r. destruct (eqc (chr "/") c'); [|done].
    change (drop 1 (c' :: rest)) with rest. done.
  - intros d w Hd. rewrite startswith_cons, (digit_not_slash d Hd). done.
Qed.

Lemma datesTail_match N (d : str) :
  d ≠ [] → Forall (λ c, isdigit c = true) d →
  matchAt N datesTail (py "t" ++ d ++ py "/") = Some ([], [(1%nat, d)]).
Proof.
  intros Hne Hd. rewrite datesTail_eq. change (py "t" ++ d ++ py "/")
    with (chr "t" :: d ++ [chr "/"]). cbv beta iota. rewrite eqc_refl.
  destruct (takeWhile_app isdigit d [chr "/"] Hd eq_refl) as [-> ->].
  destruct d; [done|]. done.
Qed.

Lemma datesTail_inv N (v rest : str) cs :
  matchAt N datesTail v = Some (rest, cs) →
  ∃ d, d ≠ [] ∧ Forall (λ c, isdigit c = true) d
       ∧ v = py "t" ++ d ++ py "/" ++ rest
       ∧ (rest = [] ∨ rest = [newline]) ∧ cs = [(1%nat, d)].
Proof.
  rewrite datesTail_eq. destruct v as [|c v1]; [done|].
  destruct (eqc (chr "t") c) eqn:Hc; [|done]. apply eqc_true in Hc as <-.
  destruct (1 <=? _)%nat eqn:Hlen; [|done]. apply Nat.leb_le in Hlen.
  pose proof (takeWhile_dropWhile isdigit v1) as Hsplit.
  pose proof (Forall_takeWhile isdigit v1) as Hdig.
  destruct (dropWhile isdigit v1) as [|c' rest']; [done|].
  destruct (eqc (chr "/") c') eqn:Hc'; [|done]. apply eqc_true in Hc' as <-.
  intros Hres. exists (takeWhile isdigit v1).
  assert (Hne : takeWhile isdigit v1 ≠ []).
  { intros E. rewrite E in Hlen. simpl in Hlen. lia. }
  destruct rest' as [|e [|? ?]]; try done.
  - injection Hres as <- <-. repeat split; try done; [|by left].
    change (chr "t" :: v1 = chr "t" :: (takeWhile isdigit v1 ++ [chr "/"])).
    by rewrite Hsplit.
  - destruct (eqc e newline) eqn:He; [|done]. apply eqc_true in He as ->.
    injection Hres as <- <-. repeat split; try done; [|by right].
    change (chr "t" :: v1
            = chr "t" :: (takeWhile isdigit v1 ++ [chr "/"; newline])).
    by rewrite Hsplit.
Qed.

Lemma urlToDatesURL_unfold N (y : str) :
  matchAt N urlToDatesURL_ y
  = if (length y =? N)%nat
    then rep anyChar true 0 None (λ v, matchAt N datesTail v) y
    else None.
Proof. reflexivity. Qed.

Lemma anyChar_no_newline (x : str) :
  Forall (λ c, c ≠ newline) x → Forall (λ c, anyChar c = true) x.
Proof.
  intros H. eapply Forall_impl; [exact H|]. intros c Hc. unfold anyChar, eqc.
  by rewrite bool_decide_eq_false_2.
Qed.

Lemma datesPageURL_match (pre d : str) :
  Forall (λ c, c ≠ newline) pre →
  d ≠ [] → Forall (λ c, isdigit c = true) d →
  datesPageURL (pre ++ py "t" ++ d ++ py "/") = datesPrefix ++ d ++ py "/".
Proof.
  intros Hpre Hne Hd. unfold datesPageURL, reSub.
  set (url := pre ++ py "t" ++ d ++ py "/"). set (N := length url).
  assert (HN : N ≠ O).
  { subst N url. rewrite !length_app. simpl. lia. }
  rewrite (subWalk_whole N _ _ url [(1%nat, d)]).
  - unfold expand. simpl. done.
  - intros E. subst N. by rewrite E in HN.
  - rewrite urlToDatesURL_unfold. subst N. rewrite Nat.eqb_refl.
    apply rep_star_greedy.
    + by apply anyChar_no_newline.
    + by apply datesTail_match.
    + intros u' v' Hsplit Hu' _.
      destruct (matchAt (length url) datesTail v') as [[rest cs]|] eqn:Hm;
        [exfalso|done].
      apply datesTail_inv in Hm as (d' & _ & _ & -> & _).
      destruct u' as [|c0 u'']; [done|].
      change (py "t" ++ d ++ py "/") with (chr "t" :: d ++ [chr "/"]) in Hsplit.
      injection Hsplit as _ Hrest.
      assert (Hin : chr "t" ∈ d ++ ["/"%char]).
      { rewrite Hrest. apply elem_of_app. right. by left. }
      apply elem_of_app in Hin as [Hin|Hin].
      * rewrite Forall_forall in Hd. by apply (digit_not_t _ (Hd _ Hin)).
      * apply list_elem_of_singleton in Hin. discriminate Hin.
  - rewrite urlToDatesURL_unfold. simpl.
    destruct N; done.
Qed.

Lemma datesPageURL_no_match (url : str) :
  Forall (λ c, c ≠ newline) url →
  (¬ ∃ pre d, url = pre ++ py "t" ++ d ++ py "/" ∧ d ≠ []
              ∧ Forall (λ c, isdigit c = true) d) →
  datesPageURL url = url.
Proof.
  intros Hnl Hshape. unfold datesPageURL, reSub. apply subWalk_none.
  intros i. rewrite urlToDatesURL_unfold.
  destruct (length (drop i url) =? length url)%nat eqn:Hlen; [|done].
  apply Nat.eqb_eq in Hlen. rewrite length_drop in Hlen.
  assert (Hdrop : drop i url = url).
  { destruct i; [done|]. destruct url; [done|]. simpl in Hlen. lia. }
  rewrite Hdrop. apply rep_star_none. intros u v Hsplit _.
  destruct (matchAt (length url) datesTail v) as [[rest cs]|] eqn:Hm; [|done].
  exfalso. apply datesTail_inv in Hm as (d & Hne & Hd & -> & Hrest & _).
  destruct Hrest as [-> | ->].
  - apply Hshape. exists u, d. by rewrite app_nil_r in Hsplit.
  - rewrite Forall_forall in Hnl. apply (Hnl newline); [|done].
    rewrite Hsplit. rewrite !elem_of_app. right. right. right.
    apply elem_of_app. right. by left.
Qed.




(** * The user ratings *)











Lemma digit_not_space c : isdigit c = true → isspace c = false.
Proof. by_cases c. Qed.

Lemma digit_not_sign c :
  isdigit c = true → eqc c (chr "-") = false ∧ eqc c (chr "+") = false.
Proof. by_cases c. Qed.

Lemma dropWhile_digits (d : str) :
  Forall (λ c, isdigit c = true) d → dropWhile isspace d = d.
Proof.
  intros [|c d' Hc _]; [done|]. simpl. by rewrite (digit_not_space c Hc).
Qed.

Lemma strip_digits (d : str) :
  Forall (λ c, isdigit c = true) d → strip d = d.
Proof.
  intros Hd. unfold strip. rewrite (dropWhile_digits d Hd).
  rewrite dropWhile_digits; [apply rev_involutive|].
  apply Forall_forall. intros c Hc. rewrite Forall_forall in Hd. apply Hd.
  apply list_elem_of_In. apply list_elem_of_In in Hc. by apply in_rev.
Qed.

Lemma digitsVal_digits (d : str) acc b :
  Forall (λ c, isdigit c = true) d → d ≠ [] ∨ b = true →
  digitsVal d acc b
  = Some (fold_left (λ a c, 10 * a + (code c - 48)) d acc).
Proof.
  intros Hd. revert acc b. induction Hd as [|c d Hc Hd IH]; intros acc b Hb.
  - destruct Hb as [?| ->]; done.
  - simpl. rewrite Hc. apply IH. by right.
Qed.

Lemma int_digits (d : str) :
  d ≠ [] → Forall (λ c, isdigit c = true) d → int d = Ok (decimal d).
Proof.
  intros Hne Hd. unfold int. rewrite (strip_digits d Hd).
  destruct d as [|c d']; [done|].
  destruct (digit_not_sign c) as [-> ->]; [by inversion Hd|].
  rewrite (digitsVal_digits _ 0 false Hd); [done | by left].
Qed.







(** * Season urls *)

Lemma lastItem_rsplit1 sep (x : str) :
  lastItem (rsplit1 sep x) = lastItem (split sep x).
Proof.
  unfold rsplit1. rewrite <- (rev_involutive (split sep x)) at 2.
  destruct (rev (split sep x)) as [|p [|q r]]; try done.
  unfold lastItem. simpl. by rewrite last_last.
Qed.

Lemma withoutFinalSlash_slash (body : str) :
  withoutFinalSlash (body ++ py "/") = body.
Proof.
  unfold withoutFinalSlash. rewrite rev_app_distr. simpl.
  apply rev_involutive.
Qed.

Lemma isSeasonURL_seasonToken (url : str) :
  url = [] ∨ (∃ body, url = body ++ py "/") →
  isSeasonURL url = seasonToken url.
Proof.
  intros [-> | [body ->]]; [done|].
  unfold isSeasonURL, seasonToken, lastPathSegment.
  rewrite withoutFinalSlash_slash.
  change (py "/") with [chr "/"]. rewrite removelast_last, lastItem_rsplit1.
  destruct (body ++ [chr "/"]) eqn:E; [by destruct body|].
  destruct (length _) as [|[|n]]; done.
Qed.

Lemma elem_of_listPageEntries_series titleTypes scraped u r t :
  py "series/" ∈ titleTypes →
  (u, r, t) ∈ listPageEntries titleTypes scraped →
  isSeasonURL u = true → t = py "series".
Proof.
  intros Hs Hin Hu. unfold listPageEntries in Hin.
  rewrite bool_decide_eq_true_2 in Hin by done. simpl in Hin.
  apply list_elem_of_In, in_map_iff in Hin as ([[u' r'] t'] & E & _).
  injection E as -> -> <-. by rewrite Hu.
Qed.

Lemma elem_of_listPageEntries_other titleTypes scraped (e : entry) :
  py "series/" ∉ titleTypes →
  e ∈ listPageEntries titleTypes scraped
  ↔ e ∈ scraped ∧ isSeasonURL (urlOf e) = false.
Proof.
  intros Hs. unfold listPageEntries.
  rewrite bool_decide_eq_false_2 by done. simpl.
  rewrite list_elem_of_In, filter_In, <- list_elem_of_In.
  rewrite elem_of_deduplicatedList. destruct e as [[u r] t]. simpl.
  by rewrite negb_true_iff.
Qed.

(** C8, amended.  On urls that end in a slash (and on the empty string)
    [isSeasonURL] holds exactly when the second-to-last of the tokens that
    the hyphens delimit in the last path segment is [temporada].  For the
    entries scraped from a list page, when the title types include
    [series/] every season url is tagged [series], and when they do not,
    the season urls, and only they, are removed. *)
Theorem season_urls (url : str) (titleTypes : list str) (scraped : list entry) :
  (url = [] ∨ (∃ body, url = body ++ py "/") →
   isSeasonURL url = seasonToken url)
  ∧ isSeasonURL (py "https://site/t123-temporada-1/") = true
  ∧ isSeasonURL (py "https://site/t123-nome-do-filme/") = false
  ∧ isSeasonURL [] = false
  ∧ (py "series/" ∈ titleTypes →
     map urlOf (listPageEntries titleTypes scraped)
     = map urlOf (deduplicatedList scraped)
     ∧ ∀ u r t, (u, r, t) ∈ listPageEntries titleTypes scraped →
                isSeasonURL u = true → t = py "series")
  ∧ (py "series/" ∉ titleTypes →
     ∀ e, e ∈ listPageEntries titleTypes scraped
          ↔ e ∈ scraped ∧ isSeasonURL (urlOf e) = false).
Proof.
  split; [apply isSeasonURL_seasonToken|]. do 3 (split; [by vm_compute|]).
  split.
  - intros Hs. split.
    + unfold listPageEntries. rewrite bool_decide_eq_true_2 by done. simpl.
      rewrite map_map. apply map_ext. by intros [[u r] t].
    + intros u r t. by apply elem_of_listPageEntries_series.
  - intros Hs e. by apply elem_of_listPageEntries_other.
Qed.

Lemma season_urls_witness :
  isSeasonURL seasonURL = seasonToken seasonURL
  ∧ ∀ u r t,
      (u, r, t) ∈ listPageEntries [py "series/"; py "tv/"] [(seasonURL, [], [])] →
      isSeasonURL u = true → t = py "series".
Proof.
  destruct (season_urls seasonURL [py "series/"; py "tv/"] [(seasonURL, [], [])])
    as (Htoken & _ & _ & _ & Hseries & _).
  split.
  - apply Htoken. right.
    exists (py "https://filmow.com/breaking-bad-1a-temporada-t28426").
    reflexivity.
  - apply Hseries. by left.
Defined.

(** C8 as stated fails for the entries read from a local list file: with
    [-l], which leaves series out, the url of a season in the file is
    neither removed nor tagged and is handed to [collect].  And on a url
    that does not end in a slash the test drops the last character all the
    same, and can differ from the test on the tokens. *)
Lemma season_url_kept_from_file :
  isSeasonURL seasonURL = true
  ∧ Collect (py "/tmp/list_list_filmes.csv") [(seasonURL, [], [])]
    ∈ (main withListFile [py "filmow-to-csv.py"; py "-l"; py "list.txt"]).1
  ∧ isSeasonURL (py "https://filmow.com/a-temporada-b-") = true
  ∧ seasonToken (py "https://filmow.com/a-temporada-b-") = false.
Proof.
  split; [by vm_compute|].
  split; [apply list_elem_of_In; vm_compute; tauto|].
  split; by vm_compute.
Qed.


(** * How the process ends *)

Lemma andThen_inl {A B} (m : proc A) (k : A → proc B) evs b :
  andThen m k = (evs, inl b) →
  ∃ evs1 a evs2, m = (evs1, inl a) ∧ k a = (evs2, inl b) ∧ evs = evs1 ++ evs2.
Proof.
  destruct m as [evs1 [a|e]]; simpl; [|done].
  destruct (k a) as [evs2 r] eqn:Hk. intros [= <- ->]. eauto 10.
Qed.






Lemma last_andThen {A B} (m : proc A) (k : A → proc B) e evs b :
  (∀ a evs' b', k a = (evs', inl b') → last evs' = Some e) →
  andThen m k = (evs, inl b) → last evs = Some e.
Proof.
  intros Hk (evs1 & a & evs2 & _ & Hka & ->)%andThen_inl.
  rewrite last_app. by rewrite (Hk _ _ _ Hka).
Qed.




(** The target. *)
Lemma parseTarget_value w target :
  (parseTarget w target).2 = inl (classify (normalise target)).
Proof.
  unfold parseTarget. destruct (classify (normalise target)) as [[[u b] n]|];
    [|done].
  destruct (requestsHead w b) as [code|]; [|done]. simpl.
  destruct ((400 <=? code) && (code <? 600)); [done|].
  destruct ((code <? 200) || (203 <? code)); done.
Qed.







(** The end of the script. *)
Lemma last_collectInto_then {B} w es file types total start (k : proc B)
    evs b :
  (∀ evs' b', k = (evs', inl b') → last evs' = Some doneLine) →
  (collectInto w es file types total start ;; k) = (evs, inl b) →
  last evs = Some doneLine.
Proof. intros Hk. apply last_andThen. intros _. apply Hk. Qed.










(** * The worker: order and cost of a batch *)

Lemma storedURLs_app a b : storedURLs (a ++ b) = storedURLs a ++ storedURLs b.
Proof. apply omap_app. Qed.

Lemma storedURLs_retries url k : storedURLs (retries url k) = [].
Proof. induction k as [|k IH]; [done | exact IH]. Qed.

Lemma attempts_cases net url n :
  ∃ (k : nat) (page : option response),
    (k + match page with Some _ => 1 | None => 0 end ≤ 4)%nat
    ∧ (page = None → k = 4%nat)
    ∧ attempts net url (range 0 4 1) n
      = (page,
         retries url k
         ++ match page with Some r => [Get url 5 (Some r)] | None => [] end,
         (n + k + match page with Some _ => 1 | None => 0 end)%nat).
Proof.
  destruct (attempts_spec net url (range 0 4 1) n) as (k & Hk & _ & Hend).
  change (length (range 0 4 1)) with 4%nat in *.
  destruct Hend as [(r & _ & Hlt & E)|(Hk4 & E)]; rewrite E.
  - exists k, (Some r). split; [lia|]. split; [done|]. f_equal. lia.
  - exists 4%nat, None. subst k. split; [lia|]. split; [done|].
    rewrite app_nil_r. f_equal. lia.
Qed.

Lemma storedURLs_iteration net st url :
  storedURLs (trace (iteration net st url)) = storedURLs (trace st) ++ [url].
Proof.
  unfold iteration.
  destruct (attempts_cases net url (requests st)) as (k & page & _ & _ & ->).
  simpl. rewrite !storedURLs_app, storedURLs_retries.
  destruct page, (3 <=? _); done.
Qed.

Lemma storedURLs_foldl net urls st :
  storedURLs (trace (foldl (iteration net) st urls))
  = storedURLs (trace st) ++ urls.
Proof.
  revert st. induction urls as [|url urls IH]; intros st; simpl.
  - by rewrite app_nil_r.
  - by rewrite IH, storedURLs_iteration, <- app_assoc.
Qed.

(** X1.  A worker writes one cache entry for each url of its batch, in the order
    of the batch. *)
Theorem prefetchPages_stores_in_order (net : network) (urls : list str) :
  storedURLs (prefetchPages net urls) = urls.
Proof.
  unfold prefetchPages. rewrite storedURLs_app, storedURLs_foldl.
  simpl. by rewrite app_nil_r.
Qed.

Lemma requestCount_app a b :
  requestCount (a ++ b) = (requestCount a + requestCount b)%nat.
Proof.
  induction a as [|x a IH]; simpl; [done|]. destruct (isGet x); simpl; lia.
Qed.

Lemma slept_app a b : slept (a ++ b) = slept a + slept b.
Proof.
  induction a as [|x a IH]; simpl; [done|]. destruct x; rewrite ?IH; lia.
Qed.

Lemma requestCount_retries url k : requestCount (retries url k) = k.
Proof.
  induction k as [|k IH]; [done|]. unfold retries in *. simpl.
  by rewrite IH.
Qed.

Lemma slept_retries url k : slept (retries url k) = 5 * Z.of_nat k.
Proof.
  induction k as [|k IH]; [done|]. unfold retries in *. simpl.
  rewrite IH. lia.
Qed.

Lemma iteration_cost net st url :
  ∃ g s : Z,
    1 ≤ g ≤ 4 ∧ 0 ≤ s ≤ 30
    ∧ Z.of_nat (requestCount (trace (iteration net st url)))
      = Z.of_nat (requestCount (trace st)) + g
    ∧ slept (trace (iteration net st url)) = slept (trace st) + s.
Proof.
  unfold iteration.
  destruct (attempts_cases net url (requests st))
    as (k & page & Hk & Hnone & ->).
  cbn [trace].
  rewrite !requestCount_app, !slept_app, requestCount_retries, slept_retries.
  destruct page as [r|].
  - exists (Z.of_nat k + 1), (5 * Z.of_nat k
                               + if 3 <=? failures st + (if truthy (Some r) then 0 else 1)
                                 then 10 else 0).
    destruct (3 <=? _); simpl; lia.
  - specialize (Hnone eq_refl). subst k.
    exists 4, (20 + if 3 <=? failures st + 1 then 10 else 0).
    simpl. destruct (3 <=? _); simpl; lia.
Qed.

Lemma foldl_iteration_cost net urls st :
  let n := Z.of_nat (length urls) in
  let st' := foldl (iteration net) st urls in
  Z.of_nat (requestCount (trace st)) + n
  ≤ Z.of_nat (requestCount (trace st'))
  ≤ Z.of_nat (requestCount (trace st)) + 4 * n
  ∧ slept (trace st) ≤ slept (trace st') ≤ slept (trace st) + 30 * n.
Proof.
  revert st. induction urls as [|url urls IH]; intros st; simpl; [lia|].
  specialize (IH (iteration net st url)). simpl in IH.
  destruct (iteration_cost net st url) as (g & s & Hg & Hs & Eg & Es).
  lia.
Qed.

(** X2.  A batch of [n] urls costs between [n] and [4 n] requests, and the
    worker sleeps at most [30 n] seconds in all. *)
Theorem prefetchPages_cost (net : network) (urls : list str) :
  let n := Z.of_nat (length urls) in
  n ≤ Z.of_nat (requestCount (prefetchPages net urls)) ≤ 4 * n
  ∧ 0 ≤ slept (prefetchPages net urls) ≤ 30 * n.
Proof.
  intros n. unfold prefetchPages.
  rewrite requestCount_app, slept_app.
  pose proof (foldl_iteration_cost net urls started) as H. simpl in H.
  simpl. lia.
Qed.

(** * The counter of active workers *)

Lemma running_tail mid : Incr ∉ mid → running (mid ++ [Decr]) = true.
Proof.
  destruct mid as [|a mid]; [done|]. intros H. destruct a; try done.
  exfalso. apply H. left.
Qed.

Lemma stage_step a tr sh :
  stage (a :: tr) →
  stage tr
  ∧ activePrefetchers (perform a sh) + (if running (a :: tr) then 1 else 0)
    = activePrefetchers sh + (if running tr then 1 else 0).
Proof.
  inversion 1 as [mid Hi Hd E|mid Hi Hd E|]; subst.
  - split; [by constructor|]. rewrite running_tail by done. simpl. lia.
  - destruct mid as [|b mid]; simpl in E.
    + injection E as <- <-. split; [constructor|]. simpl. lia.
    + injection E as -> <-.
      apply not_elem_of_cons in Hi as [Ha Hi], Hd as [Hb Hd].
      split; [by constructor|]. rewrite (running_tail mid) by done.
      destruct a; try done.
Qed.

Lemma runningCount_insert (p : list (list action)) i old new :
  p !! i = Some old →
  (runningCount (<[i := new]> p) + (if running old then 1 else 0)
   = runningCount p + (if running new then 1 else 0))%nat.
Proof.
  unfold runningCount. revert i.
  induction p as [|t p IH]; intros i Hi; [done|].
  destruct i as [|i]; simpl in *.
  - injection Hi as ->. lia.
  - specialize (IH i Hi). lia.
Qed.

Lemma runningCount_le (p : list (list action)) :
  (runningCount p ≤ length p)%nat.
Proof.
  unfold runningCount. induction p as [|t p IH]; simpl; [lia|].
  destruct (running t); lia.
Qed.

Lemma runningCount_finished (p : list (list action)) :
  Forall (λ tr, tr = []) p → runningCount p = O.
Proof.
  unfold runningCount. induction 1 as [|t p -> _ IH]; simpl; [done|]. exact IH.
Qed.

Lemma step_counter c c' :
  step c c' →
  Forall stage (pool c) →
  Forall stage (pool c')
  ∧ length (pool c') = length (pool c)
  ∧ activePrefetchers (mem c') - Z.of_nat (runningCount (pool c'))
    = activePrefetchers (mem c) - Z.of_nat (runningCount (pool c)).
Proof.
  intros [c0 i a tr Hi] Hst. simpl.
  pose proof (Forall_lookup_1 _ _ _ _ Hst Hi) as Ha.
  destruct (stage_step a tr (mem c0) Ha) as (Htr & Hcount).
  split; [by apply Forall_insert|]. split; [apply length_insert|].
  pose proof (runningCount_insert _ _ _ tr Hi) as Hins.
  destruct (running (a :: tr)), (running tr); lia.
Qed.

Lemma steps_counter c c' :
  rtc step c c' →
  Forall stage (pool c) →
  Forall stage (pool c')
  ∧ length (pool c') = length (pool c)
  ∧ activePrefetchers (mem c') - Z.of_nat (runningCount (pool c'))
    = activePrefetchers (mem c) - Z.of_nat (runningCount (pool c)).
Proof.
  induction 1 as [c|c c1 c' Hstep _ IH]; intros Hst; [done|].
  destruct (step_counter _ _ Hstep Hst) as (Hst1 & Hlen1 & Hc1).
  destruct (IH Hst1) as (Hst' & Hlen' & Hc'). split; [done|]. split; lia.
Qed.

Lemma dispatch_stage nets (urls : list str) workers sh :
  let p := pool (dispatch nets urls workers {| mem := sh; pool := [] |}) in
  Forall stage p ∧ runningCount p = O ∧ length p = Z.to_nat workers.
Proof.
  simpl. split; [|split].
  - apply Forall_forall. intros tr Htr.
    apply elem_of_lookup_imap in Htr as (i & ch & -> & _).
    destruct (prefetchPages_shape (nets i) ch) as (mid & -> & ? & ?).
    by constructor.
  - unfold runningCount.
    rewrite (sum_list_with_imap _ (λ _, O)); [by induction (prefetch _ _)|].
    intros i ch. by destruct (prefetchPages_shape (nets i) ch) as (mid & -> & _).
  - by rewrite length_imap, prefetch_length.
Qed.

(** X3.  However the threads of a dispatch are interleaved, the counter of
    active workers is its value at the dispatch plus the number of workers
    that are between their increment and their decrement; it never exceeds
    the initial value by more than the number of workers, and it is back at
    the initial value once every worker has finished. *)
Theorem activePrefetchers_counts_running (nets : nat → network)
    (urls : list str) (workers : Z) (sh : shared) (c' : config) :
  rtc step (dispatch nets urls workers {| mem := sh; pool := [] |}) c' →
  activePrefetchers (mem c')
  = activePrefetchers sh + Z.of_nat (runningCount (pool c'))
  ∧ (runningCount (pool c') ≤ Z.to_nat workers)%nat
  ∧ (Forall (λ tr, tr = []) (pool c') →
     activePrefetchers (mem c') = activePrefetchers sh).
Proof.
  intros Hrun.
  destruct (dispatch_stage nets urls workers sh) as (Hst & Hzero & Hlen).
  destruct (steps_counter _ _ Hrun Hst) as (_ & Hlen' & Hc).
  rewrite Hzero in Hc. simpl in Hc.
  pose proof (runningCount_le (pool c')) as Hle.
  split; [lia|]. split; [lia|].
  intros Hfin. rewrite (runningCount_finished _ Hfin) in Hc. lia.
Qed.

Lemma activePrefetchers_counts_running_witness :
  activePrefetchers
    (mem {| mem := {| activePrefetchers := 1; prefetchedPages := ∅ |};
            pool := [[Get (py "b") 5 (Some {| ok := true; text := py "page" |});
                      Store (py "b") (py "page"); Decr];
                     [Incr; Decr]] |})
  = activePrefetchers nothing
    + Z.of_nat (runningCount
                  [[Get (py "b") 5 (Some {| ok := true; text := py "page" |});
                    Store (py "b") (py "page"); Decr];
                   [Incr; Decr]]).
Proof.
  refine (proj1 (activePrefetchers_counts_running (λ _, flaky) [py "b"] 2
                   nothing _ _)).
  eapply rtc_l; [eapply (step_thread _ O); reflexivity|]. apply rtc_refl.
Defined.


(** * After the workers: every dispatched page is cached *)

Lemma pending_finished url (p : list (list action)) :
  Forall (λ tr, tr = []) p → pending url p = O.
Proof.
  unfold pending. induction 1 as [|t p -> _ IH]; simpl; [done|]. exact IH.
Qed.

Lemma step_fills url c c' :
  step c c' →
  is_Some (cacheAt url c) ∨ (1 ≤ pending url (pool c))%nat →
  is_Some (cacheAt url c') ∨ (1 ≤ pending url (pool c'))%nat.
Proof.
  intros Hstep [Hc|Hp].
  - left. by apply (step_cache url c c').
  - destruct Hstep as [c0 i a tr Hi]. unfold cacheAt. simpl.
    rewrite (pending_insert url _ _ _ _ Hi) in Hp.
    destruct a as [| |u body| |]; simpl in Hp; try (right; lia).
    destruct (eqs u url) eqn:E; [|right; lia].
    left. apply bool_decide_eq_true in E as ->. simpl.
    rewrite lookup_insert_eq. eauto.
Qed.

Lemma steps_fills url c c' :
  rtc step c c' →
  is_Some (cacheAt url c) ∨ (1 ≤ pending url (pool c))%nat →
  is_Some (cacheAt url c') ∨ (1 ≤ pending url (pool c'))%nat.
Proof. induction 1; eauto using step_fills. Qed.

Lemma occurrences_elem url (urls : list str) :
  url ∈ urls → (1 ≤ occurrences url urls)%nat.
Proof.
  unfold occurrences. induction 1 as [u l|u v l _ IH].
  - rewrite filter_cons_True by done. simpl. lia.
  - rewrite filter_cons. destruct (decide (v = u)); simpl; lia.
Qed.

Lemma prefetchedPage_cached net sh url body fuel :
  prefetchedPages sh !! url = Some body →
  (4 ≤ fuel)%nat →
  prefetchedPage net (λ _, sh) url fuel = (Returned body, []).
Proof.
  intros Hbody Hfuel. unfold prefetchedPage.
  destruct fuel as [|[|[|[|fuel]]]]; try lia. simpl.
  destruct (activePrefetchers sh =? 0); simpl;
    repeat (rewrite Hbody; simpl); by destruct fuel.
Qed.

(** X4.  With at least one worker, once all workers of a dispatch have finished
    the cache holds an entry for every dispatched url, and a lookup of such
    a url returns that entry without making a request. *)
Theorem prefetch_completion (nets : nat → network) (urls : list str)
    (workers : Z) (sh : shared) (c' : config) (url : str) :
  1 ≤ workers →
  rtc step (dispatch nets urls workers {| mem := sh; pool := [] |}) c' →
  Forall (λ tr, tr = []) (pool c') →
  url ∈ urls →
  ∃ body, cacheAt url c' = Some body
          ∧ ∀ net fuel, (4 ≤ fuel)%nat →
              prefetchedPage net (λ _, mem c') url fuel = (Returned body, []).
Proof.
  intros Hw Hrun Hfin Hin.
  destruct (steps_fills url _ _ Hrun) as [[body Hbody]|Hp].
  - right. cbn [dispatch pool app]. rewrite pending_dispatch.
    apply Z.leb_le in Hw. rewrite Hw. by apply occurrences_elem.
  - exists body. split; [done|]. intros net fuel.
    by apply prefetchedPage_cached.
  - rewrite pending_finished in Hp by done. lia.
Qed.

Lemma prefetch_completion_witness :
  ∃ body,
    cacheAt (py "b")
      {| mem := {| activePrefetchers := 0;
                   prefetchedPages := {[ py "b" := py "page" ]} |};
         pool := [[]] |} = Some body
    ∧ ∀ net fuel, (4 ≤ fuel)%nat →
        prefetchedPage net
          (λ _, {| activePrefetchers := 0;
                   prefetchedPages := {[ py "b" := py "page" ]} |})
          (py "b") fuel
        = (Returned body, []).
Proof.
  refine (prefetch_completion (λ _, flaky) [py "b"] 1 nothing _ (py "b")
            _ _ _ _).
  - lia.
  - eapply rtc_l; [eapply (step_thread _ O); reflexivity|].
    eapply rtc_l; [eapply (step_thread _ O); reflexivity|].
    eapply rtc_l; [eapply (step_thread _ O); reflexivity|].
    eapply rtc_l; [eapply (step_thread _ O); reflexivity|].
    apply rtc_refl.
  - repeat constructor.
  - set_solver.
Defined.

(** * The lookup: at most one request, no write, no [KeyError] *)

Lemma lookupRun_finished net env url fuel t st :
  finished st = true → lookupRun net env url fuel t st = (st, []).
Proof. intros H. destruct fuel; simpl; [done|]. by rewrite H. Qed.

Lemma lookupRun_events net env url fuel t st :
  let page := net O url 20 in
  (lookupRun net env url fuel t st).2 = []
  ∨ lookupRun net env url fuel t st
    = (Returned (bodyOf page), [Get url 20 page]).
Proof.
  revert t st. induction fuel as [|fuel IH]; intros t st; simpl; [by left|].
  destruct (finished st) eqn:Hfin; [by left|].
  destruct st; simpl in *; try discriminate Hfin;
    try (match goal with
         | |- context [lookupRun net env url fuel (S t) ?x] =>
             specialize (IH (S t) x);
             destruct (lookupRun net env url fuel (S t) x) as [st'' evs]
         end; simpl in *; exact IH).
  right. by rewrite lookupRun_finished.
Qed.

(** X5.  Whatever the shared state is at each of its reads, and however long it
    runs, a lookup makes at most one request, the one with a timeout of 20
    seconds whose body it returns; and none of its actions changes the
    shared state. *)
Theorem prefetchedPage_at_most_one_request (net : network)
    (env : nat → shared) (url : str) (fuel : nat) :
  let page := net O url 20 in
  ((prefetchedPage net env url fuel).2 = []
   ∨ prefetchedPage net env url fuel
     = (Returned (bodyOf page), [Get url 20 page]))
  ∧ ∀ sh, run (prefetchedPage net env url fuel).2 sh = sh.
Proof.
  intros page. unfold prefetchedPage.
  destruct (lookupRun_events net env url fuel O AtActiveTest) as [H|H].
  - split; [by left|]. intros sh. by rewrite H.
  - split; [by right|]. intros sh. by rewrite H.
Qed.

Lemma lookupRun_no_raise net env url fuel t st :
  (∀ t', is_Some (prefetchedPages (env t') !! url) →
         is_Some (prefetchedPages (env (S t')) !! url)) →
  (st = AtIndex → is_Some (prefetchedPages (env t) !! url)) →
  (∀ e, st ≠ Raised e) →
  ∀ e, (lookupRun net env url fuel t st).1 ≠ Raised e.
Proof.
  intros Hmono. revert t st.
  induction fuel as [|fuel IH]; intros t st Hidx Hst e; simpl; [apply Hst|].
  destruct (finished st) eqn:Hfin; [apply Hst|].
  destruct (lookupStep (net O url 20) url st (env t)) as [st' ev] eqn:Estep.
  destruct (lookupRun net env url fuel (S t) st') as [st'' evs] eqn:E.
  simpl. change st'' with (st'', evs).1. rewrite <- E. apply IH.
  - intros ->. destruct st; simpl in *; try discriminate Hfin;
      try (destruct (_ =? 0); discriminate Estep);
      try discriminate Estep.
    + destruct (_ !! url); discriminate Estep.
    + destruct (prefetchedPages (env t) !! url) eqn:Ek; [|discriminate Estep].
      apply Hmono. rewrite Ek. eauto.
    + destruct (_ !! url); discriminate Estep.
  - intros e' ->. destruct st; simpl in *; try discriminate Hfin;
      try (destruct (_ =? 0); discriminate Estep);
      try discriminate Estep.
    + destruct (_ !! url); discriminate Estep.
    + destruct (_ !! url); discriminate Estep.
    + destruct (Hidx eq_refl) as [v Hv]. rewrite Hv in Estep.
      discriminate Estep.
Qed.

(** X6.  As long as no key leaves the cache between two reads of the lookup, the
    lookup never ends with an exception: the key it found in its polling
    loop is still there when it indexes the cache. *)
Theorem prefetchedPage_no_KeyError (net : network) (env : nat → shared)
    (url : str) (fuel : nat) (e : exn) :
  (∀ t, is_Some (prefetchedPages (env t) !! url) →
        is_Some (prefetchedPages (env (S t)) !! url)) →
  (prefetchedPage net env url fuel).1 ≠ Raised e.
Proof.
  intros Hmono. unfold prefetchedPage.
  apply lookupRun_no_raise; [done | discriminate | discriminate].
Qed.

Lemma prefetchedPage_no_KeyError_witness :
  (prefetchedPage down arriving (py "u") 9).1 ≠ Raised KeyError.
Proof.
  apply prefetchedPage_no_KeyError.
  intros t [v Hv]. unfold arriving in *. simpl in *.
  destruct (t <? 3)%nat eqn:E; [by rewrite lookup_empty in Hv|].
  apply Nat.ltb_ge in E.
  replace (S t <? 3)%nat with false by (symmetry; apply Nat.ltb_ge; lia).
  eauto.
Defined.

(** * The dispatcher: sizes of the shards *)

Lemma chunk_length (urls : list str) (i workers : Z) :
  0 ≤ i → 0 < workers →
  length (chunk urls i workers)
  = Z.to_nat ((Z.of_nat (length urls) - i + workers - 1) / workers).
Proof.
  intros Hi Hw.
  set (len := Z.of_nat (length urls)).
  set (cnt := Z.to_nat ((len - i + workers - 1) / workers)).
  assert (Hin : ∀ k' : nat, (k' < cnt)%nat → i + Z.of_nat k' * workers < len).
  { intros k' Hk'. subst cnt.
    pose proof (Z.mul_div_le (len - i + workers - 1) workers Hw). nia. }
  assert (Hout : ∀ k' : nat, (cnt ≤ k')%nat → len ≤ i + Z.of_nat k' * workers).
  { intros k' Hk'. subst cnt.
    pose proof (Z.mul_succ_div_gt (len - i + workers - 1) workers Hw).
    destruct (Z_le_gt_dec 0 ((len - i + workers - 1) / workers)); nia. }
  destruct (Nat.lt_trichotomy (length (chunk urls i workers)) cnt)
    as [Hlt|[E|Hgt]]; [|done|].
  - pose proof (chunk_lookup urls i workers (length (chunk urls i workers)) Hi Hw)
      as Hk.
    rewrite (proj2 (lookup_ge_None _ _)) in Hk by lia.
    symmetry in Hk. apply lookup_ge_None in Hk.
    specialize (Hin _ Hlt). subst len. lia.
  - pose proof (chunk_lookup urls i workers cnt Hi Hw) as Hk.
    destruct (lookup_lt_is_Some_2 (chunk urls i workers) cnt Hgt) as [u Hu].
    rewrite Hu in Hk. symmetry in Hk. apply lookup_lt_Some in Hk.
    specialize (Hout cnt (le_n _)). subst len. lia.
Qed.

Lemma sum_length_prefetch (urls : list str) workers :
  1 ≤ workers →
  sum_list_with length (prefetch urls workers) = length urls.
Proof.
  intros Hw. rewrite prefetch_seq, sum_list_with_fmap.
  destruct (Z.to_nat workers) as [|W'] eqn:HW; [lia|].
  assert (HW' : Z.of_nat W' = workers - 1) by lia.
  induction urls as [|x rest IH].
  - rewrite (sum_list_with_ext _ (λ _, 0%nat)).
    + generalize (seq 0 (S W')). intros l. induction l; simpl; auto.
    + intros i. simpl. by rewrite chunk_nil by lia.
  - cbn [length]. rewrite <- IH.
    rewrite (seq_S W' 0) at 2. rewrite sum_list_with_app. simpl.
    rewrite <- fmap_S_seq, sum_list_with_fmap.
    rewrite chunk_cons_0, HW' by lia. cbn [length].
    rewrite (sum_list_with_ext _
               (λ i : nat, length (chunk rest (Z.of_nat i) workers))).
    + unfold compose. lia.
    + intros i. simpl.
      replace (Z.of_nat (S i)) with (Z.of_nat i + 1) by lia.
      by rewrite chunk_cons_S by lia.
Qed.

(** X7.  With at least one worker the shards of a dispatch together hold as
    many urls as were dispatched, shard [i] holds the ceiling of
    [(len - i) / workers] of them, and so every shard holds the floor of
    [len / workers] urls or one more. *)
Theorem prefetch_balanced (urls : list str) (workers : Z) :
  let len := Z.of_nat (length urls) in
  1 ≤ workers →
  sum_list_with length (prefetch urls workers) = length urls
  ∧ ∀ (i : nat) ch, prefetch urls workers !! i = Some ch →
      Z.of_nat (length ch) = (len - Z.of_nat i + workers - 1) / workers
      ∧ len / workers ≤ Z.of_nat (length ch) ≤ len / workers + 1.
Proof.
  intros len Hw. split; [by apply sum_length_prefetch|].
  intros i ch Hch.
  assert (Hi : (i < Z.to_nat workers)%nat).
  { apply lookup_lt_Some in Hch. by rewrite prefetch_length in Hch. }
  rewrite prefetch_lookup in Hch by done. injection Hch as <-.
  rewrite chunk_length by lia. fold len.
  assert (Hlo : len / workers ≤ (len - Z.of_nat i + workers - 1) / workers)
    by (apply Z.div_le_mono; lia).
  assert (Hhi : (len - Z.of_nat i + workers - 1) / workers
                ≤ (len + 1 * workers) / workers)
    by (apply Z.div_le_mono; lia).
  rewrite Z.div_add in Hhi by lia.
  assert (0 ≤ len / workers) by (apply Z.div_pos; lia).
  lia.
Qed.

Lemma prefetch_balanced_witness :
  sum_list_with length (prefetch [py "a"; py "b"; py "c"] 2) = 3%nat
  ∧ ∀ (i : nat) ch, prefetch [py "a"; py "b"; py "c"] 2 !! i = Some ch →
      Z.of_nat (length ch) = (3 - Z.of_nat i + 2 - 1) / 2
      ∧ 3 / 2 ≤ Z.of_nat (length ch) ≤ 3 / 2 + 1.
Proof. apply (prefetch_balanced [py "a"; py "b"; py "c"] 2). lia. Defined.

(** * The width of a truncated url *)

Lemma length_dropWhile p (x : str) : (length (dropWhile p x) ≤ length x)%nat.
Proof.
  induction x as [|c x IH]; simpl; [done|]. destruct (p c); simpl; lia.
Qed.

Lemma length_strip (x : str) : (length (strip x) ≤ length x)%nat.
Proof.
  unfold strip. rewrite length_rev.
  etrans; [apply length_dropWhile|]. rewrite length_rev.
  apply length_dropWhile.
Qed.

(** X8.  For a width of at least 4, [truncatedURL] returns exactly [maxSize]
    characters: a shorter url is stripped and padded on the left, a longer
    one is cut to three dots and its last [maxSize - 3] characters.  For a
    width of 3 nothing is cut: the dots are put before the whole url. *)
Theorem truncatedURL_width (url : str) (maxSize : Z) :
  let len := Z.of_nat (length url) in
  (4 ≤ maxSize →
   length (truncatedURL url maxSize) = Z.to_nat maxSize
   ∧ (len < maxSize →
      ∃ pad, truncatedURL url maxSize = replicate pad (chr " ") ++ strip url)
   ∧ (maxSize ≤ len →
      truncatedURL url maxSize
      = py "..." ++ drop (Z.to_nat (len - (maxSize - 3))) url))
  ∧ (3 ≤ len → truncatedURL url 3 = py "..." ++ url).
Proof.
  intros len. unfold truncatedURL, rjust, sliceFrom. fold len. split.
  - intros Hmax. pose proof (length_strip url) as Hs.
    destruct (len <? maxSize) eqn:E.
    + apply Z.ltb_lt in E. split; [|split]; [|eauto|lia].
      rewrite length_app, length_replicate. lia.
    + apply Z.ltb_ge in E.
      replace (- (maxSize - 3) <? 0) with true by (symmetry; apply Z.ltb_lt; lia).
      replace (Z.max (len + - (maxSize - 3)) 0) with (len - (maxSize - 3)) by lia.
      split; [|split]; [|lia|done].
      rewrite length_app, length_drop. simpl. lia.
  - intros Hlen. replace (len <? 3) with false by (symmetry; apply Z.ltb_ge; lia).
    done.
Qed.

Lemma truncatedURL_width_witness :
  length (truncatedURL (py " filmow.com/x ") 8) = 8%nat
  ∧ truncatedURL (py "abc") 3 = py "...abc".
Proof.
  split.
  - apply (proj1 (truncatedURL_width (py " filmow.com/x ") 8)). lia.
  - apply (proj2 (truncatedURL_width (py "abc") 3)). simpl. lia.
Defined.


(** * Shape and errors of the user ratings *)

Lemma mapM_Ok_inv {A B} (f : A → result B) (l : list A) (bs : list B) :
  mapM f l = Ok bs → Forall2 (λ a b, f a = Ok b) l bs.
Proof.
  revert bs. induction l as [|a l IH]; intros bs; simpl.
  - intros [= <-]. constructor.
  - destruct (f a) as [b|e] eqn:Ea; simpl; [|discriminate].
    destruct (mapM f l) as [bs'|e]; simpl; [|discriminate].
    intros [= <-]. constructor; [done | by apply IH].
Qed.

Lemma mapM_Raise {A B} (f : A → result B) (l : list A) (e0 : exn) :
  (∀ a e, f a = Raise e → e = e0) →
  (∃ a e, a ∈ l ∧ f a = Raise e) →
  mapM f l = Raise e0.
Proof.
  intros Honly (a & e & Hin & Ha).
  induction Hin as [a l|a b l _ IH]; simpl.
  - rewrite Ha. simpl. by rewrite (Honly a e Ha).
  - destruct (f b) as [y|e'] eqn:Eb; simpl.
    + by rewrite IH.
    + by rewrite (Honly b e' Eb).
Qed.

Lemma styleWidth_raises bar e : styleWidth bar = Raise e → e = KeyError.
Proof.
  unfold styleWidth. destruct (averages bar) as [|first more]; [done|].
  destruct (style first); [done|]. by intros [= <-].
Qed.

(** X9.  [userRatings] returns one rating for each [user-rating] div, the empty
    string for each div without an [average] div.  When the first [average]
    div of any of the divs has no [style] attribute the call raises
    [KeyError], whatever the other divs hold: all styles are read before
    any of them is converted. *)
Theorem userRatings_shape (page : list ratingDiv) :
  (∀ rs, userRatings page = Ok rs →
     length rs = length page
     ∧ ∀ (i : nat) bar, page !! i = Some bar → averages bar = [] →
         rs !! i = Some [])
  ∧ ((∃ bar more, bar ∈ page ∧ averages bar = {| style := None |} :: more) →
     userRatings page = Raise KeyError).
Proof.
  unfold userRatings. split.
  - intros rs Hrs.
    destruct (mapM styleWidth page) as [ratings|e] eqn:E1; [|done].
    simpl in Hrs. apply mapM_Ok_inv in E1, Hrs.
    split.
    + by rewrite <- (Forall2_length _ _ _ Hrs), (Forall2_length _ _ _ E1).
    + intros i bar Hbar Hnone.
      destruct (Forall2_lookup_l _ _ _ _ _ E1 Hbar) as (rating & Hrating & Hs).
      destruct (Forall2_lookup_l _ _ _ _ _ Hrs Hrating) as (r & Hr & Hf).
      unfold styleWidth in Hs. rewrite Hnone in Hs. injection Hs as <-.
      simpl in Hf. injection Hf as <-. exact Hr.
  - intros (bar & more & Hin & Hav).
    rewrite (mapM_Raise styleWidth page KeyError); [done | |].
    + intros a e. apply styleWidth_raises.
    + exists bar, KeyError. split; [done|]. unfold styleWidth. by rewrite Hav.
Qed.

Lemma userRatings_shape_witness :
  length [py "4.0"; []]
  = length [bar "width: 80.0%;"; {| averages := [] |}]
  ∧ userRatings [bar "width: 80%;"; {| averages := [ {| style := None |} ] |}]
    = Raise KeyError.
Proof.
  split.
  - apply (proj1 (userRatings_shape
                    [bar "width: 80.0%;"; {| averages := [] |}])
                 [py "4.0"; []]).
    by vm_compute.
  - apply (proj2 (userRatings_shape _)).
    exists {| averages := [ {| style := None |} ] |}, []. split; [|done].
    right. left.
Defined.

(** * The numbers of worker threads *)

Lemma isdigit_newline : isdigit newline = false.
Proof. reflexivity. Qed.

Lemma threadCount_inv (option : str) :
  reMatch threadCount option = true →
  ∃ d e, option = d ++ e
         ∧ (length d = 1 ∨ length d = 2)%nat
         ∧ Forall (λ c, isdigit c = true) d
         ∧ (e = [] ∨ e = [newline]).
Proof.
  unfold reMatch, matchAt, threadCount. cbn [RCat matchK].
  rewrite Nat.eqb_refl.
  destruct option as [|c1 [|c2 [|c3 [|c4 x4]]]]; simpl;
    repeat case_match; try done; intros _;
    repeat match goal with
           | H : eqc _ newline = true |- _ => apply eqc_true in H; subst
           end;
    try (rewrite isdigit_newline in *; discriminate).
  - exists [c1], []. repeat split; auto.
  - exists [c1; c2], []. repeat split; auto.
  - exists [c1], [newline]. repeat split; auto.
  - exists [c1; c2], [newline]. repeat split; auto.
Qed.

Lemma strip_digits_newline (d e : str) :
  d ≠ [] → Forall (λ c, isdigit c = true) d → e = [] ∨ e = [newline] →
  strip (d ++ e) = d.
Proof.
  intros Hne Hd He. unfold strip.
  assert (Hs : ∀ c, isdigit c = true → isspace c = false).
  { intros c. unfold isdigit, isspace. lia. }
  assert (E1 : dropWhile isspace (d ++ e) = d ++ e).
  { destruct d as [|c d]; [done|]. simpl.
    apply Forall_cons in Hd as [Hc _]. by rewrite (Hs c Hc). }
  rewrite E1, rev_app_distr.
  assert (E2 : dropWhile isspace (rev e ++ rev d) = rev d).
  { assert (E3 : dropWhile isspace (rev d) = rev d).
    { destruct (rev d) as [|c r] eqn:Er; [done|]. simpl.
      rewrite Hs; [done|].
      rewrite Forall_forall in Hd. apply Hd.
      apply list_elem_of_In, in_rev, list_elem_of_In. rewrite Er. left. }
    destruct He as [->| ->]; simpl; [done|]. exact E3. }
  by rewrite E2, rev_involutive.
Qed.

Lemma threadCount_int (option : str) :
  reMatch threadCount option = true →
  ∃ n, int option = Ok n ∧ 0 ≤ n ≤ 99.
Proof.
  intros (d & e & -> & Hlen & Hd & He)%threadCount_inv.
  assert (Hne : d ≠ []) by (destruct d; [simpl in Hlen; lia | done]).
  unfold int. rewrite strip_digits_newline by done.
  assert (Hr : ∀ c, isdigit c = true → 0 ≤ code c - 48 ≤ 9)
    by (intros c; unfold isdigit; lia).
  assert (Hsign : ∀ c, isdigit c = true →
                       eqc c (chr "-") = false ∧ eqc c (chr "+") = false).
  { intros c Hc. split; apply bool_decide_eq_false; intros ->; done. }
  destruct d as [|c1 [|c2 [|c3 d]]]; simpl in Hlen; try lia.
  - apply Forall_cons in Hd as [H1 _]. destruct (Hsign c1 H1) as [-> ->].
    simpl. rewrite H1. simpl. eexists. split; [done|].
    pose proof (Hr c1 H1). lia.
  - apply Forall_cons in Hd as [H1 [H2 _]%Forall_cons].
    destruct (Hsign c1 H1) as [-> ->].
    simpl. rewrite H1. simpl. rewrite H2. simpl. eexists. split; [done|].
    pose proof (Hr c1 H1). pose proof (Hr c2 H2). lia.
Qed.

Lemma options_threads opts st next evs st' :
  options opts st next = (evs, inl st') →
  0 ≤ nPrefetcherThreads st ≤ 99 →
  0 ≤ nPrefetcherThreads st' ≤ 99.
Proof.
  revert st next evs. induction opts as [|option opts IH];
    intros st next evs; simpl.
  - by intros [= _ <-].
  - destruct next.
    + destruct (reMatch threadCount option) eqn:E; simpl; [|done].
      destruct (threadCount_int option E) as (n & -> & Hn). simpl.
      destruct (options opts (withThreads st n) false) as [evs1 r] eqn:Eo.
      intros [= <- ->] _. by apply (IH _ _ _ Eo).
    + repeat case_match; simpl; intros Heq Hst; simplify_eq;
        try (eapply IH; [eassumption | done]).
Qed.


Lemma datesWorkers_range n : 0 ≤ n ≤ 99 → 1 ≤ datesWorkers n ≤ 16.
Proof.
  intros Hn.
  assert (Hall : forallb (λ k : nat,
                            (1 <=? datesWorkers (Z.of_nat k))
                            && (datesWorkers (Z.of_nat k) <=? 16))
                         (seq 0 100) = true) by (by vm_compute).
  rewrite forallb_forall in Hall.
  specialize (Hall (Z.to_nat n)). rewrite Z2Nat.id in Hall by lia.
  apply andb_prop in Hall as [H1 H2]; [lia|].
  apply in_seq. lia.
Qed.

(** X10.  Whenever the command line is accepted, the number of prefetcher
    threads is between 0 and 99 (0 is accepted), and the number of threads
    for the dates pages, [1 + round(n * 0.15)], is between 1 and 16. *)
Theorem thread_counts (w : world) (argv : list str) (evs : list event)
    (st : settings) :
  commandLine w argv = (evs, inl st) →
  0 ≤ nPrefetcherThreads st ≤ 99
  ∧ 1 ≤ datesWorkers (nPrefetcherThreads st) ≤ 16.
Proof.
  intros Hc.
  assert (Hn : 0 ≤ nPrefetcherThreads st ≤ 99); [|by auto using datesWorkers_range].
  unfold commandLine in Hc. destruct argv as [|argv0 args]; [done|].
  destruct (match args with
            | [] => true
            | a :: _ => eqs a (py "-h") || eqs a (py "--help")
            end).
  { by destruct args; simpl in Hc. }
  destruct (3 <=? length (argv0 :: args))%nat.
  - destruct (isdir w (secondToLast (argv0 :: args))).
    + simpl in Hc.
      destruct (options (removelast args) _ false) as [evs1 r] eqn:Eo.
      injection Hc as <- ->.
      apply (options_threads _ _ _ _ _ Eo). simpl. lia.
    + destruct (negb (startswith (secondToLast (argv0 :: args)) (py "-")));
        [done|]. simpl in Hc.
      destruct (options (removelast args) _ false) as [evs1 r] eqn:Eo.
      injection Hc as <- ->.
      apply (options_threads _ _ _ _ _ Eo). simpl. lia.
  - injection Hc as _ <-. simpl. lia.
Qed.

Lemma thread_counts_witness :
  let st := withoutYear (withThreads (defaults offline) 0) in
  0 ≤ nPrefetcherThreads st ≤ 99
  ∧ 1 ≤ datesWorkers (nPrefetcherThreads st) ≤ 16.
Proof.
  apply (thread_counts offline [py "prog"; py "-t"; py "0"; py "-y"; py "user"]
           [] (withoutYear (withThreads (defaults offline) 0))).
  reflexivity.
Defined.

(** * Regular expressions: more on literals, repetitions and replacing *)

Lemma startswith_inv (x w : str) :
  startswith x w = true → x = w ++ drop (length w) x.
Proof.
  revert x. induction w as [|a w IH]; intros x; [by destruct x|].
  destruct x as [|b x]; simpl; [done|].
  intros [->%eqc_true H]%andb_prop. f_equal. by apply IH.
Qed.

Lemma startswith_app (w v : str) : startswith (w ++ v) w = true.
Proof.
  induction w as [|a w IH]; simpl; [by destruct v|]. by rewrite eqc_refl.
Qed.

Lemma drop_length_app (w v : str) : drop (length w) (w ++ v) = v.
Proof. by rewrite drop_app_length. Qed.

Lemma startswith_class p (x w : str) :
  Forall (λ c, p c = true) x → startswith x w = true → forallb p w = true.
Proof.
  intros Hx Hw. apply startswith_inv in Hw. rewrite Hw in Hx.
  apply Forall_app in Hx as [Hx _]. apply forallb_forall.
  intros c Hc%list_elem_of_In. rewrite Forall_forall in Hx. by apply Hx.
Qed.

(** A repetition fails when no split lets the rest match, and what it
    returns comes from a split. *)
Lemma rep_none {R} p greedy lo hi (k : str → option R) (x : str) :
  (∀ u v, x = u ++ v → Forall (λ c, p c = true) u → (lo ≤ length u)%nat →
          k v = None) →
  rep p greedy lo hi k x = None.
Proof.
  revert lo hi. induction x as [|c x IH]; intros lo hi Hk.
  - simpl. destruct lo; [|by destruct greedy].
    rewrite (Hk [] []); [by destruct greedy | done | constructor | simpl; lia].
  - cbn [rep].
    assert (Hstop : match lo with O => k (c :: x) | S _ => None end = None).
    { destruct lo; [|done]. apply (Hk [] (c :: x)); [done | constructor|].
      simpl. lia. }
    assert (Hmore : (if p c then
                       match hi with
                       | Some O => None
                       | Some (S h) => rep p greedy (Nat.pred lo) (Some h) k x
                       | None => rep p greedy (Nat.pred lo) None k x
                       end
                     else None) = None).
    { destruct (p c) eqn:Hc; [|done].
      assert (Hx : ∀ hi', rep p greedy (Nat.pred lo) hi' k x = None).
      { intros hi'. apply IH. intros u v -> Hu Hlen.
        apply (Hk (c :: u) v); [done | by constructor | simpl; lia]. }
      destruct hi as [[|h]|]; auto. }
    rewrite Hstop, Hmore. by destruct greedy.
Qed.

Lemma rep_inv {R} p greedy lo (k : str → option R) (x : str) r :
  rep p greedy lo None k x = Some r →
  ∃ u v, x = u ++ v ∧ Forall (λ c, p c = true) u ∧ (lo ≤ length u)%nat
         ∧ k v = Some r.
Proof.
  revert lo. induction x as [|c x IH]; intros lo.
  - simpl. destruct lo; [|by destruct greedy].
    intros H. exists [], []. repeat split; [constructor | simpl; lia|].
    by destruct greedy, (k []).
  - cbn [rep]. intros H.
    assert (Hcases : match lo with O => k (c :: x) | S _ => None end = Some r
                     ∨ (p c = true ∧ rep p greedy (Nat.pred lo) None k x = Some r)).
    { destruct (p c) eqn:Hc.
      - destruct greedy; simpl in H.
        + destruct (rep p true (Nat.pred lo) None k x); [right|left]; auto.
        + destruct (match lo with O => k (c :: x) | S _ => None end);
            [left|right]; auto.
      - left. destruct greedy; simpl in H; [done|].
        by destruct (match lo with O => k (c :: x) | S _ => None end). }
    destruct Hcases as [Hstop|[Hc Hmore]].
    + destruct lo; [|done]. exists [], (c :: x).
      repeat split; [constructor | simpl; lia | done].
    + destruct (IH _ Hmore) as (u & v & -> & Hu & Hlen & Hv).
      exists (c :: u), v. repeat split; [by constructor | simpl; lia | done].
Qed.

Lemma rep_some {R} p greedy (k : str → option R) (u v : str) lo :
  Forall (λ c, p c = true) u → (lo ≤ length u)%nat → is_Some (k v) →
  is_Some (rep p greedy lo None k (u ++ v)).
Proof.
  intros Hu. revert lo. induction Hu as [|c u Hc Hu IH]; intros lo Hlen Hv.
  - simpl in Hlen. replace lo with O by lia.
    destruct v as [|c v]; simpl.
    + destruct greedy, Hv as [r ->]; simpl; eauto.
    + destruct Hv as [r Hr]. rewrite Hr.
      destruct greedy; simpl; [|eauto].
      destruct (if p c then rep p true 0 None k v else None); simpl; eauto.
  - cbn [app rep]. rewrite Hc.
    destruct (IH (Nat.pred lo)) as [r Hr]; [simpl in Hlen; lia | done|].
    rewrite Hr. destruct greedy; simpl; [eauto|].
    destruct (match lo with O => _ | S _ => None end); simpl; eauto.
Qed.

(** Replacing: the part of the subject before the first match is kept. *)
Lemma subWalk_prefix N r tpl (u v : str) :
  (∀ i, (i < length u)%nat → matchAt N r (drop i (u ++ v)) = None) →
  subWalk N r tpl 0 (u ++ v) = u ++ subWalk N r tpl 0 v.
Proof.
  induction u as [|c u IH]; intros Hnone; [done|].
  pose proof (Hnone O ltac:(simpl; lia)) as H0. simpl in H0.
  cbn [app subWalk]. rewrite H0. f_equal. apply IH.
  intros i Hi. apply (Hnone (S i)). simpl. lia.
Qed.

(** A pattern anchored with [^] matches at the start of the subject only. *)
Lemma subWalk_anchored N r tpl (x : str) :
  (length x < N)%nat →
  (∀ y, (length y < N)%nat → matchAt N r y = None) →
  subWalk N r tpl 0 x = x.
Proof.
  intros Hlen Hbol. apply subWalk_none. intros i. apply Hbol.
  rewrite length_drop. lia.
Qed.


(** * [parseTarget]: bare user names and list ids *)

Lemma strip_ends (x : str) :
  match x with c :: _ => isspace c = false | [] => True end →
  match rev x with c :: _ => isspace c = false | [] => True end →
  strip x = x.
Proof.
  intros Hfirst Hlast. unfold strip.
  assert (E1 : dropWhile isspace x = x).
  { destruct x as [|c x]; [done|]. simpl. by rewrite Hfirst. }
  rewrite E1.
  assert (E2 : dropWhile isspace (rev x) = rev x).
  { destruct (rev x) as [|c r]; [done|]. simpl. by rewrite Hlast. }
  by rewrite E2, rev_involutive.
Qed.

Lemma wordDash_not_space c : wordDash c = true → isspace c = false.
Proof. by_cases c. Qed.

Lemma strip_wordDash (x : str) :
  Forall (λ c, wordDash c = true) x → strip x = x.
Proof.
  intros Hx. apply strip_ends.
  - destruct x as [|c x]; [done|]. apply Forall_cons in Hx as [Hc _].
    by apply wordDash_not_space.
  - destruct (rev x) as [|c r] eqn:Er; [done|]. apply wordDash_not_space.
    rewrite Forall_forall in Hx. apply Hx.
    apply list_elem_of_In, in_rev, list_elem_of_In. rewrite Er. left.
Qed.

Ltac no_prefix H HF :=
  apply (startswith_class wordDash) in H;
  [vm_compute in H; discriminate H | try apply Forall_drop; exact HF].

Lemma filmowPrefix_identifier N (x : str) :
  Forall (λ c, wordDash c = true) x →
  startswith x (py "filmow") = false →
  matchAt N filmowPrefix x = None.
Proof.
  intros HF Hf. unfold matchAt, filmowPrefix. cbn [RCat matchK].
  destruct (length x =? N)%nat; [|done]. rewrite Hf.
  destruct (startswith x (py "www.")) eqn:Hw; [no_prefix Hw HF|].
  destruct (startswith x (py "http")) eqn:Hh; [|done].
  destruct (startswith (drop (length (py "http")) x) (py "s")) eqn:Hs.
  - destruct (startswith (drop (length (py "s")) (drop (length (py "http")) x))
                (py "://")) eqn:Hc.
    { apply (startswith_class wordDash) in Hc;
        [vm_compute in Hc; discriminate Hc | by do 2 apply Forall_drop]. }
    destruct (startswith (drop (length (py "http")) x) (py "://")) eqn:Hc';
      [no_prefix Hc' HF | done].
  - destruct (startswith (drop (length (py "http")) x) (py "://")) eqn:Hc';
      [no_prefix Hc' HF | done].
Qed.

Lemma normalise_identifier (target : str) :
  Forall (λ c, wordDash c = true) target →
  startswith target (py "filmow") = false →
  normalise target = target.
Proof.
  intros HF Hf. unfold normalise, reSub. rewrite strip_wordDash by done.
  apply subWalk_none. intros i. unfold matchAt, filmowPrefix. cbn [RCat matchK].
  destruct (length (drop i target) =? length target)%nat eqn:Hlen; [|done].
  apply Nat.eqb_eq in Hlen. rewrite length_drop in Hlen.
  assert (Hdrop : drop i target = target).
  { destruct i; [done|]. destruct target; [done|]. simpl in Hlen. lia. }
  rewrite Hdrop.
  pose proof (filmowPrefix_identifier (length target) target HF Hf) as Hm.
  unfold matchAt, filmowPrefix in Hm. cbn [RCat matchK] in Hm.
  by rewrite Nat.eqb_refl in Hm.
Qed.

Lemma wordDash_not_newline c : wordDash c = true → eqc c newline = false.
Proof. by_cases c. Qed.

Lemma takeWhile_all p (x : str) :
  Forall (λ c, p c = true) x → takeWhile p x = x ∧ dropWhile p x = [].
Proof.
  intros Hx. pose proof (takeWhile_app p x [] Hx I) as H.
  by rewrite app_nil_r in H.
Qed.

Lemma userId_identifier (x : str) :
  x ≠ [] → Forall (λ c, wordDash c = true) x → reMatch userId x = true.
Proof.
  intros Hne HF. unfold reMatch, matchAt, userId, RPlus. cbn [RCat matchK].
  rewrite Nat.eqb_refl. rewrite rep_greedy_max.
  - destruct (takeWhile_all wordDash x HF) as [-> ->].
    destruct x; [done|]. done.
  - intros c w Hc. destruct w; [|done]. by rewrite wordDash_not_newline.
Qed.

Lemma literal_not_identifier N lit (x : str) rest :
  Forall (λ c, wordDash c = true) x →
  forallb wordDash lit = false →
  matchAt N (RSeq RBol (RSeq (RLit lit) rest)) x = None.
Proof.
  intros HF Hlit. unfold matchAt. cbn [matchK].
  destruct (length x =? N)%nat; [|done].
  destruct (startswith x lit) eqn:Hs; [|done].
  apply (startswith_class wordDash) in Hs; [|done]. congruence.
Qed.

Lemma classify_identifier (x : str) :
  x ≠ [] → Forall (λ c, wordDash c = true) x →
  classify x
  = Some (if reMatch listId x
          then (false, py "https://filmow.com/listas/" ++ lower x ++ py "/",
                lower x)
          else (true, py "https://filmow.com/usuario/" ++ lower x ++ py "/",
                lower x)).
Proof.
  intros Hne HF. unfold classify.
  assert (H1 : reMatch listURL x = false).
  { unfold reMatch, listURL. cbn [RCat].
    by rewrite literal_not_identifier. }
  assert (H2 : reMatch userURL x = false).
  { unfold reMatch, userURL. cbn [RCat].
    by rewrite literal_not_identifier. }
  rewrite H1, H2. destruct (reMatch listId x); [done|].
  by rewrite userId_identifier.
Qed.


Lemma digits_end N (d : str) cs :
  d ≠ [] → Forall (λ c, isdigit c = true) d →
  matchK N (RSeq (RPlus isdigit) REol) d cs (λ x' cs', Some (x', cs'))
  = Some ([], cs).
Proof.
  intros Hne Hd. unfold RPlus. cbn [matchK]. rewrite rep_greedy_max.
  - destruct (takeWhile_all isdigit d Hd) as [-> ->]. by destruct d.
  - intros c w Hc. destruct w; [|done].
    destruct (eqc c newline) eqn:E; [|done].
    apply eqc_true in E. subst c. done.
Qed.

Lemma listId_shape (x : str) :
  Forall (λ c, wordDash c = true) x →
  reMatch listId x = true
  ↔ ∃ name digits, x = name ++ py "-l" ++ digits ∧ name ≠ [] ∧ digits ≠ []
                   ∧ Forall (λ c, isdigit c = true) digits.
Proof.
  intros HF. unfold reMatch, matchAt, listId, RPlus. cbn [RCat matchK].
  rewrite Nat.eqb_refl.
  match goal with
  | |- context [rep wordDash true 1 None ?k x] => set (K := k)
  end.
  split.
  - destruct (rep wordDash true 1 None K x) as [r|] eqn:E; [intros _|done].
    apply rep_inv in E as (u & v & -> & Hu & Hlen & Hv). subst K.
    cbv beta in Hv.
    destruct (startswith v (py "-l")) eqn:Hs; [|done].
    pose proof (startswith_inv _ _ Hs) as Ev.
    apply rep_inv in Hv as (d & e & Ed & Hd & Hdlen & He).
    assert (e = []) as ->.
    { destruct e as [|c [|c' e]]; [done| |done]. exfalso.
      destruct (eqc c newline) eqn:Ec; [|done]. apply eqc_true in Ec. subst c.
      rewrite Forall_forall in HF.
      assert (Hin : newline ∈ u ++ v).
      { rewrite Ev, Ed. rewrite !elem_of_app. right. right. right. left. }
      specialize (HF _ Hin). done. }
    rewrite app_nil_r in Ed. exists u, d. rewrite Ev, Ed.
    repeat split; [| |done].
    + intros ->. simpl in Hlen. lia.
    + intros ->. simpl in Hdlen. lia.
  - intros (name & digits & -> & Hname & Hdigits & Hd).
    apply Forall_app in HF as [Hn _].
    assert (Hsome : is_Some (rep wordDash true 1 None K
                               (name ++ py "-l" ++ digits))).
    { apply rep_some; [done | destruct name; [done | simpl; lia]|].
      subst K. cbv beta. rewrite startswith_app, drop_length_app.
      pose proof (digits_end O digits [] Hdigits Hd) as Hm.
      unfold RPlus in Hm. cbn [matchK] in Hm. rewrite Hm. eauto. }
    destruct Hsome as [r ->]. done.
Qed.

(** X11.  A target made of letters, digits, underscores and hyphens that does not
    begin with [filmow] is taken as an identifier: as a list id when it is a
    non-empty name followed by [-l] and digits, as a user name otherwise;
    its base url is the lower-cased identifier under [listas/] or
    [usuario/]. *)
Theorem parseTarget_identifier (w : world) (target : str) :
  target ≠ [] →
  Forall (λ c, wordDash c = true) target →
  startswith target (py "filmow") = false →
  (parseTarget w target).2
  = inl (Some (if reMatch listId target
               then (false,
                     py "https://filmow.com/listas/" ++ lower target ++ py "/",
                     lower target)
               else (true,
                     py "https://filmow.com/usuario/" ++ lower target ++ py "/",
                     lower target)))
  ∧ (reMatch listId target = true
     ↔ ∃ name digits, target = name ++ py "-l" ++ digits ∧ name ≠ []
                      ∧ digits ≠ [] ∧ Forall (λ c, isdigit c = true) digits).
Proof.
  intros Hne HF Hf. split; [|by apply listId_shape].
  rewrite parseTarget_value, normalise_identifier by done.
  by rewrite classify_identifier.
Qed.

Lemma parseTarget_identifier_witness :
  (parseTarget offline (py "Top-10-l42")).2
  = inl (Some (false, py "https://filmow.com/listas/top-10-l42/",
               py "top-10-l42")).
Proof.
  refine (proj1 (parseTarget_identifier offline (py "Top-10-l42") _ _ _)).
  - discriminate.
  - repeat constructor.
  - reflexivity.
Defined.

(** * [parseTarget]: names that begin with the name of the site *)

Lemma startswith_app_app (u v w : str) :
  startswith (u ++ v) (u ++ w) = startswith v w.
Proof. induction u as [|a u IH]; simpl; [done|]. by rewrite eqc_refl. Qed.

Lemma subWalk_skip_app N r tpl (u v : str) :
  subWalk N r tpl (length u) (u ++ v) = subWalk N r tpl 0 v.
Proof. induction u as [|c u IH]; [done | apply IH]. Qed.

(** Replacing: a match at the start of the subject is replaced by the
    expanded template and the scan goes on behind it. *)
Lemma subWalk_head N r tpl (u v : str) cs :
  u ≠ [] →
  matchAt N r (u ++ v) = Some (v, cs) →
  subWalk N r tpl 0 (u ++ v) = expand tpl cs ++ subWalk N r tpl 0 v.
Proof.
  intros Hne Hm. destruct u as [|c u]; [done|].
  cbn [app subWalk]. cbn [app] in Hm. rewrite Hm. f_equal.
  replace (length (c :: u ++ v) - length v)%nat with (S (length u))
    by (simpl; rewrite length_app; lia).
  apply subWalk_skip_app.
Qed.

Lemma filmowPrefix_anchored N (y : str) :
  (length y < N)%nat → matchAt N filmowPrefix y = None.
Proof.
  intros Hlen. unfold matchAt, filmowPrefix. cbn [RCat matchK].
  by replace (length y =? N)%nat with false by (symmetry; apply Nat.eqb_neq; lia).
Qed.

Lemma filmowPrefix_bare (rest : str) :
  matchAt (length (py "filmow" ++ rest)) filmowPrefix (py "filmow" ++ rest)
  = Some (rest, []).
Proof.
  unfold matchAt, filmowPrefix. cbn [RCat matchK]. rewrite Nat.eqb_refl.
  change (py "filmow" ++ rest)
    with (chr "f" :: chr "i" :: chr "l" :: chr "m" :: chr "o" :: chr "w" :: rest).
  assert (E1 : ∀ y, startswith (chr "f" :: y) (py "http") = false) by done.
  assert (E2 : ∀ y, startswith (chr "f" :: y) (py "www.") = false) by done.
  rewrite E1, E2. cbn [orElse].
  change (py "filmow") with [chr "f"; chr "i"; chr "l"; chr "m"; chr "o"; chr "w"].
  cbn [startswith]. by rewrite !eqc_refl, startswith_nil.
Qed.

Lemma normalise_filmow (rest : str) :
  Forall (λ c, wordDash c = true) rest →
  normalise (py "filmow" ++ rest) = py "https://filmow" ++ rest.
Proof.
  intros HF. unfold normalise, reSub. rewrite strip_wordDash.
  - rewrite (subWalk_head _ _ _ (py "filmow") rest []);
      [|done | apply filmowPrefix_bare].
    rewrite subWalk_anchored; [done | simpl; lia|].
    intros y Hy. by apply filmowPrefix_anchored.
  - apply Forall_app. split; [repeat constructor | done].
Qed.

Lemma classify_filmow (rest : str) :
  Forall (λ c, wordDash c = true) rest →
  classify (py "https://filmow" ++ rest) = None.
Proof.
  intros HF. unfold classify.
  assert (Hdot : ∀ w, startswith rest (chr "." :: w) = false).
  { intros w. destruct (startswith rest (chr "." :: w)) eqn:E; [|done].
    apply (startswith_class wordDash) in E; [|done]. done. }
  assert (H1 : reMatch listURL (py "https://filmow" ++ rest) = false).
  { unfold reMatch, matchAt, listURL. cbn [RCat matchK]. rewrite Nat.eqb_refl.
    change (py "https://filmow.com/listas/")
      with (py "https://filmow" ++ chr "." :: py "com/listas/").
    by rewrite startswith_app_app, Hdot. }
  assert (H2 : reMatch userURL (py "https://filmow" ++ rest) = false).
  { unfold reMatch, matchAt, userURL. cbn [RCat matchK]. rewrite Nat.eqb_refl.
    change (py "https://filmow.com/usuario/")
      with (py "https://filmow" ++ chr "." :: py "com/usuario/").
    by rewrite startswith_app_app, Hdot. }
  assert (Hsplit : ∀ u v,
            py "https://filmow" ++ rest = u ++ v →
            Forall (λ c, wordDash c = true) u →
            ∃ c1 c2 v', v = c1 :: c2 :: v' ∧ c1 ≠ chr "-").
  { intros u v E Hu.
    destruct u as [|a1 [|a2 [|a3 [|a4 [|a5 [|a6 u]]]]]]; simpl in E;
      simplify_eq; try (do 3 eexists; split; [done|discriminate]).
    exfalso. do 5 apply Forall_cons in Hu as [_ Hu].
    apply Forall_cons in Hu as [Hu _]. done. }
  assert (H3 : reMatch listId (py "https://filmow" ++ rest) = false).
  { unfold reMatch, matchAt, listId, RPlus. cbn [RCat matchK].
    rewrite Nat.eqb_refl. rewrite rep_none; [done|].
    intros u v E Hu _. destruct (Hsplit u v E Hu) as (c1 & c2 & v' & -> & Hc).
    change (py "-l") with [chr "-"; chr "l"]. rewrite startswith_cons.
    destruct (eqc (chr "-") c1) eqn:Ec; [|done].
    apply eqc_true in Ec. by subst c1. }
  assert (H4 : reMatch userId (py "https://filmow" ++ rest) = false).
  { unfold reMatch, matchAt, userId, RPlus. cbn [RCat matchK].
    rewrite Nat.eqb_refl. rewrite rep_none; [done|].
    intros u v E Hu _. by destruct (Hsplit u v E Hu) as (c1 & c2 & v' & -> & _). }
  by rewrite H1, H2, H3, H4.
Qed.

(** X12.  A user name that begins with [filmow] is not accepted: the site prefix
    is put before what follows it, the result is neither a url of the site
    nor an identifier, and [parseTarget] reports it as invalid and returns
    the tuple of three [None]. *)
Theorem parseTarget_filmow_name (w : world) (rest : str) :
  Forall (λ c, wordDash c = true) rest →
  parseTarget w (py "filmow" ++ rest)
  = ([Err (py "Invalid username or URL: https://filmow" ++ rest ++ nl)],
     inl None).
Proof.
  intros HF. unfold parseTarget.
  rewrite normalise_filmow, classify_filmow by done. reflexivity.
Qed.

Lemma parseTarget_filmow_name_witness :
  parseTarget offline (py "filmowfan")
  = ([Err (py "Invalid username or URL: https://filmowfan" ++ nl)], inl None).
Proof.
  apply (parseTarget_filmow_name offline (py "fan")). repeat constructor.
Defined.

(** * [parseTarget]: urls of lists and of users *)

Lemma rep_greedy_all {R} p (k : str → option R) (u v : str) lo r :
  Forall (λ c, p c = true) u → (lo ≤ length u)%nat →
  match v with [] => True | c :: _ => p c = false end →
  k v = Some r →
  rep p true lo None k (u ++ v) = Some r.
Proof.
  intros Hu. revert lo. induction Hu as [|c u Hc Hu IH]; intros lo Hlen Hv Hk.
  - simpl in Hlen. replace lo with O by lia.
    destruct v as [|c v]; simpl; [by rewrite Hk|]. by rewrite Hv, Hk.
  - cbn [app rep]. rewrite Hc.
    rewrite (IH (Nat.pred lo)); [done | simpl in Hlen; lia | done | done].
Qed.

Lemma take_group (u v : str) :
  take (length (u ++ v) - length v) (u ++ v) = u.
Proof.
  rewrite length_app. replace (length u + length v - length v)%nat
    with (length u) by lia.
  by rewrite take_app_length.
Qed.

Lemma strip_outer (x : str) :
  (∀ c, head x = Some c → isspace c = false) →
  (∀ c, last x = Some c → isspace c = false) →
  strip x = x.
Proof.
  intros Hh Hl. apply strip_ends.
  - destruct x as [|c x]; [done|]. by apply Hh.
  - destruct (rev x) as [|c r] eqn:Er; [done|]. apply Hl.
    rewrite <- (rev_involutive x), Er. simpl. by rewrite last_snoc.
Qed.

Lemma filmowPrefix_site (pre rest : str) :
  pre ∈ sitePrefixes →
  ∃ cs, matchAt (length ((pre ++ py "filmow") ++ rest)) filmowPrefix
          ((pre ++ py "filmow") ++ rest) = Some (rest, cs).
Proof.
  unfold sitePrefixes. rewrite !elem_of_cons, elem_of_nil.
  intros [->|[->|[->|[->|[->|[->|[]]]]]]];
    unfold matchAt, filmowPrefix; cbn [RCat matchK]; rewrite Nat.eqb_refl;
    simpl; rewrite startswith_nil; simpl; eauto.
Qed.

Lemma normalise_site (pre rest : str) :
  pre ∈ sitePrefixes →
  (∀ c, last (py "w" ++ rest) = Some c → isspace c = false) →
  normalise (pre ++ py "filmow" ++ rest) = py "https://filmow" ++ rest.
Proof.
  intros Hpre Hlast. unfold normalise, reSub. rewrite strip_outer.
  - rewrite (app_assoc pre).
    destruct (filmowPrefix_site pre rest Hpre) as [cs Hm].
    rewrite (subWalk_head _ _ _ (pre ++ py "filmow") rest cs);
      [|by destruct pre | done].
    rewrite subWalk_anchored.
    + done.
    + rewrite !length_app. simpl. lia.
    + intros y Hy. by apply filmowPrefix_anchored.
  - unfold sitePrefixes in Hpre. rewrite !elem_of_cons, elem_of_nil in Hpre.
    destruct Hpre as [->|[->|[->|[->|[->|[->|[]]]]]]];
      by intros c [= <-].
  - intros c Hc. apply Hlast.
    rewrite (app_assoc pre), last_app in Hc.
    change (py "w" ++ rest) with ([chr "w"] ++ rest). rewrite last_app.
    destruct (last rest) as [c'|] eqn:Er; [done|].
    rewrite last_app in Hc. simpl in Hc. by simpl.
Qed.


Lemma notSlashSpace_not_slash c :
  notSlashSpace c = true → eqc (chr "/") c = false.
Proof. by_cases c. Qed.

Lemma notSlashSpace_not_newline c :
  notSlashSpace c = true → eqc c newline = false.
Proof. by_cases c. Qed.

Lemma notSlashSpace_not_space c : notSlashSpace c = true → isspace c = false.
Proof. by_cases c. Qed.

Lemma notSlashSpace_notSlash c : notSlashSpace c = true → notSlash c = true.
Proof. by_cases c. Qed.

Lemma listURL_match (name slash : str) :
  let url := py "https://filmow.com/listas/" ++ name ++ slash in
  name ≠ [] → Forall (λ c, notSlashSpace c = true) name →
  slash = [] ∨ slash = py "/" →
  matchAt (length url) listURL url = Some ([], [(1%nat, name)]).
Proof.
  intros url Hne Hname Hslash. subst url.
  unfold matchAt, listURL, RPlus. cbn [RCat matchK]. rewrite Nat.eqb_refl.
  rewrite startswith_app, drop_length_app.
  erewrite rep_greedy_all; [reflexivity | done | | |].
  - destruct name; [done | simpl; lia].
  - by destruct Hslash as [-> | ->].
  - rewrite take_group. by destruct Hslash as [-> | ->].
Qed.

(** [re.sub(r'([^/])$', r'\1/', x)] puts a slash behind a last character
    that is not one. *)
Lemma sub_lastNotSlash N (x : str) c :
  Forall (λ a, a ≠ newline) (x ++ [c]) →
  subWalk N lastNotSlash [TGroup 1; TText (py "/")] 0 (x ++ [c])
  = x ++ (if notSlash c then [c; chr "/"] else [c]).
Proof.
  intros Hnl. induction x as [|a x IH].
  - simpl. unfold matchAt, lastNotSlash. cbn [RCat matchK].
    destruct (notSlash c); done.
  - cbn [app subWalk].
    assert (Hm : matchAt N lastNotSlash (a :: x ++ [c]) = None).
    { unfold matchAt, lastNotSlash. cbn [RCat matchK].
      destruct (notSlash a); [|done].
      destruct x as [|b x]; simpl.
      - apply Forall_cons in Hnl as [_ [Hc _]%Forall_cons].
        destruct (eqc c newline) eqn:E; [|done]. by apply eqc_true in E.
      - by destruct x. }
    rewrite Hm. f_equal. apply IH. by apply Forall_cons in Hnl as [_ ?].
Qed.

Lemma notSlashSpace_no_newline (name : str) :
  Forall (λ c, notSlashSpace c = true) name → Forall (λ a, a ≠ newline) name.
Proof.
  intros H. eapply Forall_impl; [exact H|]. intros c Hc ->. done.
Qed.

Lemma classify_list_url (name slash : str) :
  name ≠ [] → Forall (λ c, notSlashSpace c = true) name →
  slash = [] ∨ slash = py "/" →
  classify (py "https://filmow.com/listas/" ++ name ++ slash)
  = Some (false, py "https://filmow.com/listas/" ++ name ++ py "/", name).
Proof.
  intros Hne Hname Hslash. unfold classify.
  pose proof (listURL_match name slash Hne Hname Hslash) as Hm. cbv zeta in Hm.
  unfold reMatch. rewrite Hm. unfold reSub.
  rewrite (subWalk_whole _ listURL _ _ [(1%nat, name)]); [|done|exact Hm|done].
  assert (Hbase : ∀ N,
            subWalk N lastNotSlash [TGroup 1; TText (py "/")] 0
              (py "https://filmow.com/listas/" ++ name ++ slash)
            = py "https://filmow.com/listas/" ++ name ++ py "/").
  { intros N. pose proof (notSlashSpace_no_newline name Hname) as Hnl.
    destruct Hslash as [-> | ->].
    + rewrite app_nil_r.
      destruct (rev name) as [|c r] eqn:Er.
      { apply (f_equal (@rev ascii)) in Er. rewrite rev_involutive in Er.
        by subst name. }
      assert (Ename : name = rev r ++ [c]).
      { by rewrite <- (rev_involutive name), Er. }
      rewrite Ename, !app_assoc.
      rewrite sub_lastNotSlash.
      * assert (Hc : notSlashSpace c = true).
        { rewrite Forall_forall in Hname. apply Hname. rewrite Ename.
          apply elem_of_app. right. left. }
        by rewrite (notSlashSpace_notSlash c Hc), <- !app_assoc.
      * rewrite <- app_assoc, <- Ename. apply Forall_app.
        split; [repeat constructor; discriminate | done].
    + change (py "/") with [chr "/"].
      rewrite (app_assoc _ name), sub_lastNotSlash.
      * by rewrite <- app_assoc.
      * rewrite <- !app_assoc. apply Forall_app.
        split; [repeat constructor; discriminate|].
        apply Forall_app. split; [done | repeat constructor; discriminate]. }
  rewrite Hbase. unfold expand. simpl. by rewrite app_nil_r.
Qed.

(** X13.  A list url, with or without scheme, [www.] and final slash, is taken as
    a list: its base url is the url in its [https://filmow.com/listas/]
    form with a final slash, and its name is the last path segment, in the
    case it was given. *)
Theorem parseTarget_list_url (w : world) (pre name slash : str) :
  pre ∈ sitePrefixes →
  name ≠ [] → Forall (λ c, notSlashSpace c = true) name →
  slash = [] ∨ slash = py "/" →
  (parseTarget w (pre ++ py "filmow.com/listas/" ++ name ++ slash)).2
  = inl (Some (false, py "https://filmow.com/listas/" ++ name ++ py "/", name)).
Proof.
  intros Hpre Hne Hname Hslash. rewrite parseTarget_value.
  change (py "filmow.com/listas/" ++ name ++ slash)
    with (py "filmow" ++ py ".com/listas/" ++ name ++ slash).
  rewrite normalise_site; [f_equal; by apply classify_list_url | done|].
  intros c Hc. change (py "w" ++ py ".com/listas/" ++ name ++ slash)
    with (py "w.com/listas/" ++ name ++ slash) in Hc.
  rewrite !last_app in Hc.
  destruct Hslash as [-> | ->]; simpl in Hc.
  - destruct (last name) as [c'|] eqn:El.
    + injection Hc as <-. apply notSlashSpace_not_space.
      rewrite Forall_forall in Hname. apply Hname.
      apply last_Some in El as [l' ->]. apply elem_of_app. right. left.
    + apply last_None in El. done.
  - by injection Hc as <-.
Qed.

Lemma parseTarget_list_url_witness :
  (parseTarget offline (py "www.filmow.com/listas/Top-10-l42")).2
  = inl (Some (false, py "https://filmow.com/listas/Top-10-l42/",
               py "Top-10-l42")).
Proof.
  refine (parseTarget_list_url offline (py "www.") (py "Top-10-l42") [] _ _ _ _).
  - unfold sitePrefixes. set_solver.
  - discriminate.
  - repeat constructor.
  - by left.
Defined.


Lemma userURL_match (name tail : str) :
  let url := py "https://filmow.com/usuario/" ++ name ++ tail in
  name ≠ [] → Forall (λ c, notSlashSpace c = true) name →
  tail = [] ∨ (∃ t, tail = py "/" ++ t ∧ Forall (λ c, c ≠ newline) t) →
  reMatch listURL url = false ∧ reMatch userURL url = true.
Proof.
  intros url Hne Hname Htail. subst url. split.
  - unfold reMatch, matchAt, listURL. cbn [RCat matchK].
    rewrite Nat.eqb_refl. reflexivity.
  - unfold reMatch, matchAt, userURL, RPlus, RStar. cbn [RCat matchK].
    rewrite Nat.eqb_refl. rewrite startswith_app, drop_length_app.
    match goal with
    | |- match rep notSlashSpace true 1 None ?k _ with _ => _ end = true =>
        destruct (rep_some notSlashSpace true k name tail 1%nat) as [r ->];
        [done | destruct name; [done | simpl; lia] | | done]
    end.
    destruct Htail as [-> | (t & -> & Ht)]; [simpl; eauto|].
    rewrite startswith_app, drop_length_app.
    match goal with
    | |- is_Some (orElse (rep anyChar true 0 None ?k t) _) =>
        destruct (rep_some anyChar true k t [] O) as [r Hr];
        [by apply anyChar_no_newline | simpl; lia | simpl; eauto|];
        rewrite app_nil_r in Hr; rewrite Hr; simpl; eauto
    end.
Qed.

Lemma take_whole (x : str) : take (length x - length (@nil ascii)) x = x.
Proof. simpl. rewrite Nat.sub_0_r. apply firstn_all. Qed.

Lemma userTail_match N (name tail : str) :
  name ≠ [] → Forall (λ c, notSlashSpace c = true) name →
  tail = [] ∨ (∃ t, tail = py "/" ++ t ∧ Forall (λ c, c ≠ newline) t) →
  ∃ cs, matchAt N userTail (py ".com/usuario/" ++ name ++ tail) = Some ([], cs)
        ∧ group 1 cs = name.
Proof.
  intros Hne Hname Htail.
  unfold matchAt, userTail, RPlus, RStar. cbn [RCat matchK].
  rewrite startswith_app, drop_length_app.
  assert (Hns : Forall (λ c, notSlash c = true) name).
  { eapply Forall_impl; [exact Hname|]. apply notSlashSpace_notSlash. }
  destruct Htail as [-> | (t & -> & Ht)].
  - exists [(1%nat, name)]. split; [|done].
    erewrite rep_greedy_all; [reflexivity | done
                              | destruct name; [done | simpl; lia] | done|].
    by rewrite take_group.
  - exists [(2%nat, py "/" ++ t); (1%nat, name)]. split; [|done].
    erewrite rep_greedy_all; [reflexivity | done
                              | destruct name; [done | simpl; lia] | done|].
    rewrite take_group, startswith_app, drop_length_app. cbn [matchK].
    rewrite <- (app_nil_r t) at 1.
    erewrite rep_greedy_all; [reflexivity | by apply anyChar_no_newline
                              | simpl; lia | done|].
    cbv beta iota. by rewrite take_whole.
Qed.

Lemma userBase_match (name : str) :
  let url := py "https://filmow.com/usuario/" ++ name ++ py "/" in
  name ≠ [] → Forall (λ c, notSlashSpace c = true) name →
  matchAt (length url) userBase url = Some ([], [(1%nat, name)]).
Proof.
  intros url Hne Hname. subst url.
  unfold matchAt, userBase, RPlus. cbn [RCat matchK]. rewrite Nat.eqb_refl.
  rewrite startswith_app, drop_length_app.
  erewrite rep_greedy_all; [reflexivity | done
                            | destruct name; [done | simpl; lia] | done|].
  by rewrite take_group.
Qed.

Lemma userTail_before N (v : str) (i : nat) :
  (i < 14)%nat →
  matchAt N userTail (drop i (py "https://filmow" ++ chr "." :: v)) = None.
Proof.
  intros Hi. do 14 (destruct i as [|i]; [reflexivity|]). lia.
Qed.

Lemma classify_user_url (name tail : str) :
  name ≠ [] → Forall (λ c, notSlashSpace c = true) name →
  tail = [] ∨ (∃ t, tail = py "/" ++ t ∧ Forall (λ c, c ≠ newline) t) →
  classify (py "https://filmow.com/usuario/" ++ name ++ tail)
  = Some (true, py "https://filmow.com/usuario/" ++ name ++ py "/", name).
Proof.
  intros Hne Hname Htail. unfold classify.
  destruct (userURL_match name tail Hne Hname Htail) as [-> ->].
  assert (Hbase : reSub userTail
                    [TText (py ".com/usuario/"); TGroup 1; TText (py "/")]
                    (py "https://filmow.com/usuario/" ++ name ++ tail)
                  = py "https://filmow.com/usuario/" ++ name ++ py "/").
  { unfold reSub.
    set (N := length (py "https://filmow.com/usuario/" ++ name ++ tail)).
    change (py "https://filmow.com/usuario/" ++ name ++ tail)
      with (py "https://filmow" ++ py ".com/usuario/" ++ name ++ tail).
    rewrite subWalk_prefix.
    - destruct (userTail_match N name tail Hne Hname Htail) as (cs & Hm & Hg).
      rewrite (subWalk_whole _ _ _ _ cs); [|done | exact Hm | done].
      unfold expand. simpl. by rewrite Hg.
    - intros i Hi. by apply userTail_before. }
  rewrite Hbase. unfold reSub.
  rewrite (subWalk_whole _ _ _ _ [(1%nat, name)]);
    [|done | by apply userBase_match | done].
  unfold expand. simpl. by rewrite app_nil_r.
Qed.

(** X14.  A url of a user, with or without scheme and [www.] and whatever path
    follows the user name, is taken as a user: the base url is the url of
    the user in its [https://filmow.com/usuario/] form and the name is the
    path segment after [usuario/], in the case it was given. *)
Theorem parseTarget_user_url (w : world) (pre name tail : str) :
  pre ∈ sitePrefixes →
  name ≠ [] → Forall (λ c, notSlashSpace c = true) name →
  tail = []
  ∨ (∃ t, tail = py "/" ++ t ∧ Forall (λ c, c ≠ newline) t
          ∧ ∀ c, last t = Some c → isspace c = false) →
  (parseTarget w (pre ++ py "filmow.com/usuario/" ++ name ++ tail)).2
  = inl (Some (true, py "https://filmow.com/usuario/" ++ name ++ py "/", name)).
Proof.
  intros Hpre Hne Hname Htail. rewrite parseTarget_value.
  change (py "filmow.com/usuario/" ++ name ++ tail)
    with (py "filmow" ++ py ".com/usuario/" ++ name ++ tail).
  rewrite normalise_site; [f_equal; apply classify_user_url; try done | done|].
  - destruct Htail as [-> | (t & -> & Ht & _)]; [by left | right; eauto].
  - intros c Hc. change (py "w" ++ py ".com/usuario/" ++ name ++ tail)
      with (py "w.com/usuario/" ++ name ++ tail) in Hc.
    assert (Hname_last : ∀ c', last name = Some c' → isspace c' = false).
    { intros c' El. apply notSlashSpace_not_space.
      rewrite Forall_forall in Hname. apply Hname.
      apply last_Some in El as [l' ->]. apply elem_of_app. right. left. }
    rewrite !last_app in Hc.
    destruct Htail as [-> | (t & -> & Ht & Hlast)].
    + simpl in Hc. destruct (last name) as [c'|] eqn:El; [|by apply last_None in El].
      injection Hc as <-. by apply Hname_last.
    + rewrite last_app in Hc. destruct (last t) as [c'|] eqn:El.
      * injection Hc as <-. by apply Hlast.
      * simpl in Hc. by injection Hc as <-.
Qed.

Lemma parseTarget_user_url_witness :
  (parseTarget offline (py "http://filmow.com/usuario/Ana/filmes/ja-vi/")).2
  = inl (Some (true, py "https://filmow.com/usuario/Ana/", py "Ana")).
Proof.
  refine (parseTarget_user_url offline (py "http://") (py "Ana")
            (py "/filmes/ja-vi/") _ _ _ _).
  - unfold sitePrefixes. set_solver.
  - discriminate.
  - repeat constructor.
  - right. exists (py "filmes/ja-vi/"). split; [done|]. split.
    + repeat constructor; discriminate.
    + by intros c [= <-].
Defined.

(** * The lines of a local list file *)

Lemma startswith_app_eq (x u w : str) :
  startswith x (u ++ w)
  = startswith x u && startswith (drop (length u) x) w.
Proof.
  revert x. induction u as [|a u IH]; intros x; simpl.
  - by rewrite startswith_nil.
  - destruct x as [|b x]; [done|]. simpl. rewrite IH. by rewrite andb_assoc.
Qed.

Lemma filmowLine_prefixes (e : str) :
  reMatch filmowLine e
  = existsb (λ pre, startswith e (pre ++ py "filmow")) linePrefixes.
Proof.
  unfold reMatch, matchAt, filmowLine, linePrefixes.
  cbn [RCat matchK existsb]. rewrite Nat.eqb_refl.
  change (py "http://") with (py "http" ++ py "://").
  change (py "https://") with (py "http" ++ py "s" ++ py "://").
  change (py "http://www.") with (py "http" ++ py "://" ++ py "www.").
  change (py "https://www.")
    with (py "http" ++ py "s" ++ py "://" ++ py "www.").
  rewrite <- !app_assoc, !startswith_app_eq.
  repeat match goal with
         | |- context [startswith ?a ?b] => destruct (startswith a b)
         end; reflexivity.
Qed.

Lemma filmowLine_shape (e : str) :
  reMatch filmowLine e = true
  ↔ ∃ pre rest, pre ∈ linePrefixes ∧ e = pre ++ py "filmow" ++ rest.
Proof.
  rewrite filmowLine_prefixes, existsb_exists. split.
  - intros (pre & Hin%list_elem_of_In & Hs). apply startswith_inv in Hs.
    exists pre, (drop (length (pre ++ py "filmow")) e).
    split; [done|]. by rewrite app_assoc.
  - intros (pre & rest & Hin & ->). exists pre.
    split; [by apply list_elem_of_In|]. rewrite app_assoc.
    apply startswith_app.
Qed.

(** X15.  The entries read from a local list file are its lines that begin with
    [http://] or [https://], an optional [www.] and [filmow], in the order
    of the file and with empty rating and type; every other line is
    dropped, also a url of the site without a scheme or with white space
    before it. *)
Theorem fileEntries_lines (lines : list str) :
  fileEntries lines
  = map (λ e, (e, [], []))
        (List.filter (λ e, existsb (λ pre, startswith e (pre ++ py "filmow"))
                                   linePrefixes) lines)
  ∧ ∀ e, e ∈ fileEntries lines
         ↔ ∃ pre rest, e = (pre ++ py "filmow" ++ rest, [], [])
                       ∧ pre ∈ linePrefixes
                       ∧ pre ++ py "filmow" ++ rest ∈ lines.
Proof.
  unfold fileEntries. split.
  - f_equal. induction lines as [|l lines IH]; simpl; [done|].
    by rewrite filmowLine_prefixes, IH.
  - intros e. rewrite list_elem_of_In, in_map_iff. split.
    + intros (l & <- & [Hl Hm]%filter_In).
      apply filmowLine_shape in Hm as (pre & rest & Hpre & ->).
      exists pre, rest. split; [done|]. split; [done|].
      by apply list_elem_of_In.
    + intros (pre & rest & -> & Hpre & Hl). exists (pre ++ py "filmow" ++ rest).
      split; [done|]. apply filter_In. split; [by apply list_elem_of_In|].
      apply filmowLine_shape. eauto.
Qed.


Lemma fileEntries_lines_witness :
  (py "http://www.filmow.com/matrix-t1234/", [], [])
  ∈ fileEntries [py "www.filmow.com/a/"; py "http://www.filmow.com/matrix-t1234/"].
Proof.
  apply (proj2 (fileEntries_lines _)).
  exists (py "http://www."), (py ".com/matrix-t1234/").
  split; [done|]. unfold linePrefixes. split; set_solver.
Defined.

(** * The scan of the pages of a collection *)

Lemma mapM_ext_Ok {A B} (f : A → result B) (g : A → B) (l : list A) :
  (∀ a, a ∈ l → f a = Ok (g a)) → mapM f l = Ok (map g l).
Proof.
  induction l as [|a l IH]; intros H; simpl; [done|].
  rewrite H by left. simpl. rewrite IH; [done|].
  intros b Hb. apply H. by right.
Qed.

Lemma pairUp_zip (urls ratings : list str) (t : str) :
  ratings ≠ [] → (length urls ≤ length ratings)%nat →
  pairUp urls ratings t
  = Ok (zip_with (λ url rating, (url, rating, t)) urls ratings).
Proof.
  intros Hne Hlen. unfold pairUp. destruct ratings as [|r0 rs] eqn:E; [done|].
  rewrite <- E in *. clear E r0 rs Hne.
  rewrite (mapM_ext_Ok _ (λ i, (default [] (urls !! i),
                                default [] (ratings !! i), t))).
  - f_equal. apply list_eq. intros i.
    rewrite list_lookup_fmap, lookup_zip_with.
    destruct (decide (i < length urls)%nat) as [Hi|Hi].
    + rewrite lookup_seq_lt by done. simpl.
      destruct (lookup_lt_is_Some_2 urls i Hi) as [u ->].
      destruct (lookup_lt_is_Some_2 ratings i ltac:(lia)) as [r ->]. done.
    + rewrite lookup_seq_ge by lia. simpl.
      by rewrite (proj2 (lookup_ge_None urls i)) by lia.
  - intros i [_ Hi]%elem_of_seq. simpl in Hi.
    destruct (lookup_lt_is_Some_2 urls i Hi) as [u ->].
    destruct (lookup_lt_is_Some_2 ratings i ltac:(lia)) as [r ->]. done.
Qed.

Lemma pairUp_short (urls ratings : list str) (t : str) :
  ratings ≠ [] → (length ratings < length urls)%nat →
  pairUp urls ratings t = Raise IndexError.
Proof.
  intros Hne Hlen. unfold pairUp. destruct ratings as [|r0 rs] eqn:E; [done|].
  rewrite <- E in *. clear E r0 rs Hne.
  apply mapM_Raise.
  - intros i e. destruct (urls !! i), (ratings !! i); try done;
      by intros [= <-].
  - exists (length ratings), IndexError. split.
    + apply elem_of_seq. lia.
    + rewrite (proj2 (lookup_ge_None ratings (length ratings))) by lia.
      by destruct (urls !! length ratings).
Qed.

(** X16.  With no rating at all every entry gets the empty rating; otherwise the
    urls and the ratings are paired by position, and the pairing raises
    [IndexError] when there are ratings, but fewer than urls. *)
Theorem pairUp_positional (urls ratings : list str) (t : str) :
  (ratings = [] → pairUp urls ratings t = Ok (map (λ url, (url, [], t)) urls))
  ∧ (ratings ≠ [] → (length urls ≤ length ratings)%nat →
     pairUp urls ratings t
     = Ok (zip_with (λ url rating, (url, rating, t)) urls ratings))
  ∧ (ratings ≠ [] → (length ratings < length urls)%nat →
     pairUp urls ratings t = Raise IndexError).
Proof.
  split; [by intros ->|]. split; [apply pairUp_zip | apply pairUp_short].
Qed.

Lemma pairUp_positional_witness :
  pairUp [py "a"; py "b"] [py "4.0"] (py "film") = Raise IndexError.
Proof.
  apply (proj2 (proj2 (pairUp_positional [py "a"; py "b"] [py "4.0"] (py "film")))).
  - discriminate.
  - simpl. lia.
Defined.

Lemma leadingSlash_anchored N (y : str) :
  (length y < N)%nat → matchAt N leadingSlash y = None.
Proof.
  intros Hlen. unfold matchAt, leadingSlash. cbn [RCat matchK].
  by replace (length y =? N)%nat with false by (symmetry; apply Nat.eqb_neq; lia).
Qed.

Lemma leadingSlash_sub (u : str) :
  reSub leadingSlash [TText (py "https://filmow.com/")] u
  = if startswith u (py "/") then py "https://filmow.com/" ++ drop 1 u else u.
Proof.
  unfold reSub. destruct u as [|c v]; [done|].
  change (py "/") with [chr "/"]. rewrite startswith_cons, startswith_nil, andb_true_r.
  assert (Hrest : subWalk (length (c :: v)) leadingSlash
                    [TText (py "https://filmow.com/")] 0 v = v).
  { apply subWalk_anchored; [simpl; lia|].
    intros y Hy. by apply leadingSlash_anchored. }
  destruct (eqc (chr "/") c) eqn:Ec.
  - apply eqc_true in Ec. subst c.
    rewrite (subWalk_head _ _ _ [chr "/"] v []); [|done|].
    + by rewrite Hrest.
    + unfold matchAt, leadingSlash. cbn [RCat matchK].
      rewrite Nat.eqb_refl. simpl. by rewrite startswith_nil.
  - cbn [subWalk].
    assert (Hm : matchAt (length (c :: v)) leadingSlash (c :: v) = None).
    { unfold matchAt, leadingSlash. cbn [RCat matchK]. rewrite Nat.eqb_refl.
      change (py "/") with [chr "/"]. rewrite startswith_cons. by rewrite Ec. }
    by rewrite Hm, Hrest.
Qed.

Lemma scanLoop_read lookup parse baseURL (pageNumbers : list Z) urls ratings
    urls' ratings' :
  scanLoop lookup parse baseURL pageNumbers urls ratings = Ok (urls', ratings') →
  ∃ read rest rss,
    let pageOf := λ i, parse (lookup (pageURL baseURL i)) in
    pageNumbers = read ++ rest
    ∧ Forall (λ i, lookup (pageURL baseURL i) ≠ []
                   ∧ movieLinks (pageOf i) ≠ []) read
    ∧ Forall2 (λ i rs, userRatings (ratingBars (pageOf i)) = Ok rs) read rss
    ∧ urls' = urls ++ concat (map (λ i, deduplicatedList (movieLinks (pageOf i)))
                                  read)
    ∧ ratings' = ratings ++ concat rss
    ∧ match rest with
      | [] => True
      | i :: _ =>
          lookup (pageURL baseURL i) = []
          ∨ movieLinks (pageOf i) = []
          ∨ (urls' ≠ [] ∧ last (movieLinks (pageOf i)) = last urls')
      end.
Proof.
  revert urls ratings.
  induction pageNumbers as [|i rest IH]; intros urls ratings; simpl.
  - intros [= <- <-]. exists [], [], []. cbv zeta.
    split_and!; [done | constructor | constructor | by rewrite app_nil_r
                 | by rewrite app_nil_r | done].
  - destruct (lookup (pageURL baseURL i)) as [|c page] eqn:Elook.
    { intros [= <- <-]. exists [], (i :: rest), []. cbv zeta.
      split_and!; [done | constructor | constructor | by rewrite app_nil_r
                   | by rewrite app_nil_r | by left]. }
    rewrite <- Elook.
    destruct (movieLinks (parse (lookup (pageURL baseURL i)))) as [|l ls] eqn:El.
    { simpl. intros [= <- <-]. exists [], (i :: rest), []. cbv zeta.
      split_and!; [done | constructor | constructor | by rewrite app_nil_r
                   | by rewrite app_nil_r | right; by left]. }
    rewrite <- El. cbn [orb].
    destruct (match urls with [] => false | _ => true end
              && bool_decide (last (movieLinks (parse (lookup (pageURL baseURL i))))
                              = last urls)) eqn:Estop.
    { intros [= <- <-]. exists [], (i :: rest), []. cbv zeta.
      apply andb_prop in Estop as [Hne Hlast%bool_decide_eq_true].
      split_and!; [done | constructor | constructor | by rewrite app_nil_r
                   | by rewrite app_nil_r |].
      right. right. split; [by destruct urls | done]. }
    destruct (userRatings (ratingBars (parse (lookup (pageURL baseURL i)))))
      as [rs|e] eqn:Er; [|done].
    simpl. intros Hrec.
    destruct (IH _ _ Hrec)
      as (read & rest' & rss & -> & Hgood & Hrs & -> & -> & Hstop).
    exists (i :: read), rest', (rs :: rss). cbv zeta.
    split_and!; [done | | by constructor | | | done].
    + constructor; [|done]. split; [by rewrite Elook | by rewrite El].
    + simpl. by rewrite <- app_assoc.
    + simpl. by rewrite <- app_assoc.
Qed.


Lemma mapM_absoluteURL (links : list (option str)) (urls : list str) :
  mapM absoluteURL links = Ok urls →
  Forall2 (λ link url,
             ∃ v, link = Some v
                  ∧ url = if startswith v (py "/")
                          then py "https://filmow.com/" ++ drop 1 v else v)
          links urls.
Proof.
  intros H%mapM_Ok_inv. eapply Forall2_impl; [exact H|].
  intros [v|] url; simpl; [|done]. intros [= <-]. exists v.
  by rewrite leadingSlash_sub.
Qed.

(** X17.  When the scan of a collection returns, it has read the pages 1, 2, ...
    up to the first page that is empty, holds no link or ends with the link
    collected last, and at most 9999 of them.  The urls of the entries are
    the links of the pages read, deduplicated within each page only, with a
    leading slash replaced by the address of the site; the ratings of all
    pages read are put in one list and paired with the urls by position. *)
Theorem scanCollection_pages (lookup : str → str) (parse : str → libPage)
    (baseURL t : str) (es : list entry) :
  scanCollection lookup parse baseURL t = Ok es →
  ∃ read rest rss urls,
    let pageOf := λ i, parse (lookup (pageURL baseURL i)) in
    let links := concat (map (λ i, deduplicatedList (movieLinks (pageOf i)))
                             read) in
    range 1 10000 1 = read ++ rest
    ∧ Z.of_nat (length read) ≤ 9999
    ∧ Forall (λ i, lookup (pageURL baseURL i) ≠ []
                   ∧ movieLinks (pageOf i) ≠ []) read
    ∧ match rest with
      | [] => True
      | i :: _ =>
          lookup (pageURL baseURL i) = []
          ∨ movieLinks (pageOf i) = []
          ∨ (links ≠ [] ∧ last (movieLinks (pageOf i)) = last links)
      end
    ∧ Forall2 (λ i rs, userRatings (ratingBars (pageOf i)) = Ok rs) read rss
    ∧ Forall2 (λ link url,
                 ∃ v, link = Some v
                      ∧ url = if startswith v (py "/")
                              then py "https://filmow.com/" ++ drop 1 v else v)
              links urls
    ∧ pairUp urls (concat rss) t = Ok es.
Proof.
  unfold scanCollection. intros H.
  destruct (scanLoop lookup parse baseURL (range 1 10000 1) [] [])
    as [[urls0 ratings]|e] eqn:Eloop; [|done].
  simpl in H.
  destruct (mapM absoluteURL urls0) as [urls|e] eqn:Eabs; [|done].
  simpl in H.
  destruct (scanLoop_read _ _ _ _ _ _ _ _ Eloop)
    as (read & rest & rss & Hsplit & Hgood & Hrs & Hurls & Hratings & Hstop).
  simpl in Hurls, Hratings. subst urls0 ratings.
  exists read, rest, rss, urls. cbv zeta.
  split_and!; try done.
  - apply (f_equal length) in Hsplit.
    rewrite range_length, length_app in Hsplit by lia.
    change ((10000 - 1 + 1 - 1) / 1) with 9999 in Hsplit. lia.
  - by apply mapM_absoluteURL.
Qed.

Lemma scanCollection_pages_witness :
  ∃ read rest rss urls,
    let pageOf := λ i, twoPages (twoPagesLookup (pageURL (py "u") i)) in
    let links := concat (map (λ i, deduplicatedList (movieLinks (pageOf i)))
                             read) in
    range 1 10000 1 = read ++ rest
    ∧ Z.of_nat (length read) ≤ 9999
    ∧ Forall (λ i, twoPagesLookup (pageURL (py "u") i) ≠ []
                   ∧ movieLinks (pageOf i) ≠ []) read
    ∧ match rest with
      | [] => True
      | i :: _ =>
          twoPagesLookup (pageURL (py "u") i) = []
          ∨ movieLinks (pageOf i) = []
          ∨ (links ≠ [] ∧ last (movieLinks (pageOf i)) = last links)
      end
    ∧ Forall2 (λ i rs, userRatings (ratingBars (pageOf i)) = Ok rs) read rss
    ∧ Forall2 (λ link url,
                 ∃ v, link = Some v
                      ∧ url = if startswith v (py "/")
                              then py "https://filmow.com/" ++ drop 1 v else v)
              links urls
    ∧ pairUp urls (concat rss) (py "film")
      = Ok [(py "https://filmow.com/a-t1/", py "4.0", py "film");
            (py "https://filmow.com/b-t2/", py "3.0", py "film");
            (py "https://filmow.com/c-t3/", py "5.0", py "film")].
Proof.
  apply (scanCollection_pages twoPagesLookup twoPages (py "u") (py "film")).
  by vm_compute.
Defined.

(** * The number of pages and the page prefetch *)

Lemma split_no_sep sep (d : str) : sep ∉ d → split sep d = [d].
Proof.
  induction d as [|c d IH]; intros Hd; simpl; [done|].
  apply not_elem_of_cons in Hd as [Hc Hd].
  destruct (eqc c sep) eqn:E; [by apply eqc_true in E; subst|].
  by rewrite IH.
Qed.

Lemma split_nonempty sep (x : str) : split sep x ≠ [].
Proof.
  induction x as [|c x IH]; simpl; [done|].
  destruct (eqc c sep); [done|]. by destruct (split sep x).
Qed.

Lemma lastItem_cons p (ps : list str) :
  ps ≠ [] → lastItem (p :: ps) = lastItem ps.
Proof. by destruct ps. Qed.

Lemma lastItem_split_app sep (a b : str) :
  lastItem (split sep (a ++ sep :: b)) = lastItem (split sep b).
Proof.
  induction a as [|c a IH]; simpl.
  - rewrite eqc_refl. apply lastItem_cons, split_nonempty.
  - destruct (eqc c sep).
    + rewrite lastItem_cons by apply split_nonempty. exact IH.
    + pose proof (split_nonempty sep (a ++ sep :: b)) as Hne.
      destruct (split sep (a ++ sep :: b)) as [|p ps] eqn:E; [done|].
      destruct ps as [|q ps]; [|exact IH].
      exfalso. clear IH Hne.
      assert (Hlen : ∀ y, (2 ≤ length (split sep (y ++ sep :: b)))%nat).
      { clear. intros y. induction y as [|c y IH]; simpl.
        - rewrite eqc_refl. simpl.
          pose proof (split_nonempty sep b). destruct (split sep b); [done|].
          simpl. lia.
        - destruct (eqc c sep); simpl.
          + lia.
          + destruct (split sep (y ++ sep :: b)) as [|p ps]; simpl in *; lia. }
      specialize (Hlen a). rewrite E in Hlen. simpl in Hlen. lia.
Qed.

Lemma pageNumber_digits (pre d : str) :
  d ≠ [] → Forall (λ c, isdigit c = true) d →
  pageNumber (pre ++ py "=" ++ d) = Ok (decimal d).
Proof.
  intros Hne Hd. unfold pageNumber.
  rewrite lastItem_rsplit1. change (py "=" ++ d) with (chr "=" :: d).
  rewrite lastItem_split_app, split_no_sep.
  - by apply int_digits.
  - intros Hin. rewrite Forall_forall in Hd. by specialize (Hd _ Hin).
Qed.

Lemma last_sorted_max (l : list Z) x y :
  StronglySorted Z.le l → x ∈ l → last l = Some y → x ≤ y.
Proof.
  intros Hs. revert x. induction Hs as [|a l Hs IH Ha]; intros x Hx Hl.
  - by apply elem_of_nil in Hx.
  - destruct l as [|b l].
    + apply list_elem_of_singleton in Hx. simpl in Hl. by simplify_eq.
    + change (last (a :: b :: l)) with (last (b :: l)) in Hl.
      apply elem_of_cons in Hx as [-> | Hx]; [|by apply IH].
      rewrite Forall_forall in Ha. apply Ha.
      apply last_Some in Hl as [l' ->]. apply elem_of_app. right. left.
Qed.

Lemma int_raises x e : int x = Raise e → e = ValueError.
Proof.
  unfold int. repeat case_match; try done; by intros [= <-].
Qed.

(** X18.  [libPageCount] gives 1 for a page without page links and otherwise the
    largest of the page numbers of the links, the number of a link being
    what follows its last [=]; it raises [ValueError] when that part of
    some link is not an integer. *)
Theorem libPageCount_largest (pageLinks : list str) :
  (pageLinks = [] → libPageCount pageLinks = Ok 1)
  ∧ (∀ n, pageLinks ≠ [] → libPageCount pageLinks = Ok n →
       (∃ href, href ∈ pageLinks ∧ pageNumber href = Ok n)
       ∧ ∀ href m, href ∈ pageLinks → pageNumber href = Ok m → m ≤ n)
  ∧ (∀ href e, href ∈ pageLinks → pageNumber href = Raise e →
       libPageCount pageLinks = Raise ValueError)
  ∧ (∀ pre d, d ≠ [] → Forall (λ c, isdigit c = true) d →
       pageNumber (pre ++ py "=" ++ d) = Ok (decimal d)).
Proof.
  split; [by intros ->|]. split; [|split; [|apply pageNumber_digits]].
  - intros n Hne. unfold libPageCount.
    destruct pageLinks as [|h0 hs] eqn:E; [done|]. rewrite <- E in *.
    clear E h0 hs.
    destruct (mapM pageNumber pageLinks) as [numbers|e] eqn:Em; [|done].
    simpl. intros [= Hn]. apply mapM_Ok_inv in Em.
    assert (Hperm : merge_sort Z.le numbers ≡ₚ numbers)
      by apply merge_sort_Permutation.
    assert (Hsorted : StronglySorted Z.le (merge_sort Z.le numbers)).
    { apply StronglySorted_merge_sort; apply _. }
    assert (Hnum : numbers ≠ []).
    { intros ->. apply Forall2_nil_inv_r in Em. done. }
    assert (Hlast : last (merge_sort Z.le numbers) = Some n).
    { destruct (merge_sort Z.le numbers) as [|a l] eqn:Es.
      - apply Permutation_nil_l in Hperm. by symmetry in Hperm.
      - rewrite <- Hn. clear. revert a.
        induction l as [|b l IH]; intros a; [done|]. apply (IH b). }
    split.
    + assert (Hin : n ∈ numbers).
      { rewrite <- Hperm. apply last_Some in Hlast as [l' ->].
        apply elem_of_app. right. left. }
      apply list_elem_of_lookup in Hin as [i Hi].
      destruct (Forall2_lookup_r _ _ _ _ _ Em Hi) as (href & Hh & Hp).
      exists href. split; [|done]. by apply list_elem_of_lookup_2 in Hh.
    + intros href m Hin Hm.
      apply list_elem_of_lookup in Hin as [i Hi].
      destruct (Forall2_lookup_l _ _ _ _ _ Em Hi) as (m' & Hm' & Hp).
      rewrite Hm in Hp. injection Hp as <-.
      apply (last_sorted_max (merge_sort Z.le numbers)); [done | | done].
      rewrite Hperm. by apply list_elem_of_lookup_2 in Hm'.
  - intros href e Hin Hraise. unfold libPageCount.
    destruct pageLinks as [|h0 hs] eqn:E; [by apply elem_of_nil in Hin|].
    rewrite <- E in *. clear E h0 hs.
    rewrite (mapM_Raise pageNumber pageLinks ValueError); [done | |].
    + intros a e'. apply int_raises.
    + eauto.
Qed.

Lemma libPageCount_largest_witness :
  (∃ href, href ∈ [py "?pagina=2"; py "?pagina=12"; py "?pagina=3"]
           ∧ pageNumber href = Ok 12)
  ∧ ∀ href m, href ∈ [py "?pagina=2"; py "?pagina=12"; py "?pagina=3"] →
              pageNumber href = Ok m → m ≤ 12.
Proof.
  apply (proj1 (proj2 (libPageCount_largest
                         [py "?pagina=2"; py "?pagina=12"; py "?pagina=3"]))).
  - discriminate.
  - by vm_compute.
Defined.


Lemma chunk_nonempty (urls : list str) (i workers : Z) :
  0 ≤ i < Z.of_nat (length urls) → 0 < workers → chunk urls i workers ≠ [].
Proof.
  intros Hi Hw E. apply (f_equal length) in E.
  rewrite chunk_length in E by lia. simpl in E.
  assert (1 ≤ (Z.of_nat (length urls) - i + workers - 1) / workers); [|lia].
  apply Z.div_le_lower_bound; lia.
Qed.

Lemma chunk_beyond (urls : list str) (i workers : Z) :
  Z.of_nat (length urls) ≤ i → 0 < workers → chunk urls i workers = [].
Proof.
  intros Hi Hw. apply length_zero_iff_nil. rewrite chunk_length by lia.
  assert ((Z.of_nat (length urls) - i + workers - 1) / workers ≤ 0); [|lia].
  apply Z.lt_succ_r, Z.div_lt_upper_bound; lia.
Qed.

(** X19.  The page prefetch of [entries] is started for more than one page only
    and with at most as many workers as pages, so each of its threads has
    a page to fetch (and there is no thread when the number of prefetcher
    threads is zero).  In general [prefetch] starts the workers it is told
    to: with more workers than urls the surplus threads get empty lists. *)
Theorem pagePrefetch_no_idle (baseURL : str) (totalPages n : Z) :
  (totalPages ≤ 1 → pagePrefetch baseURL totalPages n = [])
  ∧ (1 < totalPages →
     length (pagePrefetch baseURL totalPages n) = Z.to_nat (Z.min totalPages n)
     ∧ Forall (λ shard, shard ≠ []) (pagePrefetch baseURL totalPages n))
  ∧ (∀ (urls : list str) workers (i : nat),
       (length urls ≤ i)%nat → Z.of_nat i < workers →
       prefetch urls workers !! i = Some []).
Proof.
  unfold pagePrefetch. split; [|split].
  - intros H. by replace (1 <? totalPages) with false
      by (symmetry; apply Z.ltb_ge; lia).
  - intros H. replace (1 <? totalPages) with true
      by (symmetry; apply Z.ltb_lt; lia).
    split; [apply prefetch_length|].
    apply Forall_lookup. intros i shard Hi.
    assert (Hlt : (i < Z.to_nat (Z.min totalPages n))%nat).
    { apply lookup_lt_Some in Hi. by rewrite prefetch_length in Hi. }
    rewrite prefetch_lookup in Hi by done. injection Hi as <-.
    apply chunk_nonempty; [|lia].
    rewrite length_map, range_length by lia.
    replace ((totalPages + 1 - 1 + 1 - 1) / 1) with totalPages
      by (rewrite Z.div_1_r; lia).
    lia.
  - intros urls workers i Hi Hw.
    rewrite prefetch_lookup by lia. f_equal. apply chunk_beyond; lia.
Qed.

Lemma pagePrefetch_no_idle_witness :
  length (pagePrefetch (py "u") 3 15) = Z.to_nat (Z.min 3 15)
  ∧ Forall (λ shard, shard ≠ []) (pagePrefetch (py "u") 3 15).
Proof. apply (proj1 (proj2 (pagePrefetch_no_idle (py "u") 3 15))). lia. Defined.

(** * The running time *)

Lemma digit_is_word c : isdigit c = true → nonWord c = false.
Proof. by_cases c. Qed.

Lemma anyChar_end N cs (rest : str) :
  Forall (λ c, c ≠ newline) rest →
  matchK N (RSeq (RStar anyChar) REol) rest cs (λ x' cs', Some (x', cs'))
  = Some ([], cs).
Proof.
  intros Hnl. unfold RStar. cbn [matchK]. rewrite <- (app_nil_r rest) at 1.
  by erewrite rep_greedy_all;
    [| by apply anyChar_no_newline | simpl; lia | done | reflexivity].
Qed.

Lemma runtimeText_match N (w d rest : str) :
  Forall (λ c, nonWord c = true) w →
  d ≠ [] → Forall (λ c, isdigit c = true) d →
  match rest with [] => True | c :: _ => isdigit c = false end →
  Forall (λ c, c ≠ newline) rest →
  matchAt N runtimeText (w ++ d ++ rest)
  = if (length (w ++ d ++ rest) =? N)%nat then Some ([], [(1%nat, d)]) else None.
Proof.
  intros Hw Hne Hd Hrest Hnl.
  unfold matchAt, runtimeText, RStar, RPlus. cbn [RCat matchK].
  destruct (length (w ++ d ++ rest) =? N)%nat; [|done].
  erewrite rep_greedy_all; [reflexivity | done | simpl; lia | |].
  - destruct d as [|c d]; [done|]. apply Forall_cons in Hd as [Hc _].
    by apply digit_is_word.
  - erewrite rep_greedy_all; [reflexivity | done
                              | destruct d; [done | simpl; lia] | done|].
    rewrite take_group.
    pose proof (anyChar_end N [(1%nat, d)] rest Hnl) as Hm.
    unfold RStar in Hm. cbn [matchK] in Hm. exact Hm.
Qed.

Lemma runtimeText_no_match N (w v : str) :
  Forall (λ c, nonWord c = true) w →
  match v with [] => True | c :: _ => nonWord c = false ∧ isdigit c = false end →
  matchAt N runtimeText (w ++ v) = None.
Proof.
  intros Hw Hv. unfold matchAt, runtimeText, RStar, RPlus. cbn [RCat matchK].
  destruct (length (w ++ v) =? N)%nat; [|done].
  apply rep_none. intros u v' E Hu _.
  apply rep_none. intros u' v'' E' Hu' Hlen.
  destruct u' as [|c u']; [simpl in Hlen; lia|].
  apply Forall_cons in Hu' as [Hc _]. exfalso.
  assert (Hhead : ∀ (a b : str) x y,
            a ++ b = x ++ c :: y → Forall (λ c, nonWord c = true) a →
            Forall (λ c, nonWord c = true) x →
            match b with [] => True
                    | c' :: _ => nonWord c' = false ∧ isdigit c' = false end →
            False).
  { clear -Hc. intros a. induction a as [|a0 a IH]; intros b x y E Ha Hx Hb.
    - simpl in E. subst b. destruct x as [|x0 x]; simpl in Hb.
      + destruct Hb as [_ Hb]. congruence.
      + apply Forall_cons in Hx as [Hx0 _]. destruct Hb as [Hb _]. congruence.
    - apply Forall_cons in Ha as [Ha0 Ha].
      destruct x as [|x0 x]; simpl in E.
      + injection E as -> _. rewrite digit_is_word in Ha0 by done. done.
      + injection E as _ E. apply Forall_cons in Hx as [_ Hx].
        by apply (IH b x y). }
  subst v'. by apply (Hhead w v u (u' ++ v'')).
Qed.

Lemma runtimeText_anchored N (y : str) :
  (length y < N)%nat → matchAt N runtimeText y = None.
Proof.
  intros Hlen. unfold matchAt, runtimeText. cbn [RCat matchK].
  by replace (length y =? N)%nat with false by (symmetry; apply Nat.eqb_neq; lia).
Qed.

Lemma runtime_number (text : str) (more : list str) w d rest :
  strip text = w ++ d ++ rest →
  Forall (λ c, nonWord c = true) w →
  d ≠ [] → Forall (λ c, isdigit c = true) d →
  match rest with [] => True | c :: _ => isdigit c = false end →
  Forall (λ c, c ≠ newline) rest →
  runtime (text :: more) = d.
Proof.
  intros E Hw Hne Hd Hrest Hnl. unfold runtime, reSub. rewrite E.
  rewrite (subWalk_whole _ _ _ _ [(1%nat, d)]).
  - unfold expand. simpl. by rewrite app_nil_r.
  - destruct w; [|done]. by destruct d.
  - rewrite runtimeText_match by done. by rewrite Nat.eqb_refl.
  - apply runtimeText_anchored. rewrite !length_app.
    destruct d; [done | simpl; lia].
Qed.

Lemma runtime_unchanged (text : str) (more : list str) w v :
  strip text = w ++ v →
  Forall (λ c, nonWord c = true) w →
  match v with
  | [] => True
  | c :: _ => nonWord c = false ∧ isdigit c = false
  end →
  runtime (text :: more) = strip text.
Proof.
  intros E Hw Hv. unfold runtime, reSub. rewrite E.
  apply subWalk_none. intros i.
  destruct i as [|i]; [by apply runtimeText_no_match|].
  destruct (w ++ v) as [|c x] eqn:Ex; [done|].
  apply runtimeText_anchored. simpl. rewrite length_drop. lia.
Qed.

(** X20.  [runtime] gives the first number of the running time when only
    characters that are no word characters stand before it, and what
    follows holds no line break: [120] for [~120 minutos].  When the
    text, stripped, does not begin that way it is returned as it is. *)
Theorem runtime_leading_number (text : str) (more : list str) :
  (∀ w d rest,
     strip text = w ++ d ++ rest →
     Forall (λ c, nonWord c = true) w →
     d ≠ [] → Forall (λ c, isdigit c = true) d →
     match rest with [] => True | c :: _ => isdigit c = false end →
     Forall (λ c, c ≠ newline) rest →
     runtime (text :: more) = d)
  ∧ (∀ w v,
       strip text = w ++ v →
       Forall (λ c, nonWord c = true) w →
       match v with
       | [] => True
       | c :: _ => nonWord c = false ∧ isdigit c = false
       end →
       runtime (text :: more) = strip text)
  ∧ runtime [] = [].
Proof.
  split; [|split; [|done]].
  - intros w d rest. apply runtime_number.
  - intros w v. apply runtime_unchanged.
Qed.

Lemma runtime_leading_number_witness :
  runtime [py " ~120 minutos "] = py "120"
  ∧ runtime [py "N/A"] = strip (py "N/A").
Proof.
  split.
  - apply (proj1 (runtime_leading_number (py " ~120 minutos ") [])
             (py "~") (py "120") (py " minutos")).
    + reflexivity.
    + repeat constructor.
    + discriminate.
    + repeat constructor.
    + reflexivity.
    + repeat constructor; discriminate.
  - apply (proj1 (proj2 (runtime_leading_number (py "N/A") [])) [] (py "N/A")).
    + reflexivity.
    + constructor.
    + split; reflexivity.
Defined.


(** * The title type *)

Lemma titleType_first (skipped more : list str) (a runtime : str) :
  Forall (λ e, newline ∈ strip e) skipped →
  newline ∉ strip a →
  titleType (skipped ++ a :: more) runtime
  = let first := casefold (strip a) in
    if eqs first seriesTab then Ok (py "series")
    else if eqs first (py "tv") then Ok (py "series")
    else if eqs first (py "filmes") then
      match runtime with
      | [] => Ok (py "film")
      | _ => bind (int runtime)
                  (λ n, Ok (if n <? 45 then py "short" else py "film"))
      end
    else Ok [].
Proof.
  intros Hskip Ha. unfold titleType.
  induction Hskip as [|e skipped He _ IH]; simpl.
  - by rewrite bool_decide_eq_false_2.
  - by rewrite bool_decide_eq_true_2.
Qed.

Lemma titleType_none (active : list str) (runtime : str) :
  Forall (λ e, newline ∈ strip e) active → titleType active runtime = Ok [].
Proof.
  intros H. unfold titleType. induction H as [|e l He _ IH]; simpl; [done|].
  by rewrite bool_decide_eq_true_2.
Qed.

Lemma dropWhile_snoc p (y : str) c :
  p c = false → ∃ l, dropWhile p (y ++ [c]) = l ++ [c].
Proof.
  intros Hc. induction y as [|a y IH]; simpl.
  - rewrite Hc. by exists [].
  - destruct (p a); [done|]. by exists (a :: y).
Qed.

Lemma strip_head c (x : str) :
  isspace c = false → ∃ x', strip (c :: x) = c :: x'.
Proof.
  intros Hc. unfold strip. cbn [dropWhile]. rewrite Hc. cbn [rev].
  destruct (dropWhile_snoc isspace (rev x) c Hc) as [l ->].
  exists (rev l). by rewrite rev_app_distr.
Qed.

Lemma word_not_space c : isword c = true → isspace c = false.
Proof. by_cases c. Qed.

Lemma word_not_sign c :
  isword c = true → eqc c (chr "-") = false ∧ eqc c (chr "+") = false.
Proof. by_cases c. Qed.

Lemma int_no_number c (x : str) :
  isword c = true → isdigit c = false → int (c :: x) = Raise ValueError.
Proof.
  intros Hw Hd. unfold int.
  destruct (strip_head c x (word_not_space c Hw)) as [x' ->].
  destruct (word_not_sign c Hw) as [-> ->]. simpl.
  by rewrite Hd, andb_false_r.
Qed.


Lemma titleType_film_runtime (skipped more more' : list str) (a text : str) :
  Forall (λ e, newline ∈ strip e) skipped →
  newline ∉ strip a →
  casefold (strip a) = py "filmes" →
  (∀ w d rest,
     strip text = w ++ d ++ rest →
     Forall (λ c, nonWord c = true) w →
     d ≠ [] → Forall (λ c, isdigit c = true) d →
     match rest with [] => True | c :: _ => isdigit c = false end →
     Forall (λ c, c ≠ newline) rest →
     titleType (skipped ++ a :: more) (runtime (text :: more'))
     = Ok (if decimal d <? 45 then py "short" else py "film"))
  ∧ (∀ c v,
       strip text = c :: v → isword c = true → isdigit c = false →
       titleType (skipped ++ a :: more) (runtime (text :: more'))
       = Raise ValueError)
  ∧ titleType (skipped ++ a :: more) (runtime []) = Ok (py "film").
Proof.
  intros Hskip Ha Hfold.
  assert (Hfilm : ∀ r,
            titleType (skipped ++ a :: more) r
            = match r with
              | [] => Ok (py "film")
              | _ => bind (int r)
                          (λ n, Ok (if n <? 45 then py "short" else py "film"))
              end).
  { intros r. rewrite titleType_first by done. cbv zeta. by rewrite Hfold. }
  split; [|split].
  - intros w d rest E Hw Hne Hd Hrest Hnl.
    rewrite (runtime_number text more' w d rest) by done.
    rewrite Hfilm. rewrite int_digits by done. by destruct d.
  - intros c v E Hw Hd.
    rewrite (runtime_unchanged text more' [] (c :: v)); [|done | constructor|].
    + rewrite Hfilm, E. by rewrite int_no_number.
    + unfold nonWord. by rewrite Hw.
  - by rewrite Hfilm.
Qed.

(** X21.  The title type is read from the first [li] of class [active] whose
    stripped text holds no line break, whatever its letter case: [series]
    for [séries] and [tv], nothing for any other name but [filmes], and
    nothing when there is no such element.  For [filmes] it depends on the
    running time read from the same page: [film] without one, [short] when
    its leading number is below 45 and [film] otherwise, and [ValueError]
    when the running time begins with a word character that is no digit:
    [runtime] then returns the text unchanged and [int] rejects it. *)
Theorem titleType_cases (skipped more more' : list str) (a text : str) :
  Forall (λ e, newline ∈ strip e) skipped →
  newline ∉ strip a →
  (casefold (strip a) = seriesTab ∨ casefold (strip a) = py "tv" →
   ∀ r, titleType (skipped ++ a :: more) r = Ok (py "series"))
  ∧ (casefold (strip a) ≠ seriesTab → casefold (strip a) ≠ py "tv" →
     casefold (strip a) ≠ py "filmes" →
     ∀ r, titleType (skipped ++ a :: more) r = Ok [])
  ∧ (∀ r, titleType skipped r = Ok [])
  ∧ (casefold (strip a) = py "filmes" →
     (∀ w d rest,
        strip text = w ++ d ++ rest →
        Forall (λ c, nonWord c = true) w →
        d ≠ [] → Forall (λ c, isdigit c = true) d →
        match rest with [] => True | c :: _ => isdigit c = false end →
        Forall (λ c, c ≠ newline) rest →
        titleType (skipped ++ a :: more) (runtime (text :: more'))
        = Ok (if decimal d <? 45 then py "short" else py "film"))
     ∧ (∀ c v,
          strip text = c :: v → isword c = true → isdigit c = false →
          titleType (skipped ++ a :: more) (runtime (text :: more'))
          = Raise ValueError)
     ∧ titleType (skipped ++ a :: more) (runtime []) = Ok (py "film")).
Proof.
  intros Hskip Ha. split; [|split; [|split]].
  - intros Hs r. rewrite titleType_first by done. cbv zeta.
    destruct Hs as [-> | ->]; done.
  - intros H1 H2 H3 r. rewrite titleType_first by done. cbv zeta.
    unfold eqs. by rewrite !bool_decide_eq_false_2.
  - intros r. by apply titleType_none.
  - intros Hfold. by apply titleType_film_runtime.
Qed.

Lemma titleType_cases_witness :
  titleType ([py "a" ++ [newline] ++ py "b"] ++ py " FILMES " :: [])
            (runtime [py "44 min"])
  = Ok (if decimal (py "44") <? 45 then py "short" else py "film")
  ∧ titleType ([py "a" ++ [newline] ++ py "b"] ++ py " FILMES " :: [])
              (runtime [py "N/A"])
    = Raise ValueError.
Proof.
  assert (Hskip : Forall (λ e, newline ∈ strip e) [py "a" ++ [newline] ++ py "b"]).
  { constructor; [|constructor]. vm_compute. set_solver. }
  assert (Ha : newline ∉ strip (py " FILMES ")).
  { vm_compute. set_solver. }
  destruct (proj2 (proj2 (proj2
              (titleType_cases [py "a" ++ [newline] ++ py "b"] [] []
                 (py " FILMES ") (py "44 min") Hskip Ha))) eq_refl)
    as (H1 & _ & _).
  destruct (proj2 (proj2 (proj2
              (titleType_cases [py "a" ++ [newline] ++ py "b"] [] []
                 (py " FILMES ") (py "N/A") Hskip Ha))) eq_refl)
    as (_ & H2 & _).
  split.
  - apply (H1 [] (py "44") (py " min")); try done.
    + repeat constructor.
    + repeat constructor; discriminate.
  - by apply (H2 (chr "N") (py "/A")).
Defined.

(** * The year *)

Lemma subWalk_class N p (x : str) :
  subWalk N (RClass p) [] 0 x = List.filter (λ c, negb (p c)) x.
Proof.
  induction x as [|c x IH]; [done|].
  cbn [subWalk List.filter]. unfold matchAt. cbn [matchK].
  destruct (p c); simpl.
  - replace (S (length x) - length x)%nat with 1%nat by lia. exact IH.
  - by rewrite IH.
Qed.

Lemma rep_inv_bounded {R} p greedy lo (h : nat) (k : str → option R)
    (x : str) r :
  rep p greedy lo (Some h) k x = Some r →
  ∃ u v, x = u ++ v ∧ Forall (λ c, p c = true) u
         ∧ (lo ≤ length u ≤ h)%nat ∧ k v = Some r.
Proof.
  revert lo h. induction x as [|c x IH]; intros lo h.
  - simpl. destruct lo; [|by destruct greedy].
    intros H. exists [], []. split_and!; [done | constructor | simpl; lia
                                          | simpl; lia|].
    by destruct greedy, (k []).
  - cbn [rep]. intros H.
    assert (Hcases :
      match lo with O => k (c :: x) | S _ => None end = Some r
      ∨ (p c = true
         ∧ ∃ h', h = S h' ∧ rep p greedy (Nat.pred lo) (Some h') k x = Some r)).
    { destruct (p c) eqn:Hc.
      - destruct h as [|h'].
        + left. destruct greedy; simpl in H; [done|].
          by destruct (match lo with O => k (c :: x) | S _ => None end).
        + destruct greedy; simpl in H.
          * destruct (rep p true (Nat.pred lo) (Some h') k x) eqn:E;
              simpl in H; [right | by left].
            split; [done|]. exists h'. by rewrite <- H.
          * destruct (match lo with O => k (c :: x) | S _ => None end);
              simpl in H; [by left | right].
            split; [done|]. by exists h'.
      - left. destruct greedy; simpl in H; [done|].
        by destruct (match lo with O => k (c :: x) | S _ => None end). }
    destruct Hcases as [Hstop|(Hc & h' & -> & Hmore)].
    + destruct lo; [|done]. exists [], (c :: x).
      split_and!; [done | constructor | simpl; lia | simpl; lia | done].
    + destruct (IH _ _ Hmore) as (u & v & -> & Hu & Hlen & Hv).
      exists (c :: u), v.
      split_and!; [done | by constructor | simpl; lia | simpl; lia | done].
Qed.

Lemma rep_exact {R} p (k : str → option R) (y rest : str) :
  Forall (λ c, p c = true) y →
  rep p true (length y) (Some (length y)) k (y ++ rest) = k rest.
Proof.
  intros Hy. induction Hy as [|c y Hc Hy IH]; simpl.
  - destruct rest as [|c rest]; simpl; [done|]. by destruct (p c).
  - rewrite Hc, IH. by destruct (k rest).
Qed.

Lemma isword_not_newline c : isword c = true → c ≠ newline.
Proof. by intros H ->. Qed.

Lemma finalYear_match N (pre y : str) :
  Forall (λ c, c ≠ newline) pre →
  length y = 4%nat → Forall (λ c, isdigit c = true) y →
  matchAt N finalYear (pre ++ y) = Some ([], [(1%nat, y)]).
Proof.
  intros Hpre Hlen Hy. unfold matchAt, finalYear, RStar. cbn [RCat matchK].
  assert (E : ∀ R (k' : str → option R),
            rep isdigit true 4 (Some 4%nat) k' y = k' []).
  { intros R k'. rewrite <- Hlen.
    pose proof (rep_exact isdigit k' y [] Hy) as H.
    by rewrite app_nil_r in H. }
  apply rep_star_greedy; [by apply anyChar_no_newline | |].
  - cbv beta. rewrite E. by rewrite take_whole.
  - intros u' v' -> Hne _. apply rep_none. intros u v Ev Hu Hlo.
    apply (f_equal length) in Ev. rewrite !length_app in *.
    destruct u'; [done|]. simpl in *. lia.
Qed.

Lemma finalYear_no_match N (x : str) :
  Forall (λ c, c ≠ newline) x →
  (¬ ∃ pre y, x = pre ++ y ∧ length y = 4%nat
              ∧ Forall (λ c, isdigit c = true) y) →
  matchAt N finalYear x = None.
Proof.
  intros Hnl Hshape. unfold matchAt, finalYear, RStar. cbn [RCat matchK].
  apply rep_none. intros u v -> _ _.
  match goal with
  | |- ?m = None => destruct m as [[rest cs]|] eqn:E; [exfalso|done]
  end.
  apply rep_inv_bounded in E as (y & e & -> & Hy & Hlen & He).
  assert (e = []) as ->.
  { destruct e as [|c [|c' e]]; [done| |done].
    destruct (eqc c newline) eqn:Ec; [|done]. apply eqc_true in Ec. subst c.
    exfalso. rewrite Forall_forall in Hnl. apply (Hnl newline); [|done].
    rewrite !elem_of_app. right. right. left. }
  apply Hshape. exists u, y. rewrite app_nil_r. split_and!; [done | lia | done].
Qed.


Lemma filter_isword_no_newline (x : str) :
  Forall (λ c, c ≠ newline) (List.filter isword x).
Proof.
  apply Forall_forall. intros c Hc%list_elem_of_In%filter_In.
  destruct Hc as [_ Hc]. by apply isword_not_newline.
Qed.

Lemma cleaned_eq (inner : str) :
  reSub (RClass nonWord) [] inner = List.filter isword inner.
Proof.
  unfold reSub. rewrite subWalk_class. unfold nonWord.
  induction inner as [|c x IH]; simpl; [done|].
  rewrite negb_involutive. by rewrite IH.
Qed.

Lemma year_unfold (first : releaseDate) (more : list releaseDate)
    (inner : str) (divs : list str) :
  startswith (strip (dateText first)) (py "Estreia Mundial") = true →
  dateDivs first = inner :: divs →
  year (first :: more) = reSub finalYear [TGroup 1] (List.filter isword inner).
Proof.
  intros Hs Hd. unfold year. rewrite Hs, Hd. cbn [negb].
  rewrite <- cleaned_eq. by destruct inner.
Qed.

Lemma finalYear_sub (x : str) :
  Forall (λ c, c ≠ newline) x →
  (∀ pre y, x = pre ++ y → length y = 4%nat →
            Forall (λ c, isdigit c = true) y →
            reSub finalYear [TGroup 1] x = y)
  ∧ ((¬ ∃ pre y, x = pre ++ y ∧ length y = 4%nat
                 ∧ Forall (λ c, isdigit c = true) y) →
     reSub finalYear [TGroup 1] x = x).
Proof.
  intros Hnl. split.
  - intros pre y -> Hlen Hy. unfold reSub.
    rewrite (subWalk_whole _ _ _ _ [(1%nat, y)]).
    + unfold expand. simpl. by rewrite app_nil_r.
    + destruct pre; [|done]. by destruct y.
    + apply finalYear_match; [|done|done]. by apply Forall_app in Hnl as [? _].
    + apply finalYear_no_match; [constructor|].
      intros (pre' & y' & E' & Hlen' & _). by destruct pre', y'.
  - intros Hshape. unfold reSub. apply subWalk_none. intros i.
    apply finalYear_no_match; [by apply Forall_drop|].
    intros (pre & y & E & Hlen & Hy). apply Hshape.
    exists (take i x ++ pre), y.
    split; [|done]. by rewrite <- app_assoc, <- E, take_drop.
Qed.

(** X22.  [year] reads the first [div] inside the first release-date [div] whose
    stripped text begins with [Estreia Mundial]: it removes every character
    that is no word character, then gives the last four characters of what
    is left when they are digits, and all that is left when they are not.
    Without such a [div] it gives the empty string. *)
Theorem year_last_four (first : releaseDate) (more : list releaseDate)
    (inner : str) (divs : list str) :
  let cleaned := List.filter isword inner in
  (startswith (strip (dateText first)) (py "Estreia Mundial") = true →
   dateDivs first = inner :: divs →
   (∀ pre y, cleaned = pre ++ y → length y = 4%nat →
             Forall (λ c, isdigit c = true) y →
             year (first :: more) = y)
   ∧ ((¬ ∃ pre y, cleaned = pre ++ y ∧ length y = 4%nat
                  ∧ Forall (λ c, isdigit c = true) y) →
      year (first :: more) = cleaned))
  ∧ (startswith (strip (dateText first)) (py "Estreia Mundial") = false →
     year (first :: more) = [])
  ∧ (dateDivs first = [] → year (first :: more) = [])
  ∧ year [] = [].
Proof.
  intros cleaned. split; [|split; [|split; [|done]]].
  - intros Hs Hd. rewrite (year_unfold first more inner divs Hs Hd).
    apply finalYear_sub, filter_isword_no_newline.
  - intros Hs. unfold year. by rewrite Hs.
  - intros Hd. unfold year. rewrite Hd. by destruct (negb _).
Qed.

Lemma year_last_four_witness :
  year [ {| dateText := py " Estreia Mundial 12 de Maio de 1999";
            dateDivs := [py "12 de Maio de 1999"] |} ] = py "1999"
  ∧ year [ {| dateText := py "Estreia Mundial 1999 (Brasil)";
              dateDivs := [py "1999 (Brasil)"] |} ]
    = List.filter isword (py "1999 (Brasil)").
Proof.
  split.
  - apply (proj1 (proj1 (year_last_four
                           {| dateText := py " Estreia Mundial 12 de Maio de 1999";
                              dateDivs := [py "12 de Maio de 1999"] |}
                           [] (py "12 de Maio de 1999") [])
                        eq_refl eq_refl)
             (py "12deMaiode") (py "1999")).
    + reflexivity.
    + reflexivity.
    + repeat constructor.
  - apply (proj2 (proj1 (year_last_four
                           {| dateText := py "Estreia Mundial 1999 (Brasil)";
                              dateDivs := [py "1999 (Brasil)"] |}
                           [] (py "1999 (Brasil)") [])
                        eq_refl eq_refl)).
    intros (pre & y & E & Hlen & Hy).
    assert (Hlast : last (pre ++ y) = Some (chr "l")) by (by rewrite <- E).
    destruct y as [|a [|b [|c [|d [|? ?]]]]]; try done.
    rewrite last_app in Hlast. simpl in Hlast. injection Hlast as ->.
    do 3 apply Forall_cons in Hy as [_ Hy]. by apply Forall_cons in Hy as [? _].
Defined.

(** * The scraping loop *)




Lemma collectFrom_skipped lookup parse datesYear titleTypes total currentStart
    (es : list entry) i st :
  Forall (λ e : entry, allowed titleTypes e.2 = false) es →
  collectFrom lookup parse datesYear titleTypes total currentStart i es st
  = Ok st.
Proof.
  intros H. revert i. induction H as [|[[url rating] hint] es He _ IH];
    intros i; simpl; [done|].
  simpl in He. rewrite He. simpl. apply IH.
Qed.


(** X24.  The selected letters are the first letters of the selected title types
    and the hint of an entry of a user collection is [series], [short] or
    [film]: the entries of [curtas/] carry the hint [short], which is
    allowed only when a selected title type begins with [s].  So after the
    options [-s] and [-f] every entry of the short films of a user is
    skipped, without a lookup: the table stays empty. *)
Theorem collectTable_shorts (lookup : str → str) (parse : str → entryPage)
    (datesYear : str → str) (partialEntries : list entry) (outputFile : str)
    (selected : list str) (total currentStart : Z) :
  let titleTypes := map (λ t, hd Ascii.zero t) selected in
  (allowed titleTypes (titleTypeOf (py "curtas/")) = true
   ↔ ∃ t rest, chr "s" :: rest = t ∧ t ∈ selected)
  ∧ (Forall (λ e : entry, allowed titleTypes e.2 = false) partialEntries →
     ∃ st, collectTable lookup parse datesYear partialEntries outputFile
             titleTypes total currentStart = Ok st
           ∧ table st = [] ∧ lookups st = [])
  ∧ (∀ st0, options [py "-s"] st0 false
            = ([], inl (withTitleTypes st0 [py "curtas/"])))
  ∧ (∀ st0, options [py "-f"] st0 false
            = ([], inl (withTitleTypes st0 [py "filmes/"; py "curtas/"]))).
Proof.
  intros titleTypes. split; [|split; [|by split]].
  - change (titleTypeOf (py "curtas/")) with (py "short"). unfold allowed.
    change (py "short") with (chr "s" :: py "hort"). cbv beta iota.
    unfold oneOf. rewrite existsb_exists. subst titleTypes. split.
    + intros (c & Hin & Hc). apply eqc_true in Hc. subst c.
      apply in_map_iff in Hin as (t & Ht & Hin).
      destruct t as [|c rest].
      * simpl in Ht. discriminate Ht.
      * simpl in Ht. subst c. exists (chr "s" :: rest), rest.
        split; [done|]. by apply list_elem_of_In.
    + intros (t & rest & <- & Hin). exists (chr "s").
      split; [|by apply eqc_true]. apply in_map_iff.
      exists (chr "s" :: rest). split; [done|]. by apply list_elem_of_In.
  - intros Hskip. unfold collectTable.
    rewrite collectFrom_skipped by done. simpl. eauto.
Qed.


Lemma collectTable_shorts_witness :
  ∃ st, collectTable (λ _, py "page")
          (λ _, {| runningTimes := []; activeTabs := []; releaseDates := [];
                   originalTitle := []; directors := [] |})
          (λ _, []) [(py "u", py "4.0", py "short")] (py "f.csv")
          (map (λ t, hd Ascii.zero t) [py "curtas/"]) 1 0 = Ok st
        ∧ table st = [] ∧ lookups st = [].
Proof.
  apply (proj1 (proj2 (collectTable_shorts (λ _, py "page")
                  (λ _, {| runningTimes := []; activeTabs := [];
                           releaseDates := []; originalTitle := [];
                           directors := [] |})
                  (λ _, []) [(py "u", py "4.0", py "short")] (py "f.csv")
                  [py "curtas/"] 1 0))).
  repeat constructor.
Defined.


(** * The year of the dates page *)

Lemma length_lastFour (x : str) : (length (lastFour x) ≤ 4)%nat.
Proof. unfold lastFour. rewrite length_drop. lia. Qed.

Lemma length_worldwide (dates : list (list str)) :
  (length (worldwide dates) ≤ 4)%nat.
Proof.
  induction dates as [|details dates IH]; simpl; [lia|].
  destruct details as [|place [|day [|third others]]]; try done.
  case_match; [apply length_lastFour | done].
Qed.

Lemma worldwide_first (before after : list (list str)) day third others :
  Forall (λ details, (length details < 3)%nat
                     ∨ head details ≠ Some (py "Mundial")) before →
  worldwide (before ++ (py "Mundial" :: day :: third :: others) :: after)
  = lastFour (strip day).
Proof.
  induction 1 as [|details before Hd _ IH]; simpl; [done|].
  destruct details as [|place [|d [|t o]]]; try done.
  destruct Hd as [Hd|Hd]; [simpl in Hd; lia|].
  case_match eqn:Em; [|done].
  apply bool_decide_eq_true in Em. subst place. by destruct Hd.
Qed.

Lemma worldwide_none (dates : list (list str)) :
  Forall (λ details, (length details < 3)%nat
                     ∨ head details ≠ Some (py "Mundial")) dates →
  worldwide dates = [].
Proof.
  induction 1 as [|details dates Hd _ IH]; simpl; [done|].
  destruct details as [|place [|d [|t o]]]; try done.
  destruct Hd as [Hd|Hd]; [simpl in Hd; lia|].
  case_match eqn:Em; [|done].
  apply bool_decide_eq_true in Em. subst place. by destruct Hd.
Qed.

(** X25.  [yearFromDatesPage] looks up the dates page of the entry and gives the
    last four characters of the stripped date of the first row that has at
    least three cells and [Mundial] in the first; it never gives more than
    four characters, and it gives the empty string when the page cannot be
    read or holds no such row. *)
Theorem yearFromDatesPage_worldwide (lookup : str → str)
    (parseDates : str → list (list str)) (entryURL : str) :
  let page := lookup (datesPageURL entryURL) in
  (length (yearFromDatesPage lookup parseDates entryURL) ≤ 4)%nat
  ∧ (page = [] → yearFromDatesPage lookup parseDates entryURL = [])
  ∧ (∀ before after day third others,
       page ≠ [] →
       parseDates page
       = before ++ (py "Mundial" :: day :: third :: others) :: after →
       Forall (λ details, (length details < 3)%nat
                          ∨ head details ≠ Some (py "Mundial")) before →
       yearFromDatesPage lookup parseDates entryURL = lastFour (strip day))
  ∧ (Forall (λ details, (length details < 3)%nat
                        ∨ head details ≠ Some (py "Mundial"))
            (parseDates page) →
     yearFromDatesPage lookup parseDates entryURL = []).
Proof.
  intros page. unfold yearFromDatesPage. fold page. split_and!.
  - destruct page; [simpl; lia | apply length_worldwide].
  - by intros ->.
  - intros before after day third others Hne E Hbefore.
    destruct page as [|c p] eqn:Ep; [done|]. rewrite E.
    by apply worldwide_first.
  - intros Hnone. destruct page; [done|]. by apply worldwide_none.
Qed.

Lemma yearFromDatesPage_worldwide_witness :
  yearFromDatesPage (λ _, py "page")
    (λ _, [[py "Brasil"; py "01/02/2000"; py "x"];
           [py "Mundial"; py " 12/05/1999 "; py "x"]])
    (py "https://filmow.com/matrix-t1234/")
  = lastFour (strip (py " 12/05/1999 ")).
Proof.
  apply (proj1 (proj2 (proj2 (yearFromDatesPage_worldwide (λ _, py "page")
           (λ _, [[py "Brasil"; py "01/02/2000"; py "x"];
                  [py "Mundial"; py " 12/05/1999 "; py "x"]])
           (py "https://filmow.com/matrix-t1234/"))))
           [[py "Brasil"; py "01/02/2000"; py "x"]] [] (py " 12/05/1999 ")
           (py "x") []).
  - discriminate.
  - reflexivity.
  - constructor; [|constructor]. right. discriminate.
Defined.

(** * Deduplication of lists put together *)

Section DedupCompose.
Context {A : Type} {EqA : EqDecision A} {CntA : Countable A}.
Implicit Types (l : list A) (known : gset A).

Lemma dedupFrom_union known1 known2 l :
  dedupFrom (known1 ∪ known2) l
  = filter (λ x, x ∉ known1) (dedupFrom known2 l).
Proof.
  revert known2. induction l as [|v l IH]; intros known2; simpl; [done|].
  destruct (decide (v ∈ known2)) as [H2|H2].
  - rewrite decide_True by set_solver. apply IH.
  - destruct (decide (v ∈ known1)) as [H1|H1].
    + rewrite decide_True by set_solver.
      rewrite filter_cons_False by (intros Hn; by apply Hn).
      rewrite <- IH. f_equal. apply set_eq. set_solver.
    + rewrite decide_False by set_solver.
      rewrite filter_cons_True by done. f_equal.
      rewrite <- IH. f_equal. apply set_eq. set_solver.
Qed.

Lemma dedupFrom_app known l1 l2 :
  dedupFrom known (l1 ++ l2)
  = dedupFrom known l1 ++ dedupFrom (list_to_set l1 ∪ known) l2.
Proof.
  revert known. induction l1 as [|v l1 IH]; intros known; simpl.
  - f_equal. apply set_eq. set_solver.
  - destruct (decide (v ∈ known)) as [Hv|Hv].
    + rewrite IH. do 2 f_equal. apply set_eq. set_solver.
    + simpl. rewrite IH. do 3 f_equal. apply set_eq. set_solver.
Qed.

Lemma deduplicatedList_app l1 l2 :
  deduplicatedList (l1 ++ l2)
  = deduplicatedList l1 ++ filter (λ x, x ∉ l1) (deduplicatedList l2).
Proof.
  rewrite !deduplicatedList_dedupFrom, dedupFrom_app. f_equal.
  rewrite dedupFrom_union. apply list_filter_iff. intros x.
  by rewrite elem_of_list_to_set.
Qed.

Lemma deduplicatedList_idem l :
  deduplicatedList (deduplicatedList l) = deduplicatedList l.
Proof.
  rewrite !deduplicatedList_dedupFrom.
  apply dedupFrom_NoDup; [apply NoDup_dedupFrom | set_solver].
Qed.

Lemma deduplicatedList_parts l1 l2 :
  deduplicatedList (deduplicatedList l1 ++ deduplicatedList l2)
  = deduplicatedList (l1 ++ l2).
Proof.
  rewrite !deduplicatedList_app, !deduplicatedList_idem. f_equal.
  apply list_filter_iff. intros x. by rewrite elem_of_deduplicatedList.
Qed.

(** X26.  Deduplicating two lists put together keeps the first list's result and
    adds what is new of the second's; so deduplicating the parts first, as
    [entries] does page by page, changes nothing of a later deduplication
    of the whole. *)
Theorem deduplicatedList_composes (l1 l2 : list A) (parts : list (list A)) :
  deduplicatedList (l1 ++ l2)
  = deduplicatedList l1 ++ filter (λ x, x ∉ l1) (deduplicatedList l2)
  ∧ deduplicatedList (deduplicatedList l1 ++ deduplicatedList l2)
    = deduplicatedList (l1 ++ l2)
  ∧ deduplicatedList (concat (map deduplicatedList parts))
    = deduplicatedList (concat parts).
Proof.
  split; [apply deduplicatedList_app|]. split; [apply deduplicatedList_parts|].
  induction parts as [|p parts IH]; simpl; [done|].
  rewrite <- (deduplicatedList_parts (deduplicatedList p)),
    deduplicatedList_idem, IH.
  apply deduplicatedList_parts.
Qed.

End DedupCompose.


(** * The release-dates url of a release-dates url *)

Lemma datesPrefix_not_entry (d pre' d' : str) :
  Forall (λ c, isdigit c = true) d →
  Forall (λ c, isdigit c = true) d' →
  datesPrefix ++ d ++ py "/" ≠ pre' ++ py "t" ++ d' ++ py "/".
Proof.
  intros Hd Hd' E.
  change (pre' ++ py "t" ++ d' ++ py "/")
    with (pre' ++ [chr "t"] ++ d' ++ [chr "/"]) in E.
  change (py "/") with [chr "/"] in E.
  rewrite !app_assoc in E. apply app_inj_tail in E as [E _].
  apply (f_equal (@rev ascii)) in E. rewrite !rev_app_distr in E.
  assert (Hr : ∀ x, Forall (λ c, isdigit c = true) x →
                    Forall (λ c, isdigit c = true) (rev x)).
  { intros x Hx. apply Forall_forall. intros c Hc.
    rewrite Forall_forall in Hx. apply Hx.
    by apply list_elem_of_In, in_rev, list_elem_of_In. }
  pose proof (takeWhile_app isdigit (rev d) (rev datesPrefix) (Hr d Hd) eq_refl)
    as [_ H1].
  pose proof (takeWhile_app isdigit (rev d') (rev [chr "t"] ++ rev pre')
                (Hr d' Hd') eq_refl) as [_ H2].
  rewrite E, H2 in H1. discriminate H1.
Qed.

(** X27.  On a url without line breaks [datesPageURL] is idempotent: the url it
    gives for an entry is not itself the url of an entry (a slash, not a
    [t], stands before the final number), so it is left as it is. *)
Theorem datesPageURL_idempotent (url : str) :
  Forall (λ c, c ≠ newline) url →
  datesPageURL (datesPageURL url) = datesPageURL url.
Proof.
  intros Hnl.
  destruct (matchAt (length url) urlToDatesURL_ url) as [[rest cs]|] eqn:Em.
  - rewrite urlToDatesURL_unfold, Nat.eqb_refl in Em.
    apply rep_inv in Em as (pre & v & -> & _ & _ & Hv).
    apply datesTail_inv in Hv as (d & Hne & Hd & -> & Hrest & _).
    assert (rest = []) as ->.
    { destruct Hrest as [-> | ->]; [done|]. exfalso.
      rewrite Forall_forall in Hnl. apply (Hnl newline); [|done].
      rewrite !elem_of_app. right. right. right. right. left. }
    rewrite app_nil_r in *.
    rewrite (datesPageURL_match pre d) by
      (try done; by apply Forall_app in Hnl as [? _]).
    apply datesPageURL_no_match.
    + apply Forall_app. split; [repeat constructor; discriminate|].
      apply Forall_app. split; [|repeat constructor; discriminate].
      eapply Forall_impl; [exact Hd|]. by intros c Hc ->.
    + intros (pre' & d' & E & _ & Hd'). by apply datesPrefix_not_entry in E.
  - assert (E : datesPageURL url = url); [|by rewrite !E].
    unfold datesPageURL, reSub. apply subWalk_none. intros i.
    destruct i as [|i]; [done|].
    rewrite urlToDatesURL_unfold.
    destruct url as [|c x]; [done|].
    replace (length (drop (S i) (c :: x)) =? length (c :: x))%nat with false;
      [done|].
    symmetry. apply Nat.eqb_neq. rewrite length_drop. simpl. lia.
Qed.

Lemma datesPageURL_idempotent_witness :
  datesPageURL (datesPageURL (py "https://filmow.com/matrix-t1234/"))
  = datesPageURL (py "https://filmow.com/matrix-t1234/").
Proof.
  apply datesPageURL_idempotent. repeat constructor; discriminate.
Defined.
